(** * A BTC/USD price oracle behind a Nostr relay: model and properties

    Shallow embedding of [server/nostr-relay.ts].

    - A number is an IEEE double: NaN, an infinity, or a finite value, kept
      as the rational it is worth ([number]). Every arithmetic operation on
      prices and token counts gives the double nearest the exact result
      ([F64.round]: round to nearest, ties to even, overflow to an
      infinity); the two zeros are one value, since no operation of the
      relay tells them apart. Clock readings, event kinds and counts are
      integers ([Z]), doubles that hold whole numbers exactly up to 2^53.
    - The relay's module-level variables (signing key, the two limiters,
      the price cache, the event store) are the fields of one record,
      [Relay], that every handler takes and returns.
    - A handler run is a function of the state, the frame and the clock
      reading of the run; it returns the new state and the effects it
      performed, in order. The one place where a run waits for the network,
      the [await] on the upstream fetches, splits the price handler in two:
      [handlePriceRequest] up to that point and [resumePriceRequest] from
      it, so that other runs can be placed in between.
    - [JSON.parse], the signature check and the hash and signature of
      [finalizeEvent] are not computed: a frame comes with the message it
      parses to, a content with the JSON value it denotes, and the
      cryptographic functions are fields of [Runtime]. The check
      [finalizeEvent] makes before it hashes is modelled: it throws on a
      template one of whose tag elements is not a string. *)

From Stdlib Require Import ZArith QArith Qminmax Qabs Qround Qpower Qreduction.
From Stdlib Require Import Lqa Lia List Bool Ascii String SpecFloat.
From Stdlib Require Import Strings.Byte.
From Stdlib Require Import Sorting.Sorted Sorting.Permutation.
From stdpp Require Import base option list gmap strings.

Set Warnings "-register-all".

Local Open Scope string_scope.
Local Open Scope list_scope.
Local Open Scope Z_scope.

(** ** JavaScript values *)

(** A number: a finite double, written as the rational it is worth, or one
    of the three special values of an IEEE double. *)
Inductive number : Type :=
| NaN
| Fin (q : Q)
| PosInf
| NegInf.

(** ** Double-precision arithmetic *)

Module F64.

Definition pow2 (e : Z) : Q := (2 ^ e)%Q.

(** The exponent of the largest power of two at or below [q], for a
    positive [q]. *)
Definition ilog2 (q : Q) : Z :=
  if Qle_bool 1 q then Z.log2 (Qfloor q) else - Z.log2_up (Qceiling (/ q)).

(** The exponent of the binade of [q]; every subnormal number has the
    exponent of the smallest normal one. *)
Definition exponent (q : Q) : Z := Z.max (ilog2 q) (-1022).

(** The distance between two neighbouring doubles of that binade: 53
    significant bits. *)
Definition ulp (q : Q) : Q := pow2 (exponent q - 52).

(** The integer nearest [x], the even one of the two when [x] lies half
    way. *)
Definition rne (x : Q) : Z :=
  let f := Qfloor x in
  match (x - inject_Z f ?= 1 # 2)%Q with
  | Lt => f
  | Gt => f + 1
  | Eq => if Z.even f then f else f + 1
  end.

(** The double nearest a rational that is not negative; [None] when that
    is beyond the largest finite double. *)
Definition round_abs (q : Q) : option Q :=
  let u := ulp q in
  let r := (inject_Z (rne (q / u)) * u)%Q in
  if Qle_bool (pow2 1024) r then None else Some (Qred r).

(** The double nearest [q]. *)
Definition round (q : Q) : number :=
  if Qle_bool 0 q then
    match round_abs q with
    | Some r => Fin r
    | None => PosInf
    end
  else
    match round_abs (- q) with
    | Some r => Fin (- r)
    | None => NegInf
    end.

(** [q] is the value of a double. *)
Definition representable (q : Q) : Prop := round q = Fin (Qred q).

(** A whole number as a double. *)
Definition of_Z (z : Z) : number := round (inject_Z z).

Definition opp (a : number) : number :=
  match a with
  | NaN => NaN
  | Fin x => Fin (- x)
  | PosInf => NegInf
  | NegInf => PosInf
  end.

(** [a + b]. *)
Definition add (a b : number) : number :=
  match a, b with
  | NaN, _ | _, NaN => NaN
  | PosInf, NegInf | NegInf, PosInf => NaN
  | PosInf, _ | _, PosInf => PosInf
  | NegInf, _ | _, NegInf => NegInf
  | Fin x, Fin y => round (x + y)
  end.

(** [a - b]. *)
Definition sub (a b : number) : number := add a (opp b).

(** [a * b]. *)
Definition mul (a b : number) : number :=
  match a, b with
  | NaN, _ | _, NaN => NaN
  | Fin x, Fin y => round (x * y)
  | Fin x, PosInf | PosInf, Fin x =>
      match (x ?= 0)%Q with
      | Eq => NaN
      | Gt => PosInf
      | Lt => NegInf
      end
  | Fin x, NegInf | NegInf, Fin x =>
      match (x ?= 0)%Q with
      | Eq => NaN
      | Gt => NegInf
      | Lt => PosInf
      end
  | PosInf, PosInf | NegInf, NegInf => PosInf
  | PosInf, NegInf | NegInf, PosInf => NegInf
  end.

(** [a / b]. The divisors of the relay are array lengths and positive
    constants; a divisor that is zero is the positive zero. *)
Definition div (a b : number) : number :=
  match a, b with
  | NaN, _ | _, NaN => NaN
  | Fin x, Fin y =>
      if Qeq_bool y 0 then
        match (x ?= 0)%Q with
        | Eq => NaN
        | Gt => PosInf
        | Lt => NegInf
        end
      else round (x / y)
  | Fin _, _ => Fin 0
  | PosInf, Fin y => if Qle_bool 0 y then PosInf else NegInf
  | NegInf, Fin y => if Qle_bool 0 y then NegInf else PosInf
  | _, _ => NaN
  end.

(** The value of a binary64 datum of the Standard Library's
    specification of floating-point arithmetic. *)
Definition of_binary64 (x : spec_float) : number :=
  match x with
  | S754_zero _ => Fin 0
  | S754_infinity false => PosInf
  | S754_infinity true => NegInf
  | S754_nan => NaN
  | S754_finite s m e =>
      Fin (Qred ((if s then -1 else 1) * inject_Z (Zpos m) * pow2 e)%Q)
  end.

End F64.

Arguments F64.round : simpl never.

(** What [JSON.parse] can return. The members of an object are kept in
    order; no two of them have the same name. A number is kept as the
    rational its text denotes; the double [JSON.parse] makes of it is the
    nearest one, [F64.round q], an infinity when the text is beyond the
    range of the doubles. *)
Inductive json : Type :=
| JNull
| JBool (b : bool)
| JNum (q : Q)
| JStr (s : string)
| JArr (items : list json)
| JObj (members : list (string * json)).

Module Js.

(** [a <= b] on numbers: false as soon as one side is NaN. *)
Definition le (a b : number) : bool :=
  match a, b with
  | NaN, _ | _, NaN => false
  | NegInf, _ => true
  | _, PosInf => true
  | Fin x, Fin y => Qle_bool x y
  | _, _ => false
  end.

(** [a < b] on numbers. *)
Definition lt (a b : number) : bool :=
  match a, b with
  | NaN, _ | _, NaN => false
  | Fin x, Fin y => negb (Qle_bool y x)
  | PosInf, _ | _, NegInf => false
  | _, _ => true
  end.

(** [Math.min(a, b)]. *)
Definition min (a b : number) : number :=
  match a, b with
  | NaN, _ | _, NaN => NaN
  | NegInf, _ | _, NegInf => NegInf
  | PosInf, y => y
  | x, PosInf => x
  | Fin x, Fin y => Fin (Qmin x y)
  end.

(** [v[k]] for a parsed value: [None] stands for [undefined]. The four
    names the handler reads are not properties of strings, numbers,
    booleans or arrays. *)
Fixpoint assoc (k : string) (ms : list (string * json)) : option json :=
  match ms with
  | [] => None
  | (k', v) :: ms' => if String.eqb k k' then Some v else assoc k ms'
  end.

Definition prop (v : json) (k : string) : option json :=
  match v with
  | JObj ms => assoc k ms
  | _ => None
  end.

(** [a ?? b]: the right side is taken when the left is [undefined] or
    [null]. *)
Definition nullish (a : option json) (b : json) : json :=
  match a with
  | None | Some JNull => b
  | Some v => v
  end.

(** Truthiness of a parsed value. *)
Definition truthy (v : json) : bool :=
  match v with
  | JNull => false
  | JBool b => b
  | JNum q =>
      match F64.round q with
      | Fin x => negb (Qeq_bool x 0)
      | _ => true
      end
  | JStr s => negb (String.eqb s "")
  | JArr _ | JObj _ => true
  end.

Fixpoint join (sep : string) (parts : list string) : string :=
  match parts with
  | [] => ""
  | [p] => p
  | p :: ps => (p ++ sep ++ join sep ps)%string
  end.

Section Coercions.
(** The two conversions between numbers and text belong to the
    language runtime; they stay parameters. *)
Variable Number_toString : number -> string.
Variable StringToNumber : string -> number.

(** [String(v)]. *)
Fixpoint String_ (v : json) : string :=
  match v with
  | JNull => "null"
  | JBool true => "true"
  | JBool false => "false"
  | JNum q => Number_toString (F64.round q)
  | JStr s => s
  | JArr items =>
      join "," (List.map (fun x => match x with
                                   | JNull => ""
                                   | _ => String_ x
                                   end) items)
  | JObj _ => "[object Object]"
  end.

(** [Number(v)]. *)
Definition Number_ (v : json) : number :=
  match v with
  | JNull => Fin 0
  | JBool true => Fin 1
  | JBool false => Fin 0
  | JNum q => F64.round q
  | JStr s => StringToNumber s
  | JArr _ | JObj _ => StringToNumber (String_ v)
  end.
End Coercions.

End Js.

(** ** Data model (shared/schema.ts) *)

Definition KIND_PRICE_REQ : Z := 38000.
Definition KIND_PRICE_RES : Z := 38001.
Definition KIND_PRICE_ERR : Z := 38002.

(** A sample's value is finite: [fetchPrice] throws on any other. *)
Record PriceSample : Type := mkSample {
  source : string;
  value : Q;
  ts : Z
}.

(** ** Aggregation *)

Section Sort.
Context {A : Type}.
(** The comparator's sign test: [before a b] holds when [cmp(a, b) <= 0]. *)
Variable before : A -> A -> bool.

Fixpoint insert_sorted (x : A) (l : list A) : list A :=
  match l with
  | [] => [x]
  | y :: l' => if before x y then x :: l else y :: insert_sorted x l'
  end.

(** [[...l].sort(cmp)]: the copy is sorted, stably (equal keys keep their
    input order), as the language requires of [Array.prototype.sort]. *)
Fixpoint sort (l : list A) : list A :=
  match l with
  | [] => []
  | x :: l' => insert_sorted x (sort l')
  end.
End Sort.

(** [(a, b) => a - b] is non-positive exactly when [a <= b]: the
    difference of two finite doubles is rounded, to an infinity at most,
    and keeps its sign. *)
Definition by_number (a b : Q) : bool := Qle_bool a b.
Definition by_value (a b : PriceSample) : bool := Qle_bool (value a) (value b).

(** [values.reduce((a, b) => a + b, 0)]. *)
Definition sum (values : list Q) : number :=
  fold_left (fun a b => F64.add a (Fin b)) values (Fin 0).

(** [arr[i]] on an array of numbers, [None] for [undefined]. *)
Definition at_index (arr : list Q) (i : Z) : option Q :=
  if i <? 0 then None else nth_error arr (Z.to_nat i).

Definition median (values : list Q) : number :=
  let arr := sort by_number values in
  let len := Z.of_nat (length arr) in
  let mid := len / 2 in
  if len mod 2 =? 0 then
    match at_index arr (mid - 1), at_index arr mid with
    | Some a, Some b => F64.div (F64.add (Fin a) (Fin b)) (Fin 2)
    | _, _ => NaN
    end
  else
    match at_index arr mid with
    | Some a => Fin a
    | None => NaN
    end.

Definition mean (values : list Q) : number :=
  F64.div (sum values) (F64.of_Z (Z.of_nat (length values))).

Record Aggregate : Type := mkAggregate {
  agg_value : number;
  agg_method : string;
  agg_used : list PriceSample
}.

(** [arr.slice(1, -1)]. *)
Definition slice_1_m1 {A} (l : list A) : list A := removelast (tl l).

(** A computation that may throw. *)
Inductive result (A : Type) : Type :=
| Ok (a : A)
| Throw (msg : string).
Arguments Ok {A} a.
Arguments Throw {A} msg.

Definition aggregate (samples : list PriceSample) (method : string) : result Aggregate :=
  let values := List.map value samples in
  if (length values =? 0)%nat then Throw "no samples"
  else if String.eqb method "trimmed_mean" && (5 <=? length samples)%nat then
    let sorted := sort by_value samples in
    let used := slice_1_m1 sorted in
    Ok (mkAggregate (mean (List.map value used)) "trimmed_mean" used)
  else if (3 <=? length samples)%nat then
    Ok (mkAggregate (median values) "median" samples)
  else
    Ok (mkAggregate (mean values) "mean" samples).

(** ** Configuration *)

(** The constants read from the environment when the module loads. *)
Record Config : Type := mkConfig {
  MIN_QUORUM : Z;
  CACHE_TTL_MS : Z;
  MAX_REQUEST_MAXAGE_MS : Z;
  MAX_EVENT_BYTES : Z;
  MAX_STORED_EVENTS : Z;
  RATE_IP_RPS : Q;
  RATE_PUBKEY_RPS : Q;
  RATE_BURST : Q
}.

Definition default_config : Config :=
  mkConfig 3 2000 60000 64000 10000 3 2 10.

(** ** Rate limiter *)

Record Bucket : Type := mkBucket {
  tokens : number;
  last : Z
}.

Record RateLimiter : Type := mkLimiter {
  rps : Q;
  burst : Q;
  buckets : gmap string Bucket
}.

Definition new_RateLimiter (rps burst : Q) : RateLimiter := mkLimiter rps burst ∅.

(** The token count after the refill step of [allow]: a division, a
    product and a sum, each rounded. *)
Definition refill (rl : RateLimiter) (b : Bucket) (nowMs : Z) : number :=
  let elapsed := F64.div (F64.of_Z (nowMs - last b)) (Fin 1000) in
  Js.min (Fin (burst rl)) (F64.add (tokens b) (F64.mul elapsed (Fin (rps rl)))).

Definition allow (rl : RateLimiter) (key : string) (nowMs : Z) : bool * RateLimiter :=
  let b := default (mkBucket (Fin (burst rl)) nowMs) (buckets rl !! key) in
  let tokens' := refill rl b nowMs in
  if Js.lt tokens' (Fin 1) then
    (false, mkLimiter (rps rl) (burst rl) (<[key := mkBucket tokens' nowMs]> (buckets rl)))
  else
    (true, mkLimiter (rps rl) (burst rl)
             (<[key := mkBucket (F64.sub tokens' (Fin 1)) nowMs]> (buckets rl))).

(** A run of calls on one limiter, oldest first; the answers come back in
    the same order. *)
Fixpoint allow_all (rl : RateLimiter) (calls : list (string * Z)) : list bool * RateLimiter :=
  match calls with
  | [] => ([], rl)
  | (key, nowMs) :: rest =>
      let '(ok, rl') := allow rl key nowMs in
      let '(oks, rl'') := allow_all rl' rest in
      (ok :: oks, rl'')
  end.

(** How many of the calls made with [key] were admitted. *)
Fixpoint admitted (key : string) (calls : list (string * Z)) (answers : list bool) : Z :=
  match calls, answers with
  | (k, _) :: calls', ok :: answers' =>
      (if String.eqb k key && ok then 1 else 0) + admitted key calls' answers'
  | _, _ => 0
  end.

(** ** Price cache *)

Record CacheEntry : Type := mkCacheEntry {
  tsMs : Z;
  samples : list PriceSample
}.

Record CacheHit : Type := mkCacheHit {
  hit_tsMs : Z;
  hit_samples : list PriceSample;
  ageMs : Z
}.

Definition cacheGet (cfg : Config) (now : Z) (priceCache : option CacheEntry) : option CacheHit :=
  match priceCache with
  | None => None
  | Some c =>
      let ageMs := now - tsMs c in
      if ageMs >? CACHE_TTL_MS cfg then None
      else Some (mkCacheHit (tsMs c) (samples c) ageMs)
  end.

Definition cacheSet (now : Z) (samples : list PriceSample) : option CacheEntry :=
  Some (mkCacheEntry now samples).

(** ** Events, filters and the store *)

(** An event's content is text.  The relay reads it only through
    [JSON.parse] and writes it only through [JSON.stringify]; text that is
    JSON is kept as the value it denotes, any other text as it is. *)
Inductive Content : Type :=
| Json (j : json)
| Text (s : string).

Record NostrEvent : Type := mkEvent {
  id : string;
  pubkey : string;
  created_at : Z;
  kind : Z;
  tags : list (list json);
  content : Content;
  sig : string
}.

Definition safeJsonParse (c : Content) : option json :=
  match c with
  | Json j => Some j
  | Text _ => None
  end.

(** The first tag named [name] whose second element is truthy. *)
Fixpoint getTag_from (tags : list (list json)) (name : string) : option json :=
  match tags with
  | [] => None
  | t :: rest =>
      match t with
      | JStr n :: v :: _ =>
          if String.eqb n name && Js.truthy v then Some v else getTag_from rest name
      | _ => getTag_from rest name
      end
  end.

Definition getTag (evt : NostrEvent) (name : string) : option json :=
  getTag_from (tags evt) name.

Definition storeEvent (cfg : Config) (evt : NostrEvent) (events : list NostrEvent)
  : list NostrEvent :=
  let events := events ++ [evt] in
  let len := Z.of_nat (length events) in
  if len >? MAX_STORED_EVENTS cfg
  then skipn (Z.to_nat (len - MAX_STORED_EVENTS cfg)) events
  else events.

(** A subscription filter, with the fields of the [NostrFilter] interface,
    numbers being integers; [tag_filters] holds the members whose name
    starts with [#], the name stored without that character. *)
Record NostrFilter : Type := mkFilter {
  ids : option (list string);
  kinds : option (list Z);
  authors : option (list string);
  since : option Z;
  until : option Z;
  limit : option Z;
  tag_filters : list (string * list string)
}.

Definition includes_str (l : list string) (x : string) : bool := existsb (String.eqb x) l.
Definition includes_Z (l : list Z) (x : Z) : bool := existsb (Z.eqb x) l.

(** [have.includes(x)] for a string [x]: the second elements of the tags,
    [None] where a tag has a single element. *)
Definition includes_tagval (have : list (option json)) (x : string) : bool :=
  existsb (fun h => match h with
                    | Some (JStr y) => String.eqb x y
                    | _ => false
                    end) have.

Definition tag_values (evt : NostrEvent) (tagName : string) : list (option json) :=
  List.map (fun t => nth_error t 1)
    (List.filter (fun t => match t with
                           | JStr n :: _ => String.eqb n tagName
                           | _ => false
                           end) (tags evt)).

Definition matchFilter (evt : NostrEvent) (f : NostrFilter) : bool :=
  if match ids f with Some l => negb (includes_str l (id evt)) | None => false end then false
  else if match kinds f with Some l => negb (includes_Z l (kind evt)) | None => false end then false
  else if match authors f with Some l => negb (includes_str l (pubkey evt)) | None => false end
  then false
  else if match since f with
          | Some t => negb (t =? 0) && (created_at evt <? t)
          | None => false
          end then false
  else if match until f with
          | Some t => negb (t =? 0) && (created_at evt >? t)
          | None => false
          end then false
  else
    forallb (fun '(tagName, want) =>
               let have := tag_values evt tagName in
               existsb (includes_tagval have) want)
            (tag_filters f).

(** The inner loop of [queryEvents]: [walk] is the part of the store not
    yet visited, newest first. *)
Fixpoint collect (f : NostrFilter) (limit : Z) (walk : list NostrEvent)
    (matched : list NostrEvent) : list NostrEvent :=
  match walk with
  | [] => matched
  | e :: walk' =>
      if Z.of_nat (length matched) <? limit
      then collect f limit walk' (if matchFilter e f then matched ++ [e] else matched)
      else matched
  end.

Definition filter_limit (f : NostrFilter) : Z := Z.min (default 200 (limit f)) 2000.

Definition queryEvents (events : list NostrEvent) (filters : list NostrFilter)
  : list NostrEvent :=
  fold_left (fun out f => out ++ collect f (filter_limit f) (rev events) []) filters [].

(** ** Signing and verification *)

(** What the relay takes from the language runtime and from the
    [nostr-tools] package: the number/text conversions, the check of an
    event's identifier and signature, and the primitives that
    [finalizeEvent] is made of. *)
Record Runtime : Type := mkRuntime {
  Number_toString : number -> string;
  StringToNumber : string -> number;
  nostrVerifyEvent : NostrEvent -> bool;
  getPublicKey : string -> string;
  getEventHash : string -> Z -> Z -> list (list json) -> Content -> string;
  schnorrSign : string -> string -> string
}.

Record EventTemplate : Type := mkTemplate {
  t_kind : Z;
  t_tags : list (list json);
  t_content : Content
}.

Definition nowSec (now : Z) : Z := now / 1000.

(** [typeof x === "string"]. *)
Definition is_string (x : json) : bool :=
  match x with
  | JStr _ => true
  | _ => false
  end.

Definition tags_are_strings (tags : list (list json)) : bool :=
  forallb (forallb is_string) tags.

Section Relay.
Variable cfg : Config.
Variable rt : Runtime.

Definition verifyEvent (evt : NostrEvent) : bool :=
  if String.eqb (id evt) "" || String.eqb (pubkey evt) "" || String.eqb (sig evt) ""
  then false
  else nostrVerifyEvent rt evt.

(** [finalizeEvent(template, secretKey)]: fills in the public key, the
    identifier and the signature. Before it hashes the event, the package
    checks its shape and throws when a tag holds an element that is not a
    string; the other parts of that check (a numeric kind and time, a
    textual content, a public key of 64 hexadecimal digits) hold of every
    template [signEvent] builds. *)
Definition finalizeEvent (created_at : Z) (params : EventTemplate) (sk : string)
  : result NostrEvent :=
  if tags_are_strings (t_tags params) then
    let pk := getPublicKey rt sk in
    let h := getEventHash rt pk created_at (t_kind params) (t_tags params) (t_content params) in
    Ok (mkEvent h pk created_at (t_kind params) (t_tags params) (t_content params)
                (schnorrSign rt h sk))
  else Throw "can't serialize event with wrong or missing properties".

Definition signEvent (RELAY_SECRET_KEY : option string) (now : Z) (params : EventTemplate)
  : result NostrEvent :=
  match RELAY_SECRET_KEY with
  | None => Throw "Relay secret key not initialized"
  | Some sk => finalizeEvent (nowSec now) params sk
  end.

(** ** Relay state and wire messages *)

Record Relay : Type := mkRelay {
  RELAY_SECRET_KEY : option string;
  ipLimiter : RateLimiter;
  pubLimiter : RateLimiter;
  priceCache : option CacheEntry;
  events : list NostrEvent
}.

Definition set_ipLimiter (l : RateLimiter) (r : Relay) : Relay :=
  mkRelay (RELAY_SECRET_KEY r) l (pubLimiter r) (priceCache r) (events r).
Definition set_pubLimiter (l : RateLimiter) (r : Relay) : Relay :=
  mkRelay (RELAY_SECRET_KEY r) (ipLimiter r) l (priceCache r) (events r).
Definition set_priceCache (c : option CacheEntry) (r : Relay) : Relay :=
  mkRelay (RELAY_SECRET_KEY r) (ipLimiter r) (pubLimiter r) c (events r).
Definition set_events (es : list NostrEvent) (r : Relay) : Relay :=
  mkRelay (RELAY_SECRET_KEY r) (ipLimiter r) (pubLimiter r) (priceCache r) es.

(** The state [setupNostrRelay] leaves behind: a key, two empty limiters,
    no cache entry, no event. *)
Definition initial_relay (sk : string) : Relay :=
  mkRelay (Some sk)
          (new_RateLimiter (RATE_IP_RPS cfg) (RATE_BURST cfg))
          (new_RateLimiter (RATE_PUBKEY_RPS cfg) (RATE_BURST cfg))
          None [].

Inductive ReadyState : Type := CONNECTING | OPEN | CLOSING | CLOSED.

Record ExtendedWebSocket : Type := mkSocket {
  readyState : ReadyState;
  ip : string;
  subs : gmap string (list NostrFilter)
}.

Definition set_subs (m : gmap string (list NostrFilter)) (ws : ExtendedWebSocket)
  : ExtendedWebSocket :=
  mkSocket (readyState ws) (ip ws) m.

(** Relay to client. *)
Inductive RelayMsg : Type :=
| NOTICE (text : string)
| OK (event_id : string) (accepted : bool) (message : string)
| EVENT (e : NostrEvent)
| EVENT_for (subId : string) (e : NostrEvent)
| EOSE (subId : string).

(** Client to relay, as [safeJsonParse] and the dispatch on [msg[0]] read
    a frame; [C_other] is every frame the handler drops without an answer
    (not JSON, not an array, fewer than two elements, another type). *)
Inductive ClientMsg : Type :=
| C_EVENT (evt : NostrEvent)
| C_REQ (subId : string) (filters : list NostrFilter)
| C_CLOSE (subId : string)
| C_other.

Record RawData : Type := mkRaw {
  bytes : list byte;
  parsed : ClientMsg
}.

(** What a handler does to the outside, in order: a frame written to the
    socket it serves, a message handed to [broadcast], an upstream fetch
    started for a source. *)
Inductive Effect : Type :=
| Sent (msg : RelayMsg)
| Broadcast (msg : RelayMsg)
| Fetch (source : string).

(** [send(ws, msg)] writes only to an open socket. *)
Definition send (ws : ExtendedWebSocket) (msg : RelayMsg) : list Effect :=
  match readyState ws with
  | OPEN => [Sent msg]
  | _ => []
  end.

(** [broadcast(msg)] writes the message to every client whose socket is
    open; a run records the call. *)
Definition broadcast (msg : RelayMsg) : list Effect := [Broadcast msg].

(** A handler run ends by returning or by throwing; the state reached and
    the effects performed are there in both cases. *)
Inductive Outcome (A : Type) : Type :=
| Returned (a : A) (r : Relay) (out : list Effect)
| Thrown (msg : string) (r : Relay) (out : list Effect).
Arguments Returned {A} a r out.
Arguments Thrown {A} msg r out.

(** [JSON.stringify] turns a number that is not finite into [null]. *)
Definition number_json (n : number) : json :=
  match n with
  | Fin q => JNum q
  | _ => JNull
  end.

Definition sample_json (s : PriceSample) : json :=
  JObj [("source", JStr (source s)); ("value", JNum (value s));
        ("ts", JNum (inject_Z (ts s)))].

(** [raw.toString().length]: the number of UTF-16 code units of the text
    that the bytes encode in UTF-8, the encoding being well formed. A byte
    that starts a character of up to three bytes counts one unit, a byte
    that starts a four-byte character counts two, a continuation byte
    counts none. *)
Definition code_units (b : byte) : Z :=
  let n := Z.of_N (Byte.to_N b) in
  if n <? 128 then 1
  else if n <? 192 then 0
  else if n <? 240 then 1
  else 2.

Definition toString_length (bs : list byte) : Z :=
  fold_left (fun acc b => acc + code_units b) bs 0.

Definition byteLength (bs : list byte) : Z := Z.of_nat (length bs).

(** ** The price request handler *)

Definition ALL_SOURCES : list string := ["coinbase"; "kraken"; "coingecko"; "bitstamp"].

Definition req_body (evt : NostrEvent) : json :=
  Js.nullish (safeJsonParse (content evt)) (JObj []).

Definition req_pair (evt : NostrEvent) : json :=
  Js.nullish (Js.prop (req_body evt) "pair")
    (Js.nullish (getTag evt "pair") (JStr "BTC-USD")).

Definition req_method (evt : NostrEvent) : string :=
  Js.String_ (Number_toString rt)
    (Js.nullish (Js.prop (req_body evt) "method") (JStr "trimmed_mean")).

Definition req_maxAgeMsReq (evt : NostrEvent) : number :=
  Js.Number_ (Number_toString rt) (StringToNumber rt)
    (Js.nullish (Js.prop (req_body evt) "maxAgeMs") (JNum 20000)).

Definition req_maxAgeMs (evt : NostrEvent) : number :=
  Js.min (req_maxAgeMsReq evt) (Fin (inject_Z (MAX_REQUEST_MAXAGE_MS cfg))).

Definition req_wantedSources (evt : NostrEvent) : list string :=
  match Js.prop (req_body evt) "sources" with
  | Some (JArr items) =>
      omap (fun s => match s with
                     | JStr x => if includes_str ALL_SOURCES x then Some x else None
                     | _ => None
                     end) items
  | _ => ALL_SOURCES
  end.

Definition req_sources (evt : NostrEvent) : list string :=
  match req_wantedSources evt with
  | [] => ALL_SOURCES
  | wanted => wanted
  end.

(** [pair !== "BTC-USD"]. *)
Definition is_BTC_USD (pair : json) : bool :=
  match pair with
  | JStr p => String.eqb p "BTC-USD"
  | _ => false
  end.

Definition reply_tags (evt : NostrEvent) (marker : string) (pair : json)
  : list (list json) :=
  [[JStr "e"; JStr (id evt); JStr "reply"];
   [JStr "p"; JStr (pubkey evt)];
   [JStr "t"; JStr marker];
   [JStr "pair"; pair]].

Definition unsupported_pair_params (evt : NostrEvent) (pair : json) : EventTemplate :=
  mkTemplate KIND_PRICE_ERR (reply_tags evt "price-error" pair)
    (Json (JObj [("error", JStr "unsupported pair"); ("pair", pair)])).

Definition quorum_params (evt : NostrEvent) (pair : json) (got : Z) (sources : list string)
  : EventTemplate :=
  mkTemplate KIND_PRICE_ERR (reply_tags evt "price-error" pair)
    (Json (JObj [("error", JStr "insufficient quorum");
                 ("need", JNum (inject_Z (MIN_QUORUM cfg)));
                 ("got", JNum (inject_Z got));
                 ("sources_requested", JArr (List.map JStr sources))])).

Definition response_params (evt : NostrEvent) (pair : json) (now : Z) (a : Aggregate)
    (hit : bool) (age : Z) : EventTemplate :=
  mkTemplate KIND_PRICE_RES
    (reply_tags evt "price" pair
       ++ List.map (fun s => [JStr "src"; JStr (source s)]) (agg_used a))
    (Json (JObj [("pair", pair);
                 ("ts", JNum (inject_Z now));
                 ("value", number_json (agg_value a));
                 ("method", JStr (agg_method a));
                 ("sources_used", JArr (List.map (fun s => JStr (source s)) (agg_used a)));
                 ("samples", JArr (List.map sample_json (agg_used a)));
                 ("cache", JObj [("hit", JBool hit); ("ageMs", JNum (inject_Z age))])])).

(** The three lines every branch ends with: sign, store, broadcast. *)
Definition emit (r : Relay) (now : Z) (params : EventTemplate) : Outcome unit :=
  match signEvent (RELAY_SECRET_KEY r) now params with
  | Throw m => Thrown m r []
  | Ok e => Returned tt (set_events (storeEvent cfg e (events r)) r) (broadcast (EVENT e))
  end.

(** A request that waits for its upstream fetches to settle: the local
    bindings the rest of the handler still reads. *)
Record Pending : Type := mkPending {
  p_evt : NostrEvent;
  p_pair : json;
  p_method : string;
  p_sources : list string;
  p_ts : Z
}.

Inductive Step : Type :=
| Finished
| Awaiting (k : Pending).

Definition after {A} (out : list Effect) (o : Outcome A) : Outcome A :=
  match o with
  | Returned a r out' => Returned a r (out ++ out')
  | Thrown m r out' => Thrown m r (out ++ out')
  end.

Definition finish (o : Outcome unit) : Outcome Step :=
  match o with
  | Returned _ r out => Returned Finished r out
  | Thrown m r out => Thrown m r out
  end.

(** The handler from the test on the kind up to the point where it awaits
    the fetches. [now] is the clock reading of this run. *)
Definition handlePriceRequest (r : Relay) (evt : NostrEvent) (now : Z) : Outcome Step :=
  let pair := req_pair evt in
  let method := req_method evt in
  let maxAgeMs := req_maxAgeMs evt in
  if negb (is_BTC_USD pair) then
    finish (emit r now (unsupported_pair_params evt pair))
  else
    let fan_out :=
      let sources := req_sources evt in
      Returned (Awaiting (mkPending evt pair method sources now)) r
               (List.map Fetch sources) in
    match cacheGet cfg now (priceCache r) with
    | Some cached =>
        if Js.le (Fin (inject_Z (ageMs cached))) maxAgeMs then
          match aggregate (hit_samples cached) method with
          | Throw m => Thrown m r []
          | Ok a => finish (emit r now (response_params evt pair now a true (ageMs cached)))
          end
        else fan_out
    | None => fan_out
    end.

(** [fetchPrice(source)], given how its attempts ended: with a finite
    price, or with an error after the last retry. *)
Definition fetchPrice (settled : option Q) (source : string) (ts : Z) : option PriceSample :=
  if includes_str ALL_SOURCES source then
    match settled with
    | Some price => Some (mkSample source price ts)
    | None => None
    end
  else None.

Fixpoint settle_from (upstream : nat -> string -> option Q) (i : nat)
    (sources : list string) (ts : Z) : list (option PriceSample) :=
  match sources with
  | [] => []
  | src :: rest => fetchPrice (upstream i src) src ts :: settle_from upstream (S i) rest ts
  end.

(** The handler from the moment all fetches have settled. [upstream i src]
    is how the [i]-th fetch, for [src], ended. *)
Definition resumePriceRequest (r : Relay) (k : Pending)
    (upstream : nat -> string -> option Q) (now : Z) : Outcome unit :=
  let results := settle_from upstream 0 (p_sources k) (p_ts k) in
  let samples := omap (fun x => x) results in
  if Z.of_nat (length samples) <? MIN_QUORUM cfg then
    emit r now (quorum_params (p_evt k) (p_pair k) (Z.of_nat (length samples)) (p_sources k))
  else
    let r := set_priceCache (cacheSet now samples) r in
    match aggregate samples (p_method k) with
    | Throw m => Thrown m r []
    | Ok a => emit r now (response_params (p_evt k) (p_pair k) now a false 0)
    end.

(** ** The connection's message handler *)

(** The [EVENT] branch. Both limiters read the clock of this run. *)

Definition onEVENT (ws : ExtendedWebSocket) (evt : NostrEvent) (now : Z) (r : Relay)
  : Outcome Step :=
  if negb (verifyEvent evt) then
    Returned Finished r (send ws (OK (id evt) false "invalid: bad sig or id"))
  else
    let '(ok_ip, ipl) := allow (ipLimiter r) ("ip:" ++ ip ws)%string now in
    let r := set_ipLimiter ipl r in
    if negb ok_ip then
      Returned Finished r (send ws (OK (id evt) false "rate limited (ip)"))
    else
      let '(ok_pub, publ) := allow (pubLimiter r) ("pub:" ++ pubkey evt)%string now in
      let r := set_pubLimiter publ r in
      if negb ok_pub then
        Returned Finished r (send ws (OK (id evt) false "rate limited (pubkey)"))
      else
        let r := set_events (storeEvent cfg evt (events r)) r in
        let out := send ws (OK (id evt) true "accepted") in
        if kind evt =? KIND_PRICE_REQ then after out (handlePriceRequest r evt now)
        else Returned Finished r out.

(** The [REQ] branch. *)
Definition onREQ (ws : ExtendedWebSocket) (subId : string) (filters : list NostrFilter)
    (r : Relay) : ExtendedWebSocket * list Effect :=
  let ws := set_subs (<[subId := filters]> (subs ws)) ws in
  let found := queryEvents (events r) filters in
  (ws, flat_map (fun e => send ws (EVENT_for subId e)) found ++ send ws (EOSE subId)).

(** The size guard, the parse and the dispatch on the frame's type. *)
Definition onMessage (ws : ExtendedWebSocket) (raw : RawData) (now : Z) (r : Relay)
  : ExtendedWebSocket * Outcome Step :=
  if toString_length (bytes raw) >? MAX_EVENT_BYTES cfg then
    (ws, Returned Finished r (send ws (NOTICE "payload too large")))
  else
    match parsed raw with
    | C_other => (ws, Returned Finished r [])
    | C_EVENT evt => (ws, onEVENT ws evt now r)
    | C_REQ subId filters =>
        let '(ws, out) := onREQ ws subId filters r in
        (ws, Returned Finished r out)
    | C_CLOSE subId =>
        (set_subs (delete subId (subs ws)) ws, Returned Finished r [])
    end.
End Relay.

Arguments Returned {A} a r out.
Arguments Thrown {A} msg r out.

(** ** Retries and the upstream fetchers *)

(** How a promise settles; a rejection carries what was thrown, [None]
    standing for [undefined]. *)
Inductive Settled (A : Type) : Type :=
| Fulfilled (a : A)
| Rejected (err : option string).
Arguments Fulfilled {A} a.
Arguments Rejected {A} err.

(** The loop of [withRetries]: [attempt i] is how the call of [fn] made
    with loop counter [i] ends, [rounds] is the number of values of [i]
    still to go. The second component counts the calls of [fn]. *)
Fixpoint retry_from {A} (attempt : nat -> result A) (i rounds : nat)
    (lastErr : option string) : Settled A * nat :=
  match rounds with
  | O => (Rejected lastErr, i)
  | S rounds' =>
      match attempt i with
      | Ok a => (Fulfilled a, S i)
      | Throw e => retry_from attempt (S i) rounds' (Some e)
      end
  end.

(** [withRetries(fn, retries)]: the counter runs from 0 while
    [i <= retries]. *)
Definition withRetries {A} (attempt : nat -> result A) (retries : Z) : Settled A * nat :=
  retry_from attempt 0 (Z.to_nat (retries + 1)) None.

Module Upstream.

Definition coinbase_url : string :=
  "https://api.exchange.coinbase.com/products/BTC-USD/ticker".
Definition kraken_url : string :=
  "https://api.kraken.com/0/public/Ticker?pair=XBTUSD".
Definition coingecko_url : string :=
  "https://api.coingecko.com/api/v3/simple/price?ids=bitcoin&vs_currencies=usd".
Definition bitstamp_url : string :=
  "https://www.bitstamp.net/api/v2/ticker/btcusd".

(** [a?.name]: [undefined] when [a] is [undefined] or [null]. *)
Definition chain (a : option json) (name : string) : option json :=
  match a with
  | None | Some JNull => None
  | Some v => Js.prop v name
  end.

Section Fetchers.
Variable rt : Runtime.
(** The first UTF-16 code unit of a text, as a text; none for the empty
    text. It is what [c[0]] is when [c] is a string. *)
Variable first_code_unit : string -> option string.

(** [a?.[0]]. *)
Definition chain0 (a : option json) : option json :=
  match a with
  | None | Some JNull => None
  | Some (JArr items) => nth_error items 0
  | Some (JStr s) => option_map JStr (first_code_unit s)
  | Some (JObj ms) => Js.assoc "0" ms
  | Some _ => None
  end.

(** [Number(v)] where [v] may be [undefined]. *)
Definition Number_u (v : option json) : number :=
  match v with
  | None => NaN
  | Some j => Js.Number_ (Number_toString rt) (StringToNumber rt) j
  end.

(** The price a source's payload holds; reading a member of [null]
    throws. *)
Definition price_in (source : string) (j : json) : result number :=
  if String.eqb source "coinbase" then
    match j with
    | JNull => Throw "TypeError"
    | _ => Ok (Number_u (Js.prop j "price"))
    end
  else if String.eqb source "kraken" then
    let obj := chain (chain (Some j) "result") "XXBTZUSD" in
    Ok (Number_u (chain0 (chain obj "c")))
  else if String.eqb source "coingecko" then
    Ok (Number_u (chain (chain (Some j) "bitcoin") "usd"))
  else if String.eqb source "bitstamp" then
    Ok (Number_u (chain (Some j) "last"))
  else Throw "unknown source".

Definition url_of (source : string) : option string :=
  if String.eqb source "coinbase" then Some coinbase_url
  else if String.eqb source "kraken" then Some kraken_url
  else if String.eqb source "coingecko" then Some coingecko_url
  else if String.eqb source "bitstamp" then Some bitstamp_url
  else None.

(** One run of the function that [fetchPrice] hands to [withRetries].
    [fetchJson url] is how the request for [url] ends: with the parsed
    body, or with an error (status not 2xx, timeout, body not JSON). *)
Definition attempt (source : string) (ts : Z) (fetchJson : string -> result json)
  : result PriceSample :=
  match url_of source with
  | None => Throw "unknown source"
  | Some url =>
      match fetchJson url with
      | Throw e => Throw e
      | Ok j =>
          match price_in source j with
          | Throw e => Throw e
          | Ok (Fin price) => Ok (mkSample source price ts)
          | Ok _ => Throw "bad price"
          end
      end
  end.

(** [fetchPrice(source)] started at time [ts]; [network i] answers the
    requests of the call of the inner function made with counter [i]. *)
Definition fetchPrice (FETCH_RETRIES : Z) (source : string) (ts : Z)
    (network : nat -> string -> result json) : Settled PriceSample * nat :=
  withRetries (fun i => attempt source ts (network i)) FETCH_RETRIES.

End Fetchers.
End Upstream.

(** ** Relay identity and the information document *)

Module Setup.

(** The two module-level variables of the relay's identity. *)
Record Keys : Type := mkKeys {
  secret_key : option string;
  RELAY_PUBKEY_HEX : string
}.

(** Their values when the module is loaded. *)
Definition unset : Keys := mkKeys None "".

(** [ensureRelayKeys()]; [generated] is what [generateSecretKey()] would
    return. *)
Definition ensureRelayKeys (rt : Runtime) (generated : string) (k : Keys) : Keys :=
  match secret_key k with
  | Some _ =>
      if negb (String.eqb (RELAY_PUBKEY_HEX k) "") then k
      else mkKeys (Some generated) (getPublicKey rt generated)
  | None => mkKeys (Some generated) (getPublicKey rt generated)
  end.

Record Limitations : Type := mkLimitations {
  max_message_length : Z;
  max_subscriptions : Z;
  max_filters : Z;
  max_limit : Z
}.

Record RelayInfo : Type := mkInfo {
  info_name : string;
  info_description : string;
  info_pubkey : string;
  info_contact : string;
  supported_nips : list Z;
  info_software : string;
  info_version : string;
  limitations : Limitations
}.

Definition getRelayInfo (cfg : Config) (k : Keys) : RelayInfo :=
  mkInfo "BTC Average Price Relay"
         "Research relay: queries BTC price from multiple public sources and emits signed responses."
         (RELAY_PUBKEY_HEX k)
         "nostr:research-demo"
         [1; 11]
         "btc-price-nostr-relay"
         "1.1.0"
         (mkLimitations (MAX_EVENT_BYTES cfg) 50 10 2000).

End Setup.

(** ** The client's side of a price request *)

Module Client.

(** [subscribe(requestId)] of the client's socket hook: the filter of the
    REQ frame it sends. *)
Definition subscribe_filter (requestId : string) : NostrFilter :=
  mkFilter None (Some [38001; 38002]) None None None (Some 10) [("e", [requestId])].

End Client.
(** ** Vocabulary for double-precision arithmetic *)

(** The value [F64.round_abs] reaches before its overflow test: the
    multiple of the unit in the last place nearest [q]. *)
Definition rounded (q : Q) : Q := (inject_Z (F64.rne (q / F64.ulp q)) * F64.ulp q)%Q.

(** [b] is the value of a double that is not negative. *)
Definition representable_abs (b : Q) : Prop := F64.round_abs b = Some (Qred b).

(** A whole number as a binary64 datum of the Standard Library. *)
Definition binary64 (z : Z) : spec_float := binary_normalize 53 1024 z 0 false.

(** The doubles written 60000.1, 60000.2, 60000.7 and 0.1, and the
    largest finite double. *)
Definition d60000_1 : Q := 8246350952215347 # 137438953472.
Definition d60000_2 : Q := 4123182348055347 # 68719476736.
Definition d60000_7 : Q := 4123216707793715 # 68719476736.
Definition d0_1 : Q := 3602879701896397 # 36028797018963968.
Definition max_double : Q := inject_Z ((2 ^ 53 - 1) * 2 ^ 971).

(** The same numbers as binary64 data: the quotients of two whole
    numbers. *)
Definition b60000_1 : spec_float := SFdiv 53 1024 (binary64 600001) (binary64 10).
Definition b60000_2 : spec_float := SFdiv 53 1024 (binary64 600002) (binary64 10).
Definition b_third : spec_float := SFdiv 53 1024 (binary64 1) (binary64 3).

(** ** Vocabulary for the aggregator *)

(** The total of the values, taken one after the other from zero, every
    sum being the nearest double. *)
Inductive running_total : list Q -> number -> Prop :=
| total_of_none : running_total [] (Fin 0)
| total_of_more (values : list Q) (t : number) (v : Q) :
    running_total values t -> running_total (values ++ [v]) (F64.add t (Fin v)).

(** What the prose calls the arithmetic mean, in the arithmetic of the
    code: the double nearest the quotient of that total by the number of
    values. *)
Definition arithmetic_mean (values : list Q) (m : number) : Prop :=
  exists t, running_total values t /\
            m = F64.div t (F64.of_Z (Z.of_nat (length values))).

(** What the prose calls the median: the middle element of the values in
    ascending order, or the mean of the two middle ones, their sum and its
    half being the nearest doubles. *)
Definition median_of (values : list Q) (m : number) : Prop :=
  exists arr,
    Permutation arr values /\ StronglySorted Qle arr /\
    let n := length arr in
    if Nat.even n then
      exists a b, nth_error arr (n / 2 - 1)%nat = Some a /\
                  nth_error arr (n / 2)%nat = Some b /\
                  m = F64.div (F64.add (Fin a) (Fin b)) (Fin 2)
    else
      exists a, nth_error arr (n / 2)%nat = Some a /\ m = Fin a.


(** The selection ladder, rule by rule. *)
Definition trimmed_rule (samples : list PriceSample) (method : string) : Prop :=
  exists lo hi used,
    aggregate samples method
      = Ok (mkAggregate (mean (List.map value used)) "trimmed_mean" used) /\
    used = slice_1_m1 (sort by_value samples) /\
    Permutation samples (lo :: used ++ [hi]) /\
    Forall (fun x => (value lo <= value x)%Q /\ (value x <= value hi)%Q) samples /\
    length used = (length samples - 2)%nat /\
    arithmetic_mean (List.map value used) (mean (List.map value used)).

Definition median_rule (samples : list PriceSample) (method : string) : Prop :=
  exists m,
    aggregate samples method = Ok (mkAggregate m "median" samples) /\
    median_of (List.map value samples) m.

Definition mean_rule (samples : list PriceSample) (method : string) : Prop :=
  exists m,
    aggregate samples method = Ok (mkAggregate m "mean" samples) /\
    arithmetic_mean (List.map value samples) m.

Definition ladder (samples : list PriceSample) (method : string) : Prop :=
  (method = "trimmed_mean" /\ (5 <= length samples)%nat -> trimmed_rule samples method) /\
  (~ (method = "trimmed_mean" /\ (5 <= length samples)%nat) ->
   ((3 <= length samples)%nat -> median_rule samples method) /\
   ((length samples < 3)%nat -> mean_rule samples method)).

(** Worked inputs. *)
Definition sample (name : string) (v : Z) : PriceSample := mkSample name (inject_Z v) 0.

Definition three_samples : list PriceSample :=
  [sample "coinbase" 1; sample "kraken" 2; sample "bitstamp" 6].

Definition five_samples : list PriceSample :=
  [sample "a" 5; sample "b" 1; sample "c" 9; sample "d" 3; sample "e" 7].

(** ** Vocabulary for the rate limiter *)

(** [dt] milliseconds, in seconds. *)
Definition seconds (dt : Z) : Q := (inject_Z dt / 1000)%Q.

(** The calls are made in chronological order, none before [t0], none
    after [t1]. *)
Fixpoint in_window (t0 t1 : Z) (calls : list (string * Z)) : Prop :=
  match calls with
  | [] => t0 <= t1
  | (_, t) :: rest => t0 <= t /\ in_window t t1 rest
  end.

(** The bucket of [key], if there is one, holds no debt and was written at
    or before [t]. *)
Definition bucket_settled (rl : RateLimiter) (key : string) (t : Z) : Prop :=
  match buckets rl !! key with
  | Some b => Js.le (Fin 0) (tokens b) = true /\ last b <= t
  | None => True
  end.

(** The time since the bucket was written, in seconds, as [allow]
    computes it: the double nearest the quotient. *)
Definition elapsed_seconds (b : Bucket) (nowMs : Z) : number :=
  F64.div (F64.of_Z (nowMs - last b)) (Fin 1000).

(** One call of [allow], as the prose describes it, every operation
    giving the nearest double. *)
Definition allow_step (rl : RateLimiter) (key : string) (nowMs : Z) : Prop :=
  let b := default (mkBucket (Fin (burst rl)) nowMs) (buckets rl !! key) in
  let refilled :=
    Js.min (Fin (burst rl))
           (F64.add (tokens b) (F64.mul (elapsed_seconds b nowMs) (Fin (rps rl)))) in
  let '(ok, rl') := allow rl key nowMs in
  (ok = false <-> Js.lt refilled (Fin 1) = true) /\
  buckets rl' !! key
    = Some (mkBucket (if ok then F64.sub refilled (Fin 1) else refilled) nowMs) /\
  (forall other, other <> key -> buckets rl' !! other = buckets rl !! other) /\
  rps rl' = rps rl /\ burst rl' = burst rl.

(** [n] is the finite number [q]. *)
Definition same_value (n : number) (q : Q) : bool :=
  match n with
  | Fin x => Qeq_bool x q
  | _ => false
  end.

(** No operation of this call rounds: the refill is the rational
    [min(burst, tokens + seconds * rps)], and so is, when the call admits,
    that number less one. *)
Definition exact_call (rl : RateLimiter) (key : string) (nowMs : Z) : bool :=
  let b := default (mkBucket (Fin (burst rl)) nowMs) (buckets rl !! key) in
  match tokens b with
  | Fin t =>
      let x := Qmin (burst rl) (t + seconds (nowMs - last b) * rps rl)%Q in
      same_value (refill rl b nowMs) x &&
      (negb (Qle_bool 1 x) || same_value (F64.sub (refill rl b nowMs) (Fin 1)) (x - 1)%Q)
  | _ => false
  end.

(** No operation rounds in any call made for [key] in the run. *)
Fixpoint exact_run (rl : RateLimiter) (key : string) (calls : list (string * Z)) : bool :=
  match calls with
  | [] => true
  | (k, t) :: rest =>
      (negb (String.eqb k key) || exact_call rl k t)
      && exact_run (snd (allow rl k t)) key rest
  end.

(** What one rounding can add: a fraction [2^-53] of the value, half a
    unit in its last place, and for the smallest values [2^-1075], half
    the least positive double. *)
Definition half_bit : Q := F64.pow2 (-53).
Definition half_least : Q := F64.pow2 (-1075).

(** What the roundings of one call can add to a bucket: those of the
    credit, of the sum and of the decrement, and that of the elapsed time
    where it is below the normal range. *)
Definition call_allowance (rl : RateLimiter) : Q :=
  (3 * (burst rl * half_bit + half_least) + rps rl * half_least)%Q.

(** How many of the calls were made with [key]. *)
Fixpoint calls_for (key : string) (calls : list (string * Z)) : Z :=
  match calls with
  | [] => 0
  | (k, _) :: rest => (if String.eqb k key then 1 else 0) + calls_for key rest
  end.

(** What the roundings can add over a window: the elapsed times are
    rounded in proportion, the rest call by call. *)
Definition rounding_allowance (rl : RateLimiter) (key : string) (t0 t1 : Z)
    (calls : list (string * Z)) : Q :=
  (rps rl * seconds (t1 - t0) * half_bit
   + inject_Z (calls_for key calls) * call_allowance rl)%Q.

(** The clock shows whole milliseconds, from 0 on. The bucket of [key], if
    there is one, holds no debt and was written at or before [t]. *)
Definition bucket_on_clock (rl : RateLimiter) (key : string) (t : Z) : Prop :=
  match buckets rl !! key with
  | Some b => Js.le (Fin 0) (tokens b) = true /\ 0 <= last b <= t
  | None => 0 <= t
  end.

Definition token_bucket (rl : RateLimiter) (key : string) (t0 t1 : Z)
    (calls : list (string * Z)) : Prop :=
  (forall rl' key' nowMs, allow_step rl' key' nowMs) /\
  (inject_Z (admitted key calls (fst (allow_all rl calls)))
     <= burst rl + rps rl * seconds (t1 - t0)
        + rounding_allowance rl key t0 t1 calls)%Q.

(** What the proof of that bound carries from call to call: [acc]
    admissions and [n] calls for the key so far, the clock at [tcur]. *)
Definition rounded_inv (rl : RateLimiter) (key : string) (t0 t1 : Z) (acc n tcur : Z) : Prop :=
  t0 <= tcur /\ 0 <= n /\
  match buckets rl !! key with
  | None => acc = 0
  | Some b =>
      Js.le (Fin 0) (tokens b) = true /\ last b <= tcur /\ t1 - last b <= 2 ^ 53 /\
      (acc = 0 \/
       (t0 <= last b /\
        exists q, tokens b = Fin q /\
          (inject_Z acc + q
             <= burst rl + rps rl * seconds (last b - t0) * (1 + half_bit)
                + inject_Z n * call_allowance rl)%Q))
  end.

(** What the proof of the bound without rounding carries from call to
    call: [acc] admissions so far, the clock at [tcur]. *)
Definition window_inv (rl : RateLimiter) (key : string) (t0 t1 : Z) (acc tcur : Z) : Prop :=
  t0 <= tcur /\
  match buckets rl !! key with
  | None => acc = 0
  | Some b =>
      Js.le (Fin 0) (tokens b) = true /\ last b <= tcur /\
      (acc = 0 \/
       (t0 <= last b /\
        exists q, tokens b = Fin q /\
          (inject_Z acc + q + rps rl * seconds (t1 - last b)
             <= burst rl + rps rl * seconds (t1 - t0))%Q))
  end.

(** The double nearest one third, as a refill rate, and a limiter of
    capacity one with that rate. *)
Definition third : Q := 6004799503160661 # 18014398509481984.

Definition slow_limiter : RateLimiter := new_RateLimiter third 1.

(** Two calls for one key, three seconds apart. *)
Definition two_calls : list (string * Z) := [("ip:10.0.0.1", 0); ("ip:10.0.0.1", 3000)].

(** Calls for one address a millisecond and a third of a second apart,
    one for another key between them. *)
Definition paced_calls : list (string * Z) :=
  [("ip:10.0.0.1", 5000); ("ip:10.0.0.1", 5001); ("pub:alice", 5002); ("ip:10.0.0.1", 5333)].

(** Fifteen calls for one address in the same millisecond. *)
Definition burst_of_calls : list (string * Z) := repeat ("ip:10.0.0.1", 5000) 15.

(** ** Vocabulary for the event store *)

(** [storeEvent] applied to the events of [arrivals], oldest first. *)
Definition store_all (cfg : Config) (store arrivals : list NostrEvent) : list NostrEvent :=
  fold_left (fun st e => storeEvent cfg e st) arrivals store.

(** The [n] most recent elements of [l], in the order of [l]. *)
Definition most_recent {A} (n : nat) (l : list A) : list A := skipn (length l - n) l.

Definition fifo_bounded (cfg : Config) (arrivals : list NostrEvent) : Prop :=
  let cap := Z.to_nat (MAX_STORED_EVENTS cfg) in
  store_all cfg [] arrivals = most_recent cap arrivals /\
  length (store_all cfg [] arrivals) = cap /\
  exists dropped, arrivals = dropped ++ store_all cfg [] arrivals.

(** A store that keeps two events, for the worked examples. *)
Definition two_slot_config : Config := mkConfig 3 2000 60000 64000 2 3 2 10.

Definition note (name : string) (at_sec : Z) : NostrEvent :=
  mkEvent name "alice" at_sec 1 [] (Text "hello") "sig".

(** ** Vocabulary for subscriptions *)

(** What the prose says one filter selects: the matches met on the way
    from the newest event to the oldest, cut at the filter's limit. *)
Definition backfill (events : list NostrEvent) (f : NostrFilter) : list NostrEvent :=
  firstn (Z.to_nat (Z.min (default 200 (limit f)) 2000))
         (List.filter (fun e => matchFilter e f) (rev events)).

Definition kind_one_filter : NostrFilter :=
  mkFilter None (Some [1]) None None None (Some 2) [].

(** The answer to a REQ frame on an open socket: the backfill of each
    filter in turn, each event framed for the subscription, then one EOSE. *)
Definition req_answer (cfg : Config) (rt : Runtime) (ws : ExtendedWebSocket) (raw : RawData)
    (now : Z) (r : Relay) (subId : string) (filters : list NostrFilter) : Prop :=
  let found := flat_map (backfill (events r)) filters in
  queryEvents (events r) filters = found /\
  (forall f, In f filters ->
     Z.of_nat (length (backfill (events r) f))
       <= Z.max 0 (Z.min (default 200 (limit f)) 2000)) /\
  onMessage cfg rt ws raw now r
  = (set_subs (<[subId := filters]> (subs ws)) ws,
     Returned Finished r
       (List.map (fun e => Sent (EVENT_for subId e)) found ++ [Sent (EOSE subId)])).

Definition open_socket : ExtendedWebSocket := mkSocket OPEN "10.0.0.1" ∅.

(** A runtime for the worked examples: every well-formed event verifies,
    identifiers and signatures are fixed strings, no text reads as a number. *)
Definition example_runtime : Runtime :=
  mkRuntime (fun _ => "0") (fun _ => NaN) (fun _ => true)
            (fun sk => sk) (fun _ _ _ _ _ => "relay-event") (fun _ _ => "relay-sig").

Definition example_relay (cfg : Config) (stored : list NostrEvent) : Relay :=
  set_events stored (initial_relay cfg "relay-key").

(** The bytes of a frame's text; the text is written here with an
    apostrophe wherever the frame has a double quote. *)
Definition frame_text (s : string) : list byte :=
  List.map (fun b => if Byte.eqb b x27 then x22 else b) (list_byte_of_string s).

Definition req_frame : RawData :=
  mkRaw (frame_text "['REQ','s1',{'kinds':[1],'limit':2},{'kinds':[1],'limit':2}]")
        (C_REQ "s1" [kind_one_filter; kind_one_filter]).

Definition three_note_relay : Relay :=
  example_relay default_config [note "a" 1; note "b" 2; note "c" 3].

(** ** Vocabulary for the request handler *)

(** The event [finalizeEvent] returns when it does not throw. *)
Definition finalized (rt : Runtime) (created_at : Z) (params : EventTemplate) (sk : string)
  : NostrEvent :=
  let pk := getPublicKey rt sk in
  let h := getEventHash rt pk created_at (t_kind params) (t_tags params) (t_content params) in
  mkEvent h pk created_at (t_kind params) (t_tags params) (t_content params)
          (schnorrSign rt h sk).

Definition effects {A} (o : Outcome A) : list Effect :=
  match o with
  | Returned _ _ out => out
  | Thrown _ _ out => out
  end.

(** The member [field] of the [cache] object in an event's content. *)
Definition payload_cache (e : NostrEvent) (field : string) : option json :=
  match content e with
  | Json p =>
      match Js.prop p "cache" with
      | Some c => Js.prop c field
      | None => None
      end
  | Text _ => None
  end.

(** [e] is a price response whose content says [cache.hit = true] and
    [cache.ageMs = age]. *)
Definition reports_hit (e : NostrEvent) (age : Z) : Prop :=
  kind e = KIND_PRICE_RES /\
  payload_cache e "hit" = Some (JBool true) /\
  payload_cache e "ageMs" = Some (JNum (inject_Z age)).

Definition cache_freshness (cfg : Config) (rt : Runtime) : Prop :=
  (forall now c h,
      cacheGet cfg now c = Some h <->
      exists entry, c = Some entry /\
        h = mkCacheHit (tsMs entry) (samples entry) (now - tsMs entry) /\
        now - tsMs entry <= CACHE_TTL_MS cfg) /\
  (forall r evt now e age,
      In (Broadcast (EVENT e)) (effects (handlePriceRequest cfg rt r evt now)) ->
      reports_hit e age ->
      age <= CACHE_TTL_MS cfg /\
      Js.le (Fin (inject_Z age)) (req_maxAgeMs cfg rt evt) = true) /\
  (forall r k upstream now e age,
      In (Broadcast (EVENT e)) (effects (resumePriceRequest cfg rt r k upstream now)) ->
      ~ reports_hit e age) /\
  (forall r evt now entry,
      Js.prop (req_body evt) "maxAgeMs" = Some (JNum 0) ->
      priceCache r = Some entry -> 1 <= now - tsMs entry ->
      forall e age,
        In (Broadcast (EVENT e)) (effects (handlePriceRequest cfg rt r evt now)) ->
        ~ reports_hit e age).

(** The event passes verification and both limiters admit it: the relay
    stores it and answers [OK true]. *)
Definition accepted (rt : Runtime) (ws : ExtendedWebSocket) (evt : NostrEvent) (now : Z)
    (r : Relay) : Prop :=
  verifyEvent rt evt = true /\
  fst (allow (ipLimiter r) ("ip:" ++ ip ws)%string now) = true /\
  fst (allow (pubLimiter r) ("pub:" ++ pubkey evt)%string now) = true.

(** [e] is a price response or a price error that replies to [req]. *)
Definition terminal_for (req e : NostrEvent) : Prop :=
  (kind e = KIND_PRICE_RES \/ kind e = KIND_PRICE_ERR) /\
  In [JStr "e"; JStr (id req); JStr "reply"] (tags e) /\
  In [JStr "p"; JStr (pubkey req)] (tags e).

(** The signing key is there, and a cache entry, if any, holds samples. *)
Definition relay_ready (r : Relay) : Prop :=
  RELAY_SECRET_KEY r <> None /\
  forall c, priceCache r = Some c -> samples c <> [].

(** One run of the handler for an accepted price request: the
    acknowledgement, then either one terminal event at once, or the
    fetches and, whenever and in whatever state the handler resumes, one
    terminal event. Nothing else is broadcast. *)
Definition one_terminal_event (cfg : Config) (rt : Runtime) (ws : ExtendedWebSocket)
    (evt : NostrEvent) (now : Z) (r : Relay) : Prop :=
  exists step r1 rest,
    onEVENT cfg rt ws evt now r
    = Returned step r1 (send ws (OK (id evt) true "accepted") ++ rest) /\
    relay_ready r1 /\
    match step with
    | Finished => exists e, rest = [Broadcast (EVENT e)] /\ terminal_for evt e
    | Awaiting k =>
        rest = List.map Fetch (p_sources k) /\
        forall r2 upstream now2,
          relay_ready r2 ->
          exists r3 e,
            resumePriceRequest cfg rt r2 k upstream now2
            = Returned tt r3 [Broadcast (EVENT e)] /\
            terminal_for evt e /\ relay_ready r3
    end.

(** A price request whose content names an object as its pair. *)
Definition object_pair_request : NostrEvent :=
  mkEvent "req-7" "alice" 10 KIND_PRICE_REQ [[JStr "t"; JStr "price-request"]]
          (Json (JObj [("pair", JObj [("a", JNum 1)])])) "sig".

(** The run acknowledges the event, stores it, and then throws: the
    acknowledgement is all it sends, nothing is broadcast, and the cache
    is left as it was. *)
Definition acknowledged_then_thrown (cfg : Config) (rt : Runtime) (ws : ExtendedWebSocket)
    (evt : NostrEvent) (now : Z) (r : Relay) : Prop :=
  exists message r1,
    onEVENT cfg rt ws evt now r
    = Thrown message r1 (send ws (OK (id evt) true "accepted")) /\
    events r1 = storeEvent cfg evt (events r) /\
    priceCache r1 = priceCache r.

(** The relay state once an event has passed both limiters and has been
    stored. *)
Definition after_accept (cfg : Config) (ws : ExtendedWebSocket) (evt : NostrEvent) (now : Z)
    (r : Relay) : Relay :=
  set_events (storeEvent cfg evt (events r))
    (set_pubLimiter (snd (allow (pubLimiter r) ("pub:" ++ pubkey evt)%string now))
       (set_ipLimiter (snd (allow (ipLimiter r) ("ip:" ++ ip ws)%string now)) r)).

(** A signed price request, as the client builds it, with [body] as the
    JSON value of its content. *)
Definition price_request (name : string) (body : json) : NostrEvent :=
  mkEvent name "alice" 10 KIND_PRICE_REQ
          [[JStr "t"; JStr "price-request"]; [JStr "pair"; JStr "BTC-USD"]]
          (Json body) "sig".

Definition plain_request : NostrEvent :=
  price_request "req-1"
    (JObj [("pair", JStr "BTC-USD"); ("method", JStr "trimmed_mean");
           ("maxAgeMs", JNum 20000)]).

Definition fresh_relay : Relay := initial_relay default_config "relay-key".

(** ** Vocabulary for admission *)

Definition ip_key (ws : ExtendedWebSocket) : string := ("ip:" ++ ip ws)%string.
Definition pub_key (evt : NostrEvent) : string := ("pub:" ++ pubkey evt)%string.


(** A relay where alice's key has no token left at time 5000. *)
Definition alice_spent_relay : Relay :=
  set_pubLimiter
    (mkLimiter 2 10 (<["pub:alice" := mkBucket (Fin 0) 5000]> ∅))
    fresh_relay.

(** ** Vocabulary for the upstream fan-out *)

Definition state_of {A} (o : Outcome A) : Relay :=
  match o with
  | Returned _ r _ => r
  | Thrown _ r _ => r
  end.

Definition step_of (o : Outcome Step) : option Step :=
  match o with
  | Returned s _ _ => Some s
  | Thrown _ _ _ => None
  end.

Definition is_awaiting (o : Outcome Step) : bool :=
  match o with
  | Returned (Awaiting _) _ _ => true
  | _ => false
  end.

(** The sources for which a fetch was started, in order. *)
Definition fetches (out : list Effect) : list string :=
  omap (fun eff => match eff with Fetch src => Some src | _ => None end) out.

(** The cache holds an entry young enough for the store and for [evt]. *)
Definition cache_usable (cfg : Config) (rt : Runtime) (r : Relay) (evt : NostrEvent)
    (now : Z) : Prop :=
  exists h, cacheGet cfg now (priceCache r) = Some h /\
            Js.le (Fin (inject_Z (ageMs h))) (req_maxAgeMs cfg rt evt) = true.

Definition fan_out_per_miss (cfg : Config) (rt : Runtime) (r : Relay) (evt : NostrEvent)
    (now : Z) : Prop :=
  (~ cache_usable cfg rt r evt now ->
   handlePriceRequest cfg rt r evt now
   = Returned (Awaiting (mkPending evt (req_pair evt) (req_method rt evt)
                                   (req_sources evt) now))
              r (List.map Fetch (req_sources evt)) /\
   fetches (effects (handlePriceRequest cfg rt r evt now)) = req_sources evt /\
   req_sources evt <> []) /\
  (cache_usable cfg rt r evt now ->
   fetches (effects (handlePriceRequest cfg rt r evt now)) = []).

Definition second_request : NostrEvent :=
  price_request "req-2" (JObj [("pair", JStr "BTC-USD"); ("method", JStr "median")]).

(** Two requests reach a relay whose cache is empty; the second is handled
    while the first still waits for its fetches. *)
Definition first_run : Outcome Step :=
  onEVENT default_config example_runtime open_socket plain_request 5000 fresh_relay.

Definition second_run : Outcome Step :=
  onEVENT default_config example_runtime open_socket second_request 5000
          (state_of first_run).

(** ** Vocabulary for the request's parameters *)

(** A member that is absent, or present with the value [null]. *)
Definition missing (v : option json) : Prop := v = None \/ v = Some JNull.

(** How the handler reads [pair], [method], [maxAgeMs] and [sources]. *)
Definition request_defaults (cfg : Config) (rt : Runtime) (evt : NostrEvent) : Prop :=
  let body := req_body evt in
  (missing (safeJsonParse (content evt)) -> body = JObj []) /\
  (missing (Js.prop body "pair") ->
   req_pair evt = default (JStr "BTC-USD") (getTag evt "pair")) /\
  (forall v, Js.prop body "pair" = Some v -> v <> JNull -> req_pair evt = v) /\
  (missing (Js.prop body "method") -> req_method rt evt = "trimmed_mean") /\
  (forall v, Js.prop body "method" = Some v -> v <> JNull ->
             req_method rt evt = Js.String_ (Number_toString rt) v) /\
  (missing (Js.prop body "maxAgeMs") -> req_maxAgeMsReq rt evt = Fin 20000) /\
  (forall v, Js.prop body "maxAgeMs" = Some v -> v <> JNull ->
             req_maxAgeMsReq rt evt
             = Js.Number_ (Number_toString rt) (StringToNumber rt) v) /\
  req_maxAgeMs cfg rt evt
  = Js.min (req_maxAgeMsReq rt evt) (Fin (inject_Z (MAX_REQUEST_MAXAGE_MS cfg))) /\
  (forall q, req_maxAgeMsReq rt evt = Fin q ->
             req_maxAgeMs cfg rt evt = Fin (Qmin q (inject_Z (MAX_REQUEST_MAXAGE_MS cfg)))) /\
  ((forall items, Js.prop body "sources" <> Some (JArr items)) ->
   req_sources evt = ALL_SOURCES) /\
  (req_wantedSources evt = [] -> req_sources evt = ALL_SOURCES) /\
  req_sources evt <> [] /\
  Forall (fun src => In src ALL_SOURCES) (req_sources evt).

(** Requests whose content has a member of the wrong type, and one whose
    content names no pair while its tag does. *)
Definition boolean_maxAge_request : NostrEvent :=
  price_request "req-3" (JObj [("maxAgeMs", JBool true)]).

Definition boolean_method_request : NostrEvent :=
  price_request "req-4" (JObj [("method", JBool false)]).

Definition tagged_pair_request : NostrEvent :=
  mkEvent "req-5" "alice" 10 KIND_PRICE_REQ
          [[JStr "t"; JStr "price-request"]; [JStr "pair"; JStr "ETH-USD"]]
          (Json (JObj [])) "sig".

(** ** Vocabulary for the frame size guard *)

(** The 64001 bytes of the text [["REQ","é"]] followed by spaces: twelve
    bytes for the array, the two bytes c3 a9 being the one character é. *)
Definition accented_frame : RawData :=
  mkRaw (frame_text "['REQ','é']" ++ repeat x20 (Z.to_nat 63989))
        (C_REQ "é" []).

Definition is_ascii (b : byte) : Prop := Z.of_N (Byte.to_N b) < 128.

(** The four upstream prices of the happy path, cached at time 4500. *)
Definition four_samples : list PriceSample :=
  [mkSample "coinbase" 60000 4400; mkSample "kraken" 60010 4400;
   mkSample "coingecko" 60020 4400; mkSample "bitstamp" 61000 4400].

Definition warm_relay : Relay :=
  set_priceCache (Some (mkCacheEntry 4500 four_samples)) fresh_relay.

Definition impatient_request : NostrEvent :=
  price_request "req-6" (JObj [("maxAgeMs", JNum 0)]).

(** The event carried by the first broadcast of a run. *)
Definition first_broadcast {A} (o : Outcome A) : option NostrEvent :=
  match List.filter (fun eff => match eff with Broadcast (EVENT _) => true | _ => false end)
                    (effects o) with
  | Broadcast (EVENT e) :: _ => Some e
  | _ => None
  end.

(** ** Vocabulary for the further properties *)

(** Every sample's value lies between [lo] and [hi]. *)
Definition within (lo hi : Q) (samples : list PriceSample) : Prop :=
  Forall (fun s => (lo <= value s)%Q /\ (value s <= hi)%Q) samples.

(** What [aggregate] returns on any input. *)
Definition aggregate_sound (samples : list PriceSample) (method : string) : Prop :=
  (samples = [] -> aggregate samples method = Throw "no samples") /\
  (samples <> [] ->
   exists a,
     aggregate samples method = Ok a /\
     agg_used a <> [] /\
     (forall s, In s (agg_used a) -> In s samples) /\
     (agg_method a = "median" -> Nat.odd (length samples) = true ->
      exists s, In s samples /\ agg_value a = Fin (value s) /\
                forall lo hi, within lo hi samples ->
                              (lo <= value s)%Q /\ (value s <= hi)%Q)).

(** Five samples of the price 60000.7. *)
Definition five_equal_samples : list PriceSample := repeat (mkSample "kraken" d60000_7 0) 5.

(** A mean can leave the range of its samples: the trimmed mean of five
    equal samples is below them. *)
Definition mean_leaves_range : Prop :=
  within d60000_7 d60000_7 five_equal_samples /\
  exists a v,
    aggregate five_equal_samples "trimmed_mean" = Ok a /\
    agg_value a = Fin v /\ (v < d60000_7)%Q.

(** The event carries a tag named [name] whose second element is the
    text [v]. *)
Definition has_tag (evt : NostrEvent) (name v : string) : Prop :=
  exists t, In t (tags evt) /\ nth_error t 0 = Some (JStr name) /\
            nth_error t 1 = Some (JStr v).

(** The constraints of a filter, one by one. *)
Definition satisfies (evt : NostrEvent) (f : NostrFilter) : Prop :=
  (forall l, ids f = Some l -> In (id evt) l) /\
  (forall l, kinds f = Some l -> In (kind evt) l) /\
  (forall l, authors f = Some l -> In (pubkey evt) l) /\
  (forall t, since f = Some t -> t <> 0 -> t <= created_at evt) /\
  (forall t, until f = Some t -> t <> 0 -> created_at evt <= t) /\
  (forall name want, In (name, want) (tag_filters f) ->
     exists v, In v want /\ has_tag evt name v).

(** Filters that name an empty list somewhere. *)
Definition names_nothing (f : NostrFilter) : Prop :=
  ids f = Some [] \/ kinds f = Some [] \/ authors f = Some [] \/
  exists name, In (name, []) (tag_filters f).

Definition no_constraint : NostrFilter := mkFilter None None None None None None [].

Definition filter_edges (evt : NostrEvent) : Prop :=
  matchFilter evt no_constraint = true /\
  (forall f, names_nothing f -> matchFilter evt f = false) /\
  (forall f, matchFilter evt f
             = matchFilter evt (mkFilter (ids f) (kinds f) (authors f)
                                  (if decide (since f = Some 0) then None else since f)
                                  (if decide (until f = Some 0) then None else until f)
                                  (limit f) (tag_filters f))).

(** What a query returns, in terms of the store. *)
Definition query_sound (events : list NostrEvent) (filters : list NostrFilter) : Prop :=
  (forall e, In e (queryEvents events filters) ->
     In e events /\ exists f, In f filters /\ matchFilter e f = true) /\
  (forall f, In f filters ->
     Z.of_nat (length (List.filter (fun e => matchFilter e f) events)) <= filter_limit f ->
     forall e, In e events -> matchFilter e f = true ->
               In e (queryEvents events filters)) /\
  Z.of_nat (length (queryEvents events filters)) <= 2000 * Z.of_nat (length filters).

(** What one [storeEvent] does to any store. *)
Definition store_step (cfg : Config) (e : NostrEvent) (st : list NostrEvent) : Prop :=
  let st' := storeEvent cfg e st in
  (exists dropped, st ++ [e] = dropped ++ st') /\
  (0 <= MAX_STORED_EVENTS cfg ->
   Z.of_nat (length st') = Z.min (Z.of_nat (length st) + 1) (MAX_STORED_EVENTS cfg)) /\
  (1 <= MAX_STORED_EVENTS cfg -> exists older, st' = older ++ [e]) /\
  (MAX_STORED_EVENTS cfg <= 0 -> st' = []).

(** A query made right after [e] was stored. *)
Definition newest_first (cfg : Config) (e : NostrEvent) (st : list NostrEvent)
    (f : NostrFilter) : Prop :=
  exists rest,
    queryEvents (storeEvent cfg e st) [f] = e :: rest /\
    Forall (fun x => matchFilter x f = true) rest.

Definition by_id (event_id : string) : NostrFilter :=
  mkFilter (Some [event_id]) None None None None None [].

(** The state of one key while calls arrive at the single instant [t]:
    [m] whole tokens are left of a capacity of [B]. *)
Definition tokens_left (rl : RateLimiter) (key : string) (t : Z) (B m : nat) : Prop :=
  burst rl = inject_Z (Z.of_nat B) /\
  match buckets rl !! key with
  | Some b => tokens b = Fin (inject_Z (Z.of_nat m)) /\ last b = t
  | None => m = B
  end.

(** The bucket of [key], if there is one, holds no debt and was written
    at or before the call, no more than 2^53 milliseconds before it. *)
Definition bucket_behind (rl : RateLimiter) (key : string) (nowMs : Z) : Prop :=
  match buckets rl !! key with
  | Some b => Js.le (Fin 0) (tokens b) = true /\ 0 <= nowMs - last b <= 2 ^ 53
  | None => True
  end.

(** The bucket [allow] leaves for the key it was called with. *)
Definition bucket_in_range (rl : RateLimiter) (key : string) (nowMs : Z) : Prop :=
  exists b, buckets (snd (allow rl key nowMs)) !! key = Some b /\
            Js.le (Fin 0) (tokens b) = true /\
            Js.le (tokens b) (Fin (burst rl)) = true /\ last b = nowMs.

(** A number that is at least [b]. *)
Definition at_least (b : Q) (n : number) : Prop := Js.le (Fin b) n = true.

(** The bucket of [key], if there is one, holds no debt, and the time
    since it was written, in seconds and as the double [allow] computes,
    is worth at least one token. *)
Definition waited_one_token (rl : RateLimiter) (key : string) (nowMs : Z) : Prop :=
  match buckets rl !! key with
  | Some b =>
      exists t e, tokens b = Fin t /\ (0 <= t)%Q /\
                  elapsed_seconds b nowMs = Fin e /\ (1 <= e * rps rl)%Q
  | None => True
  end.

Definition drained_limiter : RateLimiter :=
  mkLimiter 2 10 (<["pub:alice" := mkBucket (Fin 0) 5000]> ∅).

(** A rate whose product with 0.469, the exact number of seconds in 469
    milliseconds, is above one, while its product with the double
    nearest 0.469 is below. *)
Definition odd_rate : Q := 4801278920437629 # 2251799813685248.

Definition odd_limiter : RateLimiter :=
  mkLimiter odd_rate 10 (<["pub:alice" := mkBucket (Fin 0) 0]> ∅).

(** How a run answers an event it does not accept. *)
Definition refused (cfg : Config) (rt : Runtime) (ws : ExtendedWebSocket) (evt : NostrEvent)
    (now : Z) (r : Relay) : Prop :=
  exists r' reason,
    onEVENT cfg rt ws evt now r
    = Returned Finished r' (send ws (OK (id evt) false reason)) /\
    events r' = events r /\ priceCache r' = priceCache r /\
    (verifyEvent rt evt = false -> r' = r /\ reason = "invalid: bad sig or id").

(** How a run treats an accepted event that is not a price request. *)
Definition stored_only (cfg : Config) (rt : Runtime) (ws : ExtendedWebSocket)
    (evt : NostrEvent) (now : Z) (r : Relay) : Prop :=
  exists r',
    onEVENT cfg rt ws evt now r
    = Returned Finished r' (send ws (OK (id evt) true "accepted")) /\
    events r' = storeEvent cfg evt (events r) /\
    priceCache r' = priceCache r.

(** [e] was signed by the relay in a run whose clock reads [now], from
    state [r], and is a price response or a price error. *)
Definition relay_signed (rt : Runtime) (r : Relay) (now : Z) (e : NostrEvent) : Prop :=
  exists sk, RELAY_SECRET_KEY r = Some sk /\
    pubkey e = getPublicKey rt sk /\
    created_at e = nowSec now /\
    (kind e = KIND_PRICE_RES \/ kind e = KIND_PRICE_ERR).

Definition broadcasts_relay_signed (rt : Runtime) (r : Relay) (now : Z)
    (out : list Effect) : Prop :=
  forall msg, In (Broadcast msg) out -> exists e, msg = EVENT e /\ relay_signed rt r now e.

Definition only_own_events_broadcast (cfg : Config) (rt : Runtime) : Prop :=
  (forall ws raw now r,
     broadcasts_relay_signed rt r now (effects (snd (onMessage cfg rt ws raw now r)))) /\
  (forall r k upstream now,
     broadcasts_relay_signed rt r now (effects (resumePriceRequest cfg rt r k upstream now))).

Definition text_note : NostrEvent := mkEvent "note-1" "alice" 10 1 [] (Text "hello") "sig".

Definition unsigned_note : NostrEvent := mkEvent "note-2" "alice" 10 1 [] (Text "hello") "".

(** The samples of the fetches that were fulfilled, in the order of the
    sources. *)
Definition fetched (k : Pending) (upstream : nat -> string -> option Q) : list PriceSample :=
  omap (fun x => x) (settle_from upstream 0 (p_sources k) (p_ts k)).

(** The cache after the fetches of a request have settled. *)
Definition cache_after_fetch (cfg : Config) (rt : Runtime) (r : Relay) (k : Pending)
    (upstream : nat -> string -> option Q) (now : Z) : Prop :=
  let samples := fetched k upstream in
  let r' := state_of (resumePriceRequest cfg rt r k upstream now) in
  (Z.of_nat (length samples) < MIN_QUORUM cfg -> priceCache r' = priceCache r) /\
  (MIN_QUORUM cfg <= Z.of_nat (length samples) ->
   priceCache r' = Some (mkCacheEntry now samples)) /\
  (length samples <= length (p_sources k))%nat /\
  Forall (fun s => In (source s) (p_sources k) /\ In (source s) ALL_SOURCES /\
                   ts s = p_ts k) samples.

(** A request served from what an earlier request has fetched. *)
Definition served_from_fetch (cfg : Config) (rt : Runtime) (r : Relay) (k : Pending)
    (upstream : nat -> string -> option Q) (now1 : Z) (evt2 : NostrEvent) (now2 : Z) : Prop :=
  let r1 := state_of (resumePriceRequest cfg rt r k upstream now1) in
  exists a,
    aggregate (fetched k upstream) (req_method rt evt2) = Ok a /\
    handlePriceRequest cfg rt r1 evt2 now2
    = finish (emit cfg rt r1 now2
                (response_params evt2 (req_pair evt2) now2 a true (now2 - now1))) /\
    fetches (effects (handlePriceRequest cfg rt r1 evt2 now2)) = [].

(** The member [field] of an event's content. *)
Definition content_member (e : NostrEvent) (field : string) : option json :=
  match content e with
  | Json p => Js.prop p field
  | Text _ => None
  end.

(** The "src" tags, the [sources_used] member and the [samples] member
    of a response name the same samples in the same order. *)
Definition response_consistent (e : NostrEvent) : Prop :=
  exists used : list PriceSample,
    used <> [] /\
    tag_values e "src" = List.map (fun s => Some (JStr (source s))) used /\
    content_member e "sources_used" = Some (JArr (List.map (fun s => JStr (source s)) used)) /\
    content_member e "samples" = Some (JArr (List.map sample_json used)).

Definition responses_consistent (cfg : Config) (rt : Runtime) : Prop :=
  (forall r evt now e,
     In (Broadcast (EVENT e)) (effects (handlePriceRequest cfg rt r evt now)) ->
     kind e = KIND_PRICE_RES -> response_consistent e) /\
  (forall r k upstream now e,
     In (Broadcast (EVENT e)) (effects (resumePriceRequest cfg rt r k upstream now)) ->
     kind e = KIND_PRICE_RES -> response_consistent e).

(** A request that names one source [n] times, all fetches fulfilled. *)
Definition repeated_source_quorum (cfg : Config) (rt : Runtime) (r : Relay) (k : Pending)
    (upstream : nat -> string -> option Q) (now : Z) (src : string) (n : nat) (price : Q)
  : Prop :=
  exists r' e,
    resumePriceRequest cfg rt r k upstream now = Returned tt r' [Broadcast (EVENT e)] /\
    kind e = KIND_PRICE_RES /\
    priceCache r' = Some (mkCacheEntry now (repeat (mkSample src price (p_ts k)) n)).

Definition kraken_thrice : Pending :=
  mkPending plain_request (JStr "BTC-USD") "trimmed_mean" (repeat "kraken" 3) 5000.

Definition all_sources_pending : Pending :=
  mkPending plain_request (JStr "BTC-USD") "trimmed_mean" ALL_SOURCES 5000.

Definition steady_upstream : nat -> string -> option Q := fun _ _ => Some 60000%Q.

(** ** Vocabulary for retries and fetchers *)

(** The calls of [fn] with counters [from], ..., [upto - 1] all threw. *)
Definition all_throw {A} (attempt : nat -> result A) (from upto : nat) : Prop :=
  forall j, (from <= j < upto)%nat -> exists e, attempt j = Throw e.

(** What the call with counter [j] threw, if it threw. *)
Definition thrown_at {A} (attempt : nat -> result A) (j : nat) : option string :=
  match attempt j with
  | Throw e => Some e
  | Ok _ => None
  end.

Definition retry_outcome {A} (attempt : nat -> result A) (retries : Z) : Prop :=
  let rounds := Z.to_nat (retries + 1) in
  match withRetries attempt retries with
  | (Fulfilled a, calls) =>
      (1 <= calls <= rounds)%nat /\ attempt (calls - 1)%nat = Ok a /\
      all_throw attempt 0 (calls - 1)
  | (Rejected err, calls) =>
      calls = rounds /\ all_throw attempt 0 rounds /\
      err = match rounds with
            | O => None
            | S j => thrown_at attempt j
            end
  end.

(** The smallest payload of each source that holds [p] where the fetcher
    looks for the price. *)
Definition payload_with (source : string) (p : json) : json :=
  if String.eqb source "coinbase" then JObj [("price", p)]
  else if String.eqb source "kraken" then
    JObj [("result", JObj [("XXBTZUSD", JObj [("c", JArr [p])])])]
  else if String.eqb source "coingecko" then JObj [("bitcoin", JObj [("usd", p)])]
  else JObj [("last", p)].

Definition answers_with (source : string) (j : json) (fetchJson : string -> result json)
  : Prop :=
  forall url, Upstream.url_of source = Some url -> fetchJson url = Ok j.

Definition fetch_attempt (rt : Runtime) (fcu : string -> option string) (ts : Z) : Prop :=
  (forall source q fetchJson,
     In source ALL_SOURCES -> answers_with source (payload_with source (JNum q)) fetchJson ->
     Upstream.attempt rt fcu source ts fetchJson
     = match F64.round q with
       | Fin price => Ok (mkSample source price ts)
       | _ => Throw "bad price"
       end) /\
  (forall source fetchJson,
     In source ALL_SOURCES -> answers_with source (payload_with source JNull) fetchJson ->
     Upstream.attempt rt fcu source ts fetchJson = Ok (mkSample source 0 ts)) /\
  (forall source fetchJson,
     In source ALL_SOURCES -> answers_with source (JObj []) fetchJson ->
     Upstream.attempt rt fcu source ts fetchJson = Throw "bad price") /\
  (forall source fetchJson e url,
     Upstream.url_of source = Some url -> fetchJson url = Throw e ->
     Upstream.attempt rt fcu source ts fetchJson = Throw e) /\
  (forall source fetchJson,
     ~ In source ALL_SOURCES ->
     Upstream.attempt rt fcu source ts fetchJson = Throw "unknown source").

(** How [fetchPrice] settles, and what the handler's view of it is. *)
Definition fetch_outcome (rt : Runtime) (fcu : string -> option string) (retries : Z)
    (src : string) (ts0 : Z) (network : nat -> string -> result json) : Prop :=
  let rounds := Z.to_nat (retries + 1) in
  match Upstream.fetchPrice rt fcu retries src ts0 network with
  | (Fulfilled s, calls) =>
      (1 <= calls <= rounds)%nat /\ In src ALL_SOURCES /\
      fetchPrice (Some (value s)) src ts0 = Some s
  | (Rejected err, calls) =>
      calls = rounds /\
      all_throw (fun i => Upstream.attempt rt fcu src ts0 (network i)) 0 rounds /\
      (~ In src ALL_SOURCES -> (1 <= rounds)%nat -> err = Some "unknown source")
  end.

(** ** Vocabulary for the connection *)

Definition within_size (cfg : Config) (raw : RawData) : Prop :=
  toString_length (bytes raw) <= MAX_EVENT_BYTES cfg.

(** A REQ frame followed by a CLOSE frame for the same subscription. *)
Definition subscription_table (cfg : Config) (rt : Runtime) (ws : ExtendedWebSocket)
    (req close : RawData) (subId : string) (filters : list NostrFilter) (now : Z) (r : Relay)
  : Prop :=
  let ws1 := fst (onMessage cfg rt ws req now r) in
  let run2 := onMessage cfg rt ws1 close now r in
  subs ws1 !! subId = Some filters /\
  (forall other, other <> subId -> subs ws1 !! other = subs ws !! other) /\
  (subs ws !! subId = None -> size (subs ws1) = S (size (subs ws))) /\
  snd run2 = Returned Finished r [] /\
  subs (fst run2) !! subId = None /\
  (forall other, other <> subId -> subs (fst run2) !! other = subs ws !! other) /\
  (subs ws !! subId = None -> subs (fst run2) = subs ws).

Definition close_frame : RawData := mkRaw (frame_text "['CLOSE','s1']") (C_CLOSE "s1").

(** An EVENT frame is answered first of all with an OK frame. *)
Definition answered_first (cfg : Config) (rt : Runtime) (ws : ExtendedWebSocket)
    (evt : NostrEvent) (now : Z) (r : Relay) : Prop :=
  exists ok reason rest,
    effects (onEVENT cfg rt ws evt now r) = Sent (OK (id evt) ok reason) :: rest /\
    (ok = true <-> accepted rt ws evt now r) /\
    forall id' ok' reason', ~ In (Sent (OK id' ok' reason')) rest.

Definition too_large : list Effect := [Sent (NOTICE "payload too large")].

(** ** Vocabulary for the client's subscription and the relay's identity *)

(** The events a request's runs broadcast are found by the subscription
    for that request, and by no subscription for another request. *)
Definition found_by_own_subscription (cfg : Config) (rt : Runtime) : Prop :=
  (forall r evt now e requestId,
     In (Broadcast (EVENT e)) (effects (handlePriceRequest cfg rt r evt now)) ->
     matchFilter e (Client.subscribe_filter requestId) = String.eqb requestId (id evt)) /\
  (forall r k upstream now e requestId,
     In (Broadcast (EVENT e)) (effects (resumePriceRequest cfg rt r k upstream now)) ->
     matchFilter e (Client.subscribe_filter requestId)
     = String.eqb requestId (id (p_evt k))).

(** The identity [ensureRelayKeys] sets up when the module has just been
    loaded. *)
Definition identity_set_up (cfg : Config) (rt : Runtime) (generated : string) : Prop :=
  let k := Setup.ensureRelayKeys rt generated Setup.unset in
  Setup.secret_key k = Some generated /\
  (forall now params, signEvent rt (Setup.secret_key Setup.unset) now params
                      = Throw "Relay secret key not initialized") /\
  (forall now params,
     tags_are_strings (t_tags params) = true ->
     exists e, signEvent rt (Setup.secret_key k) now params = Ok e /\
               pubkey e = Setup.info_pubkey (Setup.getRelayInfo cfg k) /\
               kind e = t_kind params /\ tags e = t_tags params /\
               content e = t_content params /\ created_at e = nowSec now) /\
  (forall now params,
     tags_are_strings (t_tags params) = false ->
     signEvent rt (Setup.secret_key k) now params
     = Throw "can't serialize event with wrong or missing properties") /\
  (getPublicKey rt generated <> "" ->
   forall other, Setup.ensureRelayKeys rt other k = k).

(** Which of the limits of the information document the relay applies. *)
Definition advertised_limits (cfg : Config) (rt : Runtime) (k : Setup.Keys) : Prop :=
  let lim := Setup.limitations (Setup.getRelayInfo cfg k) in
  (forall events f,
     Z.of_nat (length (queryEvents events [f])) <= Setup.max_limit lim) /\
  (forall ws raw now r,
     toString_length (bytes raw) > Setup.max_message_length lim ->
     onMessage cfg rt ws raw now r
     = (ws, Returned Finished r (send ws (NOTICE "payload too large")))) /\
  (forall ws subId filters r,
     Z.of_nat (size (subs ws)) >= Setup.max_subscriptions lim ->
     Z.of_nat (length filters) > Setup.max_filters lim ->
     subs (fst (onREQ ws subId filters r)) !! subId = Some filters /\
     queryEvents (events r) filters = flat_map (backfill (events r)) filters).

(** A subscription made after the reply to a request was broadcast finds
    the reply first in its backfill. *)
Definition reply_is_backfilled (req e : NostrEvent) (r' : Relay) : Prop :=
  exists rest,
    queryEvents (events r') [Client.subscribe_filter (id req)] = e :: rest.

Definition backfill_after_reply (cfg : Config) (rt : Runtime) : Prop :=
  (forall r evt now step r' out e,
     handlePriceRequest cfg rt r evt now = Returned step r' out ->
     In (Broadcast (EVENT e)) out -> reply_is_backfilled evt e r') /\
  (forall r k upstream now r' out e,
     resumePriceRequest cfg rt r k upstream now = Returned tt r' out ->
     In (Broadcast (EVENT e)) out -> reply_is_backfilled (p_evt k) e r').

(** ** Vocabulary for tags and for runs that throw *)

(** [t] is a tag named [name] with the truthy second element [v]. *)
Definition names_value (t : list json) (name : string) (v : json) : Prop :=
  nth_error t 0 = Some (JStr name) /\ nth_error t 1 = Some v /\ Js.truthy v = true.

Definition tag_lookup (evt : NostrEvent) (name : string) : Prop :=
  match getTag evt name with
  | Some v =>
      exists before t after,
        tags evt = before ++ t :: after /\ names_value t name v /\
        forall t' v', In t' before -> ~ names_value t' name v'
  | None => forall t v, In t (tags evt) -> ~ names_value t name v
  end.

(** [v] is null, a boolean, a number or a string. *)
Definition is_primitive (v : json) : bool :=
  match v with
  | JArr _ | JObj _ => false
  | _ => true
  end.

(** The request names its pair by a string, in its content or in its tag,
    or not at all, and gives its method and its maxAgeMs, if at all, as
    null, a boolean, a number or a string. *)
Definition plain_members (evt : NostrEvent) : Prop :=
  is_string (req_pair evt) = true /\
  (forall v, Js.prop (req_body evt) "method" = Some v -> is_primitive v = true) /\
  (forall v, Js.prop (req_body evt) "maxAgeMs" = Some v -> is_primitive v = true).

(** No run for an EVENT frame throws, and none that resumes after the
    fetches. *)
Definition runs_return (cfg : Config) (rt : Runtime) (r : Relay) : Prop :=
  (forall ws evt now,
     (kind evt = KIND_PRICE_REQ -> plain_members evt) ->
     exists step r' out,
       onEVENT cfg rt ws evt now r = Returned step r' out /\ relay_ready r') /\
  (forall k upstream now,
     is_string (p_pair k) = true ->
     exists r' out,
       resumePriceRequest cfg rt r k upstream now = Returned tt r' out /\ relay_ready r').

(** With no floor under the quorum, fetches that all fail leave an empty
    cache entry behind, and the runs that read it throw. *)
Definition empty_entry_throws (cfg : Config) (rt : Runtime) (r : Relay) (k : Pending)
    (upstream : nat -> string -> option Q) (now : Z) : Prop :=
  let r1 := set_priceCache (cacheSet now []) r in
  resumePriceRequest cfg rt r k upstream now = Thrown "no samples" r1 [] /\
  forall evt2 now2,
    is_BTC_USD (req_pair evt2) = true ->
    now2 - now <= CACHE_TTL_MS cfg ->
    Js.le (Fin (inject_Z (now2 - now))) (req_maxAgeMs cfg rt evt2) = true ->
    handlePriceRequest cfg rt r1 evt2 now2 = Thrown "no samples" r1 [].

Definition no_floor_config : Config := mkConfig 0 2000 60000 64000 10000 3 2 10.

Definition silent_upstream : nat -> string -> option Q := fun _ _ => None.
(** ** Properties of double-precision arithmetic *)

Section DoubleFacts.
Local Open Scope Q_scope.

Lemma pow2_pos (e : Z) : 0 < F64.pow2 e.
Proof. apply Qpower_0_lt. reflexivity. Qed.

Lemma pow2_plus (a b : Z) : F64.pow2 (a + b) == F64.pow2 a * F64.pow2 b.
Proof. apply Qpower_plus. discriminate. Qed.

Lemma pow2_le (a b : Z) : (a <= b)%Z -> F64.pow2 a <= F64.pow2 b.
Proof. intro H. apply Qpower_le_compat_l; [exact H | discriminate]. Qed.

Lemma pow2_lt (a b : Z) : (a < b)%Z -> F64.pow2 a < F64.pow2 b.
Proof. intro H. apply Qpower_lt_compat_l; [exact H | reflexivity]. Qed.

Lemma pow2_lt_inv (a b : Z) : F64.pow2 a < F64.pow2 b -> (a < b)%Z.
Proof. intro H. apply (Qpower_lt_compat_l_inv 2); [exact H | reflexivity]. Qed.

Lemma pow2_inject (a : Z) : (0 <= a)%Z -> F64.pow2 a == inject_Z (2 ^ a).
Proof. intro H. unfold F64.pow2. now rewrite Zpower_Qpower. Qed.

Lemma pow2_opp (a : Z) : F64.pow2 (- a) == / F64.pow2 a.
Proof. apply Qpower_opp. Qed.

(** [ilog2 q] is the exponent of the power of two at or below [q]. *)
Lemma ilog2_spec (q : Q) :
  0 < q -> F64.pow2 (F64.ilog2 q) <= q /\ q < F64.pow2 (F64.ilog2 q + 1).
Proof.
  intro Hq. unfold F64.ilog2. destruct (Qle_bool 1 q) eqn:E.
  - apply Qle_bool_iff in E.
    assert (Hf : (1 <= Qfloor q)%Z).
    { change 1%Z with (Qfloor 1). now apply Qfloor_resp_le. }
    destruct (Z.log2_spec (Qfloor q) ltac:(lia)) as [Hlo Hhi].
    pose proof (Z.log2_nonneg (Qfloor q)) as Hnn.
    split.
    + rewrite pow2_inject by exact Hnn.
      apply Qle_trans with (inject_Z (Qfloor q)); [now rewrite <- Zle_Qle | apply Qfloor_le].
    + rewrite pow2_inject by lia.
      apply Qlt_le_trans with (inject_Z (Qfloor q + 1)); [apply Qlt_floor|].
      rewrite <- Zle_Qle. rewrite <- Z.add_1_r in Hhi. lia.
  - assert (Hlt : q < 1).
    { apply Qnot_le_lt. intro H. apply Qle_bool_iff in H. congruence. }
    assert (Hinv : 1 < / q).
    { apply Qlt_shift_inv_l; [exact Hq|]. now rewrite Qmult_1_l. }
    assert (Hqq : q * / q == 1) by (apply Qmult_inv_r; intro H0; rewrite H0 in Hq; discriminate).
    set (c := Qceiling (/ q)).
    assert (Hc : (1 < c)%Z).
    { rewrite Zlt_Qlt. apply Qlt_le_trans with (/ q); [exact Hinv | apply Qle_ceiling]. }
    destruct (Z.log2_up_spec c Hc) as [Hlo Hhi].
    pose proof (Z.log2_up_pos c Hc) as Hb.
    set (b := Z.log2_up c) in *.
    split.
    + rewrite pow2_opp. apply Qle_shift_inv_r; [apply pow2_pos|].
      rewrite <- Hqq. rewrite (Qmult_comm q (F64.pow2 b)), (Qmult_comm q (/ q)).
      apply Qmult_le_compat_r; [|now apply Qlt_le_weak].
      apply Qle_trans with (inject_Z c); [apply Qle_ceiling|].
      rewrite pow2_inject by lia. now rewrite <- Zle_Qle.
    + replace (- b + 1)%Z with (- (b - 1))%Z by lia.
      rewrite pow2_opp. apply Qlt_shift_inv_l; [apply pow2_pos|].
      rewrite <- Hqq. rewrite (Qmult_comm q (F64.pow2 _)), (Qmult_comm q (/ q)).
      apply Qmult_lt_compat_r; [exact Hq|].
      apply Qle_lt_trans with (inject_Z (c - 1)); [|apply Qceiling_lt].
      rewrite pow2_inject by lia. rewrite <- Zle_Qle.
      replace (b - 1)%Z with (Z.pred b) by lia. lia.
Qed.

Lemma ilog2_unique (q : Q) (e : Z) :
  F64.pow2 e <= q -> q < F64.pow2 (e + 1) -> F64.ilog2 q = e.
Proof.
  intros Hlo Hhi.
  assert (Hq : 0 < q) by (eapply Qlt_le_trans; [apply pow2_pos | exact Hlo]).
  destruct (ilog2_spec q Hq) as [Hlo' Hhi'].
  assert (H1 : (e < F64.ilog2 q + 1)%Z).
  { apply pow2_lt_inv. eapply Qle_lt_trans; eassumption. }
  assert (H2 : (F64.ilog2 q < e + 1)%Z).
  { apply pow2_lt_inv. eapply Qle_lt_trans; eassumption. }
  lia.
Qed.

Lemma ilog2_mono (x y : Q) : 0 < x -> x <= y -> (F64.ilog2 x <= F64.ilog2 y)%Z.
Proof.
  intros Hx Hxy.
  assert (Hy : 0 < y) by (eapply Qlt_le_trans; eassumption).
  destruct (ilog2_spec x Hx) as [Hlo _]. destruct (ilog2_spec y Hy) as [_ Hhi].
  assert (H : (F64.ilog2 x < F64.ilog2 y + 1)%Z).
  { apply pow2_lt_inv. eapply Qle_lt_trans; [exact Hlo|]. eapply Qle_lt_trans; eassumption. }
  lia.
Qed.

Lemma ilog2_comp (x y : Q) : x == y -> F64.ilog2 x = F64.ilog2 y.
Proof.
  intro H. unfold F64.ilog2.
  rewrite (Qleb_comp 1 1 (Qeq_refl 1) x y H), (Qfloor_comp x y H).
  now rewrite (Qceiling_comp (/ x) (/ y)) by now rewrite H.
Qed.

Lemma exponent_comp (x y : Q) : x == y -> F64.exponent x = F64.exponent y.
Proof. intro H. unfold F64.exponent. now rewrite (ilog2_comp x y H). Qed.

Lemma ulp_comp (x y : Q) : x == y -> F64.ulp x = F64.ulp y.
Proof. intro H. unfold F64.ulp. now rewrite (exponent_comp x y H). Qed.

Lemma ulp_pos (q : Q) : 0 < F64.ulp q.
Proof. apply pow2_pos. Qed.

(** ** Rounding to the nearest integer *)

Lemma rne_comp (x y : Q) : x == y -> F64.rne x = F64.rne y.
Proof.
  intro H. unfold F64.rne. cbv zeta. rewrite (Qfloor_comp x y H).
  now rewrite (Qcompare_comp (x - inject_Z (Qfloor y)) (y - inject_Z (Qfloor y))
                 ltac:(now rewrite H) (1 # 2) (1 # 2) (Qeq_refl _)).
Qed.

Lemma rne_cases (x : Q) : F64.rne x = Qfloor x \/
  (F64.rne x = (Qfloor x + 1)%Z /\ inject_Z (Qfloor x) < x).
Proof.
  unfold F64.rne. cbv zeta.
  destruct (Qcompare_spec (x - inject_Z (Qfloor x)) (1 # 2)) as [H|H|H].
  - destruct (Z.even (Qfloor x)); [now left | right; split; [reflexivity|]]. lra.
  - now left.
  - right. split; [reflexivity|]. lra.
Qed.

Lemma rne_inject (n : Z) : F64.rne (inject_Z n) = n.
Proof.
  unfold F64.rne. rewrite Qfloor_Z.
  assert (H : inject_Z n - inject_Z n == 0) by ring.
  rewrite H. reflexivity.
Qed.

Lemma rne_le (x : Q) (n : Z) : x <= inject_Z n -> (F64.rne x <= n)%Z.
Proof.
  intro H. pose proof (Qfloor_resp_le _ _ H) as Hf. rewrite Qfloor_Z in Hf.
  destruct (rne_cases x) as [->|[-> Hlt]]; [exact Hf|].
  assert (Qfloor x < n)%Z; [|lia].
  rewrite Zlt_Qlt. eapply Qlt_le_trans; eassumption.
Qed.

Lemma rne_ge (x : Q) (n : Z) : inject_Z n <= x -> (n <= F64.rne x)%Z.
Proof.
  intro H. pose proof (Qfloor_resp_le _ _ H) as Hf. rewrite Qfloor_Z in Hf.
  destruct (rne_cases x) as [->|[-> _]]; lia.
Qed.

(** ** Rounding a non-negative rational *)

Lemma round_abs_unfold (q : Q) :
  F64.round_abs q
  = if Qle_bool (F64.pow2 1024) (rounded q) then None else Some (Qred (rounded q)).
Proof. reflexivity. Qed.

Lemma rounded_comp (x y : Q) : x == y -> rounded x == rounded y.
Proof.
  intro H. unfold rounded. rewrite (ulp_comp x y H).
  rewrite (rne_comp (x / F64.ulp y) (y / F64.ulp y)) by now rewrite H.
  reflexivity.
Qed.

Lemma round_abs_comp (x y : Q) : x == y -> F64.round_abs x = F64.round_abs y.
Proof.
  intro H. rewrite !round_abs_unfold. pose proof (rounded_comp x y H) as Hr.
  rewrite (Qleb_comp _ _ (Qeq_refl _) _ _ Hr).
  now rewrite (Qred_complete _ _ Hr).
Qed.

Lemma rounded_nonneg (q : Q) : 0 <= q -> 0 <= rounded q.
Proof.
  intro H. unfold rounded. apply Qmult_le_0_compat; [|apply Qlt_le_weak, ulp_pos].
  change 0 with (inject_Z 0). rewrite <- Zle_Qle. apply rne_ge.
  apply Qle_shift_div_l; [apply ulp_pos|]. now rewrite Qmult_0_l.
Qed.

(** A value on the grid of its own binade is not moved. *)
Lemma rounded_on_grid (q : Q) (n : Z) : q == inject_Z n * F64.ulp q -> rounded q == q.
Proof.
  intro H. unfold rounded.
  assert (Hu : ~ F64.ulp q == 0).
  { intro H0. pose proof (ulp_pos q) as Hp. rewrite H0 in Hp. discriminate. }
  rewrite (rne_comp (q / F64.ulp q) (inject_Z n)).
  - rewrite rne_inject. now symmetry.
  - rewrite H at 1. now field.
Qed.

Lemma exponent_ge (q : Q) : (-1022 <= F64.exponent q)%Z.
Proof. unfold F64.exponent. lia. Qed.

Lemma exponent_mono (x y : Q) : 0 < x -> x <= y -> (F64.exponent x <= F64.exponent y)%Z.
Proof. intros Hx Hxy. unfold F64.exponent. pose proof (ilog2_mono x y Hx Hxy). lia. Qed.

Lemma ulp_exponent (q : Q) : F64.pow2 (F64.exponent q + 1) == inject_Z (2 ^ 53) * F64.ulp q.
Proof.
  unfold F64.ulp. replace (F64.exponent q + 1)%Z with (53 + (F64.exponent q - 52))%Z by lia.
  rewrite pow2_plus. now rewrite (pow2_inject 53).
Qed.

Lemma ulp_exponent_low (q : Q) : F64.pow2 (F64.exponent q) == inject_Z (2 ^ 52) * F64.ulp q.
Proof.
  unfold F64.ulp. replace (F64.exponent q) with (52 + (F64.exponent q - 52))%Z at 1 by lia.
  rewrite pow2_plus. now rewrite (pow2_inject 52).
Qed.

(** Rounding stays inside the closed binade. *)
Lemma rounded_le_binade (q : Q) : 0 < q -> rounded q <= F64.pow2 (F64.exponent q + 1).
Proof.
  intro Hq. rewrite ulp_exponent. unfold rounded.
  apply Qmult_le_compat_r; [|apply Qlt_le_weak, ulp_pos].
  rewrite <- Zle_Qle. apply rne_le.
  apply Qle_shift_div_r; [apply ulp_pos|]. rewrite <- ulp_exponent.
  destruct (ilog2_spec q Hq) as [_ Hhi]. apply Qlt_le_weak.
  eapply Qlt_le_trans; [exact Hhi|]. apply pow2_le. unfold F64.exponent. lia.
Qed.

Lemma rounded_ge_binade (q : Q) :
  0 < q -> (-1022 <= F64.ilog2 q)%Z -> F64.pow2 (F64.exponent q) <= rounded q.
Proof.
  intros Hq Hn. rewrite ulp_exponent_low. unfold rounded.
  apply Qmult_le_compat_r; [|apply Qlt_le_weak, ulp_pos].
  rewrite <- Zle_Qle. apply rne_ge.
  apply Qle_shift_div_l; [apply ulp_pos|]. rewrite <- ulp_exponent_low.
  destruct (ilog2_spec q Hq) as [Hlo _].
  unfold F64.exponent. now rewrite Z.max_l by lia.
Qed.

Lemma representable_abs_inv (b : Q) :
  representable_abs b -> rounded b == b /\ b < F64.pow2 1024.
Proof.
  unfold representable_abs. rewrite round_abs_unfold.
  destruct (Qle_bool (F64.pow2 1024) (rounded b)) eqn:E; [discriminate|].
  intro H. assert (Hr : rounded b == b).
  { apply Qred_eq_iff. congruence. }
  split; [exact Hr|]. rewrite <- Hr. apply Qnot_le_lt. intro Hle.
  apply Qle_bool_iff in Hle. congruence.
Qed.

Lemma grid_quotient (b : Q) : rounded b == b -> b / F64.ulp b == inject_Z (F64.rne (b / F64.ulp b)).
Proof.
  intro H. unfold rounded in H.
  assert (Hu : ~ F64.ulp b == 0).
  { intro H0. pose proof (ulp_pos b) as Hp. rewrite H0 in Hp. discriminate. }
  rewrite <- H at 1. now field.
Qed.

Lemma round_abs_upper (y b : Q) :
  0 <= y -> y <= b -> representable_abs b ->
  exists r, F64.round_abs y = Some r /\ r <= b.
Proof.
  intros Hy Hyb Hb. destruct (representable_abs_inv b Hb) as [Hgrid Hfin].
  assert (Hle : rounded y <= b).
  { destruct (Qle_lt_or_eq _ _ Hy) as [Hpos|Hzero].
    - assert (Hbpos : 0 < b) by (eapply Qlt_le_trans; eassumption).
      pose proof (exponent_mono y b Hpos Hyb) as He.
      destruct (Z.eq_dec (F64.exponent y) (F64.exponent b)) as [Heq|Hne].
      + assert (Hu : F64.ulp y = F64.ulp b) by (unfold F64.ulp; now rewrite Heq).
        rewrite <- Hgrid. unfold rounded. rewrite Hu.
        apply Qmult_le_compat_r; [|apply Qlt_le_weak, ulp_pos].
        rewrite <- Zle_Qle. apply rne_le. rewrite <- (grid_quotient b Hgrid).
        apply Qmult_le_compat_r; [exact Hyb|]. apply Qinv_le_0_compat, Qlt_le_weak, ulp_pos.
      + eapply Qle_trans; [apply rounded_le_binade; exact Hpos|].
        eapply Qle_trans; [apply (pow2_le _ (F64.exponent b)); lia|].
        pose proof (exponent_ge y).
        destruct (ilog2_spec b Hbpos) as [Hlo _].
        unfold F64.exponent in *. now rewrite Z.max_l by lia.
    - rewrite <- (rounded_comp 0 y Hzero). eapply Qle_trans; [|exact Hyb].
      rewrite <- Hzero. vm_compute. discriminate. }
  exists (Qred (rounded y)). rewrite round_abs_unfold.
  destruct (Qle_bool (F64.pow2 1024) (rounded y)) eqn:E.
  - exfalso. apply Qle_bool_iff in E. apply (Qlt_irrefl b).
    eapply Qlt_le_trans; [exact Hfin|]. eapply Qle_trans; eassumption.
  - split; [reflexivity|]. now rewrite Qred_correct.
Qed.

Lemma round_abs_lower (y b : Q) :
  0 <= b -> b <= y -> representable_abs b ->
  match F64.round_abs y with
  | Some r => b <= r
  | None => True
  end.
Proof.
  intros Hb0 Hby Hb. destruct (representable_abs_inv b Hb) as [Hgrid Hfin].
  rewrite round_abs_unfold.
  destruct (Qle_bool (F64.pow2 1024) (rounded y)); [exact I|].
  rewrite Qred_correct.
  destruct (Qle_lt_or_eq _ _ Hb0) as [Hpos|Hzero].
  - assert (Hypos : 0 < y) by (eapply Qlt_le_trans; eassumption).
    pose proof (exponent_mono b y Hpos Hby) as He.
    destruct (Z.eq_dec (F64.exponent b) (F64.exponent y)) as [Heq|Hne].
    + assert (Hu : F64.ulp y = F64.ulp b) by (unfold F64.ulp; now rewrite Heq).
      rewrite <- Hgrid. unfold rounded. rewrite Hu.
      apply Qmult_le_compat_r; [|apply Qlt_le_weak, ulp_pos].
      rewrite <- Zle_Qle. apply rne_ge. rewrite <- (grid_quotient b Hgrid).
      apply Qmult_le_compat_r; [exact Hby|]. apply Qinv_le_0_compat, Qlt_le_weak, ulp_pos.
    + pose proof (exponent_ge b).
      assert (Hnorm : (-1022 <= F64.ilog2 y)%Z) by (unfold F64.exponent in *; lia).
      eapply Qle_trans; [|apply rounded_ge_binade; assumption].
      eapply Qle_trans; [|apply (pow2_le (F64.exponent b + 1)); lia].
      destruct (ilog2_spec b Hpos) as [_ Hhi]. apply Qlt_le_weak.
      eapply Qlt_le_trans; [exact Hhi|]. apply pow2_le. unfold F64.exponent. lia.
  - rewrite <- Hzero. apply rounded_nonneg. now rewrite Hzero.
Qed.

(** ** Rounding a rational of either sign *)

Lemma Qopp_opp_eq (q : Q) : - - q = q.
Proof. destruct q as [n d]. unfold Qopp. simpl. now rewrite Z.opp_involutive. Qed.

Lemma Qle_bool_false (a b : Q) : Qle_bool a b = false <-> b < a.
Proof.
  split; intro H.
  - apply Qnot_le_lt. intro Hle. apply Qle_bool_iff in Hle. congruence.
  - destruct (Qle_bool a b) eqn:E; [|reflexivity].
    apply Qle_bool_iff in E. exfalso. apply (Qlt_irrefl b). eapply Qlt_le_trans; eassumption.
Qed.

Lemma round_comp (x y : Q) : x == y -> F64.round x = F64.round y.
Proof.
  intro H. unfold F64.round. rewrite (Qleb_comp 0 0 (Qeq_refl 0) x y H).
  rewrite (round_abs_comp x y H). now rewrite (round_abs_comp (- x) (- y)) by now rewrite H.
Qed.

Lemma round_abs_nonneg (q r : Q) : 0 <= q -> F64.round_abs q = Some r -> 0 <= r.
Proof.
  intros Hq. rewrite round_abs_unfold. destruct (Qle_bool _ _); [discriminate|].
  intro H. assert (Hr : r = Qred (rounded q)) by congruence.
  rewrite Hr, Qred_correct. now apply rounded_nonneg.
Qed.

Lemma representable_nonneg (b : Q) : 0 <= b -> F64.representable b -> representable_abs b.
Proof.
  intros Hb. unfold F64.representable, F64.round, representable_abs.
  apply Qle_bool_iff in Hb. rewrite Hb.
  destruct (F64.round_abs b); [congruence | discriminate].
Qed.

Lemma representable_neg (b : Q) : b < 0 -> F64.representable b -> representable_abs (- b).
Proof.
  intros Hb. unfold F64.representable, F64.round, representable_abs.
  apply Qle_bool_false in Hb. rewrite Hb.
  destruct (F64.round_abs (- b)) as [r|]; [|discriminate].
  intro H. assert (Hr : - r = Qred b) by congruence.
  rewrite Qred_opp, <- Hr. now rewrite Qopp_opp_eq.
Qed.

(** Rounding never crosses a double: a double at or above [y] is at or
    above the double nearest [y], and likewise below. *)
Lemma round_upper (y b : Q) :
  y <= b -> F64.representable b -> Js.le (F64.round y) (Fin b) = true.
Proof.
  intros Hyb Hb. unfold F64.round.
  destruct (Qle_bool 0 y) eqn:Ey.
  - apply Qle_bool_iff in Ey.
    assert (Hb0 : 0 <= b) by (eapply Qle_trans; eassumption).
    destruct (round_abs_upper y b Ey Hyb (representable_nonneg b Hb0 Hb)) as [r [-> Hr]].
    simpl. now apply Qle_bool_iff.
  - apply Qle_bool_false in Ey.
    destruct (Qlt_le_dec b 0) as [Hneg|Hpos].
    + assert (H1 : 0 <= - b) by lra. assert (H2 : - b <= - y) by lra.
      pose proof (round_abs_lower (- y) (- b) H1 H2 (representable_neg b Hneg Hb)) as Hl.
      destruct (F64.round_abs (- y)) as [r|]; [|reflexivity].
      simpl. apply Qle_bool_iff. lra.
    + destruct (F64.round_abs (- y)) as [r|] eqn:E; [|reflexivity].
      simpl. apply Qle_bool_iff.
      assert (0 <= r) by (apply (round_abs_nonneg (- y)); [lra | exact E]). lra.
Qed.

Lemma round_lower (y b : Q) :
  b <= y -> F64.representable b -> Js.le (Fin b) (F64.round y) = true.
Proof.
  intros Hby Hb. unfold F64.round.
  destruct (Qle_bool 0 y) eqn:Ey.
  - apply Qle_bool_iff in Ey.
    destruct (Qlt_le_dec b 0) as [Hneg|Hpos].
    + destruct (F64.round_abs y) as [r|] eqn:E; [|reflexivity].
      simpl. apply Qle_bool_iff.
      assert (0 <= r) by (apply (round_abs_nonneg y); assumption). lra.
    + pose proof (round_abs_lower y b Hpos Hby (representable_nonneg b Hpos Hb)) as Hl.
      destruct (F64.round_abs y) as [r|]; [|reflexivity].
      simpl. now apply Qle_bool_iff.
  - apply Qle_bool_false in Ey.
    assert (Hneg : b < 0) by lra.
    assert (H1 : 0 <= - y) by lra. assert (H2 : - y <= - b) by lra.
    destruct (round_abs_upper (- y) (- b) H1 H2 (representable_neg b Hneg Hb)) as [r [-> Hr]].
    simpl. apply Qle_bool_iff. lra.
Qed.

(** ** Whole numbers *)

Lemma Qred_inject (k : Z) : Qred (inject_Z k) = inject_Z k.
Proof.
  unfold Qred, inject_Z.
  pose proof (Z.ggcd_gcd k 1) as Hg. pose proof (Z.ggcd_correct_divisors k 1) as Hd.
  destruct (Z.ggcd k 1) as [g [n d]]. simpl in *. rewrite Z.gcd_1_r in Hg. subst g.
  destruct Hd as [-> Hd]. replace d with 1%Z by lia.
  now rewrite Z.mul_1_l.
Qed.

Lemma integer_on_grid (k : Z) :
  (0 < k <= 2 ^ 53)%Z ->
  exists n, inject_Z k == inject_Z n * F64.ulp (inject_Z k).
Proof.
  intros [Hpos Hle].
  destruct (Z.log2_spec k Hpos) as [Hlo Hhi]. pose proof (Z.log2_nonneg k) as Hnn.
  set (a := Z.log2 k) in *.
  assert (Ha : (a <= 53)%Z).
  { destruct (Z.le_gt_cases a 53) as [H|H]; [exact H|]. exfalso.
    assert (2 ^ 54 <= 2 ^ a)%Z by (apply Z.pow_le_mono_r; lia).
    assert (2 ^ 53 < 2 ^ 54)%Z by (apply Z.pow_lt_mono_r; lia). lia. }
  assert (Hil : F64.ilog2 (inject_Z k) = a).
  { apply ilog2_unique.
    - rewrite pow2_inject by lia. now rewrite <- Zle_Qle.
    - rewrite pow2_inject by lia. rewrite <- Zlt_Qlt. now rewrite <- Z.add_1_r in Hhi. }
  assert (Hu : F64.ulp (inject_Z k) = F64.pow2 (a - 52)).
  { unfold F64.ulp, F64.exponent. rewrite Hil. now rewrite Z.max_l by lia. }
  rewrite Hu.
  destruct (Z.le_gt_cases a 52) as [Hsmall|Hbig].
  - exists (k * 2 ^ (52 - a))%Z.
    rewrite inject_Z_mult, <- (pow2_inject (52 - a)) by lia.
    rewrite <- Qmult_assoc, <- pow2_plus.
    replace (52 - a + (a - 52))%Z with 0%Z by lia.
    change (F64.pow2 0) with 1. now rewrite Qmult_1_r.
  - assert (a = 53)%Z by lia. subst a.
    assert (Hk : k = (2 ^ 53)%Z).
    { replace (Z.log2 k) with 53%Z in Hlo by lia. lia. }
    exists (2 ^ 52)%Z. replace (Z.log2 k) with 53%Z by lia. rewrite Hk. reflexivity.
Qed.

Lemma round_abs_integer (k : Z) :
  (0 <= k <= 2 ^ 53)%Z -> F64.round_abs (inject_Z k) = Some (inject_Z k).
Proof.
  intros [Hnn Hle].
  destruct (Z.eq_dec k 0%Z) as [->|Hne]; [reflexivity|].
  destruct (integer_on_grid k ltac:(lia)) as [n Hn].
  pose proof (rounded_on_grid _ n Hn) as Hr.
  rewrite round_abs_unfold.
  rewrite (Qleb_comp _ _ (Qeq_refl _) _ _ Hr), (Qred_complete _ _ Hr), Qred_inject.
  replace (Qle_bool (F64.pow2 1024) (inject_Z k)) with false; [reflexivity|].
  symmetry. apply Qle_bool_false.
  apply Qle_lt_trans with (inject_Z (2 ^ 53)); [now rewrite <- Zle_Qle|].
  rewrite <- pow2_inject by lia. apply pow2_lt. lia.
Qed.

(** Every whole number of magnitude up to 2^53 is a double. *)
Lemma of_Z_exact (k : Z) :
  (- 2 ^ 53 <= k <= 2 ^ 53)%Z -> F64.of_Z k = Fin (inject_Z k).
Proof.
  intros [Hlo Hhi]. unfold F64.of_Z, F64.round.
  destruct (Qle_bool 0 (inject_Z k)) eqn:E.
  - apply Qle_bool_iff in E. change 0 with (inject_Z 0) in E. rewrite <- Zle_Qle in E.
    now rewrite round_abs_integer by lia.
  - apply Qle_bool_false in E. change 0 with (inject_Z 0) in E. rewrite <- Zlt_Qlt in E.
    rewrite (round_abs_comp (- inject_Z k) (inject_Z (- k))) by (now rewrite inject_Z_opp).
    rewrite round_abs_integer by lia.
    f_equal. rewrite inject_Z_opp. apply Qopp_opp_eq.
Qed.

Lemma representable_integer (k : Z) :
  (- 2 ^ 53 <= k <= 2 ^ 53)%Z -> F64.representable (inject_Z k).
Proof.
  intro H. unfold F64.representable. rewrite Qred_inject. now apply of_Z_exact.
Qed.

Lemma round_integer (q : Q) (k : Z) :
  q == inject_Z k -> (- 2 ^ 53 <= k <= 2 ^ 53)%Z -> F64.round q = Fin (inject_Z k).
Proof. intros Hq Hk. rewrite (round_comp q (inject_Z k) Hq). now apply of_Z_exact. Qed.

(** ** The error of one rounding *)

Lemma rne_upper (x : Q) : inject_Z (F64.rne x) <= x + (1 # 2).
Proof.
  pose proof (Qfloor_le x) as Hf.
  unfold F64.rne. cbv zeta.
  destruct (Qcompare_spec (x - inject_Z (Qfloor x)) (1 # 2)) as [H|H|H].
  - destruct (Z.even (Qfloor x)); [lra|]. rewrite inject_Z_plus. change (inject_Z 1) with 1. lra.
  - lra.
  - rewrite inject_Z_plus. change (inject_Z 1) with 1. lra.
Qed.

Lemma rounded_upper_half (q : Q) : rounded q <= q + F64.ulp q * (1 # 2).
Proof.
  unfold rounded. pose proof (ulp_pos q) as Hu.
  pose proof (rne_upper (q / F64.ulp q)) as H.
  apply (Qmult_le_compat_r _ _ (F64.ulp q)) in H; [|lra].
  eapply Qle_trans; [exact H|]. apply Qle_lteq. right. field. lra.
Qed.

Lemma half_ulp (q : Q) : 0 < q -> F64.ulp q * (1 # 2) <= q * half_bit + half_least.
Proof.
  intro Hq. destruct (ilog2_spec q Hq) as [Hlo _].
  unfold F64.ulp, F64.exponent, half_bit, half_least.
  destruct (Z.max_spec (F64.ilog2 q) (-1022)) as [[Hc ->]|[Hc ->]].
  - change (-1022 - 52)%Z with (-1074)%Z.
    assert (F64.pow2 (-1074) * (1 # 2) == F64.pow2 (-1075)) by reflexivity.
    pose proof (pow2_pos (-53)). nra.
  - replace (F64.ilog2 q - 52)%Z with (F64.ilog2 q + (-52))%Z by lia.
    rewrite pow2_plus.
    assert (He : F64.pow2 (-52) * (1 # 2) == F64.pow2 (-53)) by reflexivity.
    pose proof (pow2_pos (-1075)). pose proof (pow2_pos (-53)).
    pose proof (pow2_pos (F64.ilog2 q)).
    rewrite <- Qmult_assoc, He. 
    apply Qle_trans with (q * F64.pow2 (-53)); [|lra].
    apply Qmult_le_compat_r; lra.
Qed.

Lemma rounded_error (q : Q) : 0 <= q -> rounded q <= q + (q * half_bit + half_least).
Proof.
  intro Hq. destruct (Qle_lt_or_eq _ _ Hq) as [Hpos|Hz].
  - eapply Qle_trans; [apply rounded_upper_half|]. pose proof (half_ulp q Hpos). lra.
  - rewrite (rounded_comp q 0) by (now symmetry). rewrite <- Hz.
    assert (H0 : rounded 0 == 0).
    { apply (rounded_on_grid 0 0). ring. }
    rewrite H0. unfold half_bit, half_least. pose proof (pow2_pos (-1075)). lra.
Qed.

Lemma round_error (q r : Q) : 0 <= q -> F64.round q = Fin r -> r <= q + (q * half_bit + half_least).
Proof.
  intros Hq. unfold F64.round. apply Qle_bool_iff in Hq. rewrite Hq.
  apply Qle_bool_iff in Hq. rewrite round_abs_unfold.
  destruct (Qle_bool _ _); [discriminate|]. intros H.
  assert (Hr : r = Qred (rounded q)) by congruence.
  rewrite Hr, Qred_correct. now apply rounded_error.
Qed.

End DoubleFacts.

(** The arithmetic on worked inputs, and next to the Standard Library's
    specification of binary64. *)
Example decimal_texts :
  F64.round (600001 # 10) = Fin d60000_1 /\ F64.round (600002 # 10) = Fin d60000_2 /\
  F64.round (600007 # 10) = Fin d60000_7 /\ F64.round (1 # 10) = Fin d0_1 /\
  F64.round (1 # 3) = Fin third /\ F64.round (inject_Z (10 ^ 999)) = PosInf.
Proof. vm_compute. repeat split. Qed.

Example mean_is_rounded :
  mean [d60000_1; d60000_2] = Fin (2061589456040755 # 34359738368) /\
  mean [d0_1; d0_1; d0_1] = Fin (7205759403792795 # 72057594037927936) /\
  mean [max_double; max_double] = PosInf /\
  median [max_double; max_double; max_double; max_double] = PosInf.
Proof. vm_compute. repeat split. Qed.

Example agrees_with_binary64 :
  F64.of_binary64 b60000_1 = Fin d60000_1 /\
  F64.of_binary64 (SFdiv 53 1024 (SFadd 53 1024 (SFadd 53 1024 (binary64 0) b60000_1)
                                    b60000_2) (binary64 2))
  = mean [d60000_1; d60000_2] /\
  F64.of_binary64 (SFmul 53 1024 (SFdiv 53 1024 (binary64 3000) (binary64 1000)) b_third)
  = F64.mul (F64.div (F64.of_Z 3000) (Fin 1000)) (Fin third) /\
  F64.of_binary64 (SFsub 53 1024 b60000_2 b60000_1)
  = F64.sub (Fin d60000_2) (Fin d60000_1) /\
  F64.of_binary64 (binary64 (2 ^ 53 + 1)) = F64.of_Z (2 ^ 53 + 1) /\
  F64.of_binary64 (binary64 (10 ^ 999)) = F64.of_Z (10 ^ 999).
Proof. vm_compute. repeat split. Qed.

(** ** Properties of the aggregator *)

Section SortFacts.
Context {A : Type}.
Variable before : A -> A -> bool.
Hypothesis before_total : forall a b, before a b = false -> before b a = true.
Hypothesis before_trans :
  forall a b c, before a b = true -> before b c = true -> before a c = true.

Let ordered (a b : A) : Prop := before a b = true.

Lemma insert_sorted_perm (x : A) (l : list A) :
  Permutation (insert_sorted before x l) (x :: l).
Proof.
  induction l as [|y l IH]; simpl.
  - reflexivity.
  - destruct (before x y).
    + reflexivity.
    + rewrite IH. apply perm_swap.
Qed.

Lemma sort_perm (l : list A) : Permutation (sort before l) l.
Proof.
  induction l as [|x l IH]; simpl.
  - reflexivity.
  - rewrite insert_sorted_perm. now rewrite IH.
Qed.

Lemma sort_length (l : list A) : length (sort before l) = length l.
Proof. apply Permutation_length, sort_perm. Qed.

Lemma insert_sorted_sorted (x : A) (l : list A) :
  StronglySorted ordered l -> StronglySorted ordered (insert_sorted before x l).
Proof.
  induction 1 as [|y l Hs IH Hy]; simpl.
  - repeat constructor.
  - destruct (before x y) eqn:E.
    + constructor.
      * now constructor.
      * constructor; [exact E|].
        eapply List.Forall_impl; [|exact Hy].
        intros z Hz. exact (before_trans _ _ _ E Hz).
    + constructor; [exact IH|].
      apply (Permutation_Forall (Permutation_sym (insert_sorted_perm x l))).
      constructor; [now apply before_total | exact Hy].
Qed.

Lemma sort_sorted (l : list A) : StronglySorted ordered (sort before l).
Proof.
  induction l as [|x l IH]; simpl.
  - constructor.
  - now apply insert_sorted_sorted.
Qed.
End SortFacts.

Lemma slice_1_m1_split {A} (l : list A) :
  (2 <= length l)%nat -> exists lo hi, l = lo :: slice_1_m1 l ++ [hi].
Proof.
  destruct l as [|lo l]; simpl; [lia|].
  intros Hlen. unfold slice_1_m1; simpl.
  assert (Hne : l <> []) by (destruct l; simpl in *; [lia | discriminate]).
  destruct (exists_last Hne) as [mid [hi ->]].
  exists lo, hi. now rewrite removelast_last.
Qed.

Lemma by_value_total a b : by_value a b = false -> by_value b a = true.
Proof.
  unfold by_value. intros H. apply Qle_bool_iff.
  destruct (Qlt_le_dec (value b) (value a)) as [Hlt|Hle].
  - now apply Qlt_le_weak.
  - apply Qle_bool_iff in Hle. congruence.
Qed.

Lemma by_value_trans a b c :
  by_value a b = true -> by_value b c = true -> by_value a c = true.
Proof.
  unfold by_value. rewrite !Qle_bool_iff. apply Qle_trans.
Qed.

Lemma by_number_total a b : by_number a b = false -> by_number b a = true.
Proof. apply (by_value_total (mkSample "" a 0) (mkSample "" b 0)). Qed.

Lemma by_number_trans a b c :
  by_number a b = true -> by_number b c = true -> by_number a c = true.
Proof. unfold by_number. rewrite !Qle_bool_iff. apply Qle_trans. Qed.

(** The sum the code accumulates left to right is the running total. *)
Lemma sum_running_total (values : list Q) : running_total values (sum values).
Proof.
  unfold sum. induction values as [|v values IH] using rev_ind.
  - constructor.
  - rewrite fold_left_app. simpl. now constructor.
Qed.

Lemma mean_arithmetic (values : list Q) : arithmetic_mean values (mean values).
Proof. exists (sum values). split; [apply sum_running_total | reflexivity]. Qed.

Lemma StronglySorted_weaken {A} (R S : A -> A -> Prop) (l : list A) :
  (forall a b, R a b -> S a b) -> StronglySorted R l -> StronglySorted S l.
Proof.
  intros HRS. induction 1 as [|x l Hs IH Hx]; constructor.
  - exact IH.
  - eapply List.Forall_impl; [|exact Hx]. intros b. apply HRS.
Qed.

Lemma at_index_nat (arr : list Q) (i : nat) :
  at_index arr (Z.of_nat i) = nth_error arr i.
Proof.
  unfold at_index. destruct (Z.ltb_spec (Z.of_nat i) 0); [lia|].
  now rewrite Nat2Z.id.
Qed.

Lemma nth_error_in_range {A} (l : list A) (i : nat) :
  (i < length l)%nat -> exists a, nth_error l i = Some a.
Proof.
  intros H. destruct (nth_error l i) eqn:E; [eauto|].
  apply nth_error_None in E. lia.
Qed.

Lemma median_is_median (values : list Q) :
  values <> [] -> median_of values (median values).
Proof.
  intros Hne. unfold median.
  set (arr := sort by_number values).
  assert (Hperm : Permutation arr values) by apply sort_perm.
  assert (Hsorted : StronglySorted Qle arr).
  { eapply StronglySorted_weaken;
      [| apply (sort_sorted by_number by_number_total by_number_trans)].
    intros a b. apply Qle_bool_iff. }
  assert (Hpos : (0 < length arr)%nat).
  { rewrite (Permutation_length Hperm). destruct values; simpl; [congruence | lia]. }
  exists arr. split; [exact Hperm|]. split; [exact Hsorted|].
  cbv zeta. set (n := length arr) in *.
  assert (Hhalf : Z.of_nat n / 2 = Z.of_nat (n / 2)) by (now rewrite Nat2Z.inj_div).
  assert (Hlt : (n / 2 < n)%nat) by (apply Nat.div_lt; lia).
  destruct (Nat.even n) eqn:Heven.
  - apply Nat.even_spec in Heven. destruct Heven as [k Hk].
    assert (Hmod : Z.of_nat n mod 2 = 0).
    { rewrite Hk, Nat2Z.inj_mul, Z.mul_comm. apply Z_mod_mult. }
    rewrite Hmod. simpl (0 =? 0).
    assert (Hk1 : (1 <= n / 2)%nat).
    { rewrite Hk, Nat.mul_comm, Nat.div_mul by lia. lia. }
    replace (Z.of_nat n / 2 - 1) with (Z.of_nat (n / 2 - 1)) by lia.
    rewrite Hhalf, !at_index_nat.
    destruct (nth_error_in_range arr (n / 2 - 1)) as [a Ha]; [fold n; lia|].
    destruct (nth_error_in_range arr (n / 2)) as [b Hb]; [fold n; lia|].
    rewrite Ha, Hb. now exists a, b.
  - assert (Hodd : Nat.odd n = true) by (rewrite <- Nat.negb_even, Heven; reflexivity).
    apply Nat.odd_spec in Hodd. destruct Hodd as [k Hk].
    assert (Hmod : Z.of_nat n mod 2 = 1).
    { rewrite Hk. replace (Z.of_nat (2 * k + 1)) with (1 + Z.of_nat k * 2) by lia.
      rewrite Z_mod_plus_full. reflexivity. }
    rewrite Hmod. simpl (1 =? 0).
    rewrite Hhalf, at_index_nat.
    destruct (nth_error_in_range arr (n / 2)) as [a Ha]; [fold n; lia|].
    rewrite Ha. now exists a.
Qed.

(** The two samples that the trimmed mean leaves out are a minimum and a
    maximum of the input, and what is left is the input without them. *)
Lemma trimmed_extremes (samples : list PriceSample) :
  (2 <= length samples)%nat ->
  exists lo hi,
    Permutation samples (lo :: slice_1_m1 (sort by_value samples) ++ [hi]) /\
    Forall (fun x => (value lo <= value x)%Q /\ (value x <= value hi)%Q) samples.
Proof.
  intros Hlen.
  pose proof (sort_perm by_value samples) as Hperm.
  pose proof (sort_sorted by_value by_value_total by_value_trans samples) as Hsorted.
  destruct (slice_1_m1_split (sort by_value samples)) as [lo [hi Heq]].
  { now rewrite sort_length. }
  set (used := slice_1_m1 (sort by_value samples)) in *.
  exists lo, hi. split.
  { rewrite <- Heq. now symmetry. }
  apply (Permutation_Forall Hperm). rewrite Heq in Hsorted |- *.
  apply StronglySorted_inv in Hsorted. destruct Hsorted as [Hrest Hlo].
  assert (Hhi : Forall (fun x => by_value x hi = true) (used ++ [hi])).
  { clear -Hrest. induction used as [|u used IH]; simpl in *.
    - repeat constructor. unfold by_value. apply Qle_bool_iff, Qle_refl.
    - apply StronglySorted_inv in Hrest. destruct Hrest as [Hrest Hu].
      constructor; [|now apply IH].
      rewrite List.Forall_forall in Hu. apply Hu, in_or_app. right. now left. }
  constructor.
  - split; [apply Qle_refl|].
    rewrite List.Forall_forall in Hlo. apply Qle_bool_iff.
    apply (Hlo hi), in_or_app. right. now left.
  - rewrite List.Forall_forall in Hlo, Hhi |- *. intros x Hx.
    split; apply Qle_bool_iff; [apply (Hlo x Hx) | apply (Hhi x Hx)].
Qed.

Lemma aggregate_trimmed (samples : list PriceSample) :
  (5 <= length samples)%nat -> trimmed_rule samples "trimmed_mean".
Proof.
  intros Hlen.
  destruct (trimmed_extremes samples) as [lo [hi [Hperm Hext]]]; [lia|].
  exists lo, hi, (slice_1_m1 (sort by_value samples)).
  assert (Hused : length (slice_1_m1 (sort by_value samples)) = (length samples - 2)%nat).
  { apply Permutation_length in Hperm. simpl in Hperm.
    rewrite length_app in Hperm. simpl in Hperm. lia. }
  repeat split; try assumption.
  - unfold aggregate. rewrite length_map.
    destruct (Nat.eqb_spec (length samples) 0); [lia|].
    destruct (Nat.leb_spec 5 (length samples)); [|lia].
    reflexivity.
  - apply mean_arithmetic.
Qed.

Lemma aggregate_not_trimmed (samples : list PriceSample) (method : string) :
  samples <> [] ->
  ~ (method = "trimmed_mean" /\ (5 <= length samples)%nat) ->
  aggregate samples method =
    if (3 <=? length samples)%nat
    then Ok (mkAggregate (median (List.map value samples)) "median" samples)
    else Ok (mkAggregate (mean (List.map value samples)) "mean" samples).
Proof.
  intros Hne Hnot. unfold aggregate. rewrite length_map.
  destruct (Nat.eqb_spec (length samples) 0) as [H0|_].
  { destruct samples; [congruence | discriminate]. }
  destruct (String.eqb_spec method "trimmed_mean") as [Hm|_];
    destruct (Nat.leb_spec 5 (length samples)) as [H5|_]; simpl; try reflexivity.
  exfalso. now apply Hnot.
Qed.

Lemma values_nonempty (samples : list PriceSample) :
  samples <> [] -> List.map value samples <> [].
Proof. destruct samples; [congruence | discriminate]. Qed.

(** C1, as the code has it: for every non-empty sample list and every
    requested method, [aggregate] follows the ladder.  A request for
    "trimmed_mean" over at least five samples drops one minimum and one
    maximum of the value-sorted input and returns the arithmetic mean of the
    rest as "trimmed_mean"; every other request (so also a direct "median"
    or "mean") is answered by the count alone: the median, labelled
    "median", over the whole input when there are at least three samples,
    the arithmetic mean, labelled "mean", when there are fewer.  The means
    are those of double-precision arithmetic: the values are added in
    order, from zero, and the total is divided by their number, every
    operation giving the nearest double; the median of an even number of
    values is half the sum of the two middle ones, computed likewise. *)
Theorem aggregate_ladder (samples : list PriceSample) (method : string) :
  samples <> [] -> ladder samples method.
Proof.
  intros Hne. split.
  - intros [-> Hlen]. now apply aggregate_trimmed.
  - intros Hnot. pose proof (aggregate_not_trimmed samples method Hne Hnot) as Hagg.
    split; intros Hlen.
    + destruct (Nat.leb_spec 3 (length samples)); [|lia].
      eexists; split; [exact Hagg|].
      apply median_is_median, values_nonempty, Hne.
    + destruct (Nat.leb_spec 3 (length samples)); [lia|].
      eexists; split; [exact Hagg|].
      apply mean_arithmetic.
Qed.

Lemma aggregate_ladder_witness :
  five_samples <> [] /\ ladder five_samples "trimmed_mean".
Proof.
  split; [discriminate | apply (aggregate_ladder five_samples "trimmed_mean"); discriminate].
Defined.

(** C1 as worded fails: a direct request for "mean" over three samples is
    answered with their median, labelled "median", not with their mean. *)
Lemma aggregate_mean_request_not_honored :
  aggregate three_samples "mean" = Ok (mkAggregate (Fin 2) "median" three_samples) /\
  mean (List.map value three_samples) = Fin 3 /\
  ~ mean_rule three_samples "mean".
Proof.
  split; [reflexivity|]. split; [vm_compute; reflexivity|].
  intros [m [Hagg _]]. discriminate Hagg.
Qed.

(** ** Properties of the rate limiter *)

Lemma Js_lt_Fin (a b : Q) : Js.lt (Fin a) (Fin b) = true <-> (a < b)%Q.
Proof.
  simpl. rewrite negb_true_iff. split.
  - intros H. apply Qnot_le_lt. intros Hle. apply Qle_bool_iff in Hle. congruence.
  - intros H. destruct (Qle_bool b a) eqn:E; [|reflexivity].
    apply Qle_bool_iff in E. exfalso. exact (Qlt_not_le _ _ H E).
Qed.

Lemma Js_lt_Fin_false (a b : Q) : Js.lt (Fin a) (Fin b) = false <-> (b <= a)%Q.
Proof. simpl. rewrite negb_false_iff. apply Qle_bool_iff. Qed.

Lemma Js_le_Fin (a b : Q) : Js.le (Fin a) (Fin b) = true <-> (a <= b)%Q.
Proof. apply Qle_bool_iff. Qed.

Lemma representable_one : F64.representable 1.
Proof. vm_compute. reflexivity. Qed.

Lemma representable_zero : F64.representable 0.
Proof. vm_compute. reflexivity. Qed.

Lemma add_at_least (b t : Q) (c : number) :
  F64.representable b -> (0 <= t)%Q -> at_least b c -> at_least b (F64.add (Fin t) c).
Proof.
  unfold at_least. intros Hb Ht Hc. destruct c as [|c| |]; try discriminate; [|reflexivity].
  apply Js_le_Fin in Hc. cbn [F64.add]. apply round_lower; [lra | exact Hb].
Qed.
Lemma at_least_cases (b : Q) (n : number) :
  at_least b n -> (exists x, n = Fin x /\ (b <= x)%Q) \/ n = PosInf.
Proof.
  unfold at_least. destruct n as [|x| |]; try discriminate.
  - intros H. left. exists x. split; [reflexivity | now apply Js_le_Fin].
  - now right.
Qed.

Lemma round_at_least (b q : Q) :
  F64.representable b -> (b <= q)%Q -> at_least b (F64.round q).
Proof. intros Hb Hq. now apply round_lower. Qed.


Lemma elapsed_in_range (d : Z) :
  0 <= d <= 2 ^ 53 ->
  exists e, F64.div (F64.of_Z d) (Fin 1000) = Fin e /\ (0 <= e)%Q.
Proof.
  intros Hd. rewrite of_Z_exact by lia. cbn [F64.div].
  change (Qeq_bool 1000 0) with false. cbv iota.
  assert (Hq : (0 <= inject_Z d / 1000)%Q).
  { apply Qle_shift_div_l; [reflexivity|]. rewrite Qmult_0_l.
    change 0%Q with (inject_Z 0). rewrite <- Zle_Qle. lia. }
  pose proof (round_lower _ 0 Hq representable_zero) as Hlo.
  assert (Hhi : Js.le (F64.round (inject_Z d / 1000)) (Fin (inject_Z (2 ^ 53))) = true).
  { apply round_upper; [|apply representable_integer; lia].
    apply Qle_shift_div_r; [reflexivity|].
    apply Qle_trans with (inject_Z (2 ^ 53)); [rewrite <- Zle_Qle; lia|].
    vm_compute. discriminate. }
  destruct (F64.round (inject_Z d / 1000)) as [|e| |]; try discriminate.
  exists e. split; [reflexivity | now apply Js_le_Fin].
Qed.

(** The refill of a bucket that holds no debt, written at most 2^53
    milliseconds before the call, is a finite number between zero and the
    capacity. *)
Lemma refill_in_range (rl : RateLimiter) (b : Bucket) (nowMs : Z) :
  (0 <= rps rl)%Q -> (0 <= burst rl)%Q ->
  at_least 0 (tokens b) -> 0 <= nowMs - last b <= 2 ^ 53 ->
  exists x, refill rl b nowMs = Fin x /\ (0 <= x)%Q /\ (x <= burst rl)%Q.
Proof.
  intros Hrps Hburst Htok Hd. unfold refill.
  destruct (elapsed_in_range (nowMs - last b) Hd) as [e [-> He]].
  assert (Hcredit : at_least 0 (F64.mul (Fin e) (Fin (rps rl)))).
  { apply round_at_least; [exact representable_zero|]. now apply Qmult_le_0_compat. }
  assert (Hsum : at_least 0 (F64.add (tokens b) (F64.mul (Fin e) (Fin (rps rl))))).
  { destruct (at_least_cases 0 _ Htok) as [[t [-> Ht]]| ->].
    - apply add_at_least; [exact representable_zero | exact Ht | exact Hcredit].
    - destruct (at_least_cases 0 _ Hcredit) as [[c [-> _]]| ->]; reflexivity. }
  destruct (at_least_cases 0 _ Hsum) as [[s [-> Hs]]| ->]; cbn [Js.min].
  - eexists. split; [reflexivity|]. split; [now apply Q.min_glb | apply Q.le_min_l].
  - eexists. split; [reflexivity|]. split; [exact Hburst | apply Qle_refl].
Qed.

Lemma allow_cases (rl : RateLimiter) (key : string) (nowMs : Z) :
  let b := default (mkBucket (Fin (burst rl)) nowMs) (buckets rl !! key) in
  let t := refill rl b nowMs in
  (Js.lt t (Fin 1) = false /\
   allow rl key nowMs =
     (true, mkLimiter (rps rl) (burst rl)
              (<[key := mkBucket (F64.sub t (Fin 1)) nowMs]> (buckets rl))))
  \/
  (Js.lt t (Fin 1) = true /\
   allow rl key nowMs =
     (false, mkLimiter (rps rl) (burst rl) (<[key := mkBucket t nowMs]> (buckets rl)))).
Proof.
  intros b t. unfold allow. fold b. fold t.
  destruct (Js.lt t (Fin 1)); [right | left]; split; reflexivity.
Qed.

Lemma allow_is_step (rl : RateLimiter) (key : string) (nowMs : Z) :
  allow_step rl key nowMs.
Proof.
  unfold allow_step, elapsed_seconds.
  set (b := default (mkBucket (Fin (burst rl)) nowMs) (buckets rl !! key)).
  change (Js.min (Fin (burst rl))
            (F64.add (tokens b)
               (F64.mul (F64.div (F64.of_Z (nowMs - last b)) (Fin 1000)) (Fin (rps rl)))))
    with (refill rl b nowMs).
  destruct (allow_cases rl key nowMs) as [[Ht ->]|[Ht ->]]; fold b in Ht;
    cbn [buckets rps burst].
  - split; [|split; [apply lookup_insert_eq|split; [|split; reflexivity]]].
    + split; [discriminate | congruence].
    + intros other Hne. now apply lookup_insert_ne.
  - split; [|split; [apply lookup_insert_eq|split; [|split; reflexivity]]].
    + split; [intros _; exact Ht | reflexivity].
    + intros other Hne. now apply lookup_insert_ne.
Qed.

Lemma seconds_plus (a b : Z) : (seconds (a + b) == seconds a + seconds b)%Q.
Proof. unfold seconds. rewrite inject_Z_plus. field. Qed.

Lemma seconds_nonneg (d : Z) : 0 <= d -> (0 <= seconds d)%Q.
Proof.
  intros H. unfold seconds. apply Qle_shift_div_l; [reflexivity|].
  rewrite Qmult_0_l. change 0%Q with (inject_Z 0). now rewrite <- Zle_Qle.
Qed.

Lemma seconds_zero : (seconds 0 == 0)%Q.
Proof. reflexivity. Qed.

Lemma seconds_split (a b c : Z) :
  (seconds (c - a) == seconds (c - b) + seconds (b - a))%Q.
Proof. rewrite <- seconds_plus. now replace (c - b + (b - a)) with (c - a) by lia. Qed.

Lemma half_bit_pos : (0 < half_bit)%Q.
Proof. apply pow2_pos. Qed.

Lemma half_least_pos : (0 < half_least)%Q.
Proof. apply pow2_pos. Qed.

Lemma call_allowance_nonneg (rl : RateLimiter) :
  (0 <= rps rl)%Q -> (0 <= burst rl)%Q -> (0 <= call_allowance rl)%Q.
Proof.
  intros Hr Hb. unfold call_allowance.
  pose proof half_bit_pos. pose proof half_least_pos. nra.
Qed.

(** The elapsed time in seconds, as the code computes it. *)
Lemma elapsed_bound (d : Z) :
  0 <= d <= 2 ^ 53 ->
  exists e, F64.div (F64.of_Z d) (Fin 1000) = Fin e /\ (0 <= e)%Q /\
            (e <= seconds d * (1 + half_bit) + half_least)%Q.
Proof.
  intros Hd. destruct (elapsed_in_range d Hd) as [e [He He0]].
  exists e. split; [exact He|]. split; [exact He0|].
  rewrite of_Z_exact in He by lia. cbn [F64.div] in He.
  change (Qeq_bool 1000 0) with false in He. cbv iota in He.
  pose proof (seconds_nonneg d ltac:(lia)) as Hs. unfold seconds in *.
  pose proof (round_error _ e Hs He) as Hr. lra.
Qed.

Lemma min_capped (cap : Q) (s : number) :
  (0 <= cap)%Q -> at_least 0 s ->
  exists x, Js.min (Fin cap) s = Fin x /\ (0 <= x)%Q /\ (x <= cap)%Q /\
            (forall y, s = Fin y -> (x <= y)%Q).
Proof.
  intros Hcap Hs. destruct (at_least_cases 0 s Hs) as [[y [-> Hy]]| ->]; cbn [Js.min].
  - eexists. split; [reflexivity|]. split; [now apply Q.min_glb|].
    split; [apply Q.le_min_l|]. intros y' Hy'. injection Hy' as <-. apply Q.le_min_r.
  - exists cap. split; [reflexivity|]. split; [exact Hcap|]. split; [apply Qle_refl|].
    intros y Hy. discriminate Hy.
Qed.

Lemma round_finite_below (q b : Q) :
  (0 <= q)%Q -> (q <= b)%Q -> F64.representable b ->
  exists r, F64.round q = Fin r /\ (0 <= r)%Q /\ (r <= b)%Q /\
            (r <= q + (q * half_bit + half_least))%Q.
Proof.
  intros Hq Hqb Hb.
  pose proof (round_upper q b Hqb Hb) as Hu.
  pose proof (round_lower q 0 Hq representable_zero) as Hl.
  destruct (F64.round q) as [|r| |] eqn:E; try discriminate.
  exists r. split; [reflexivity|]. split; [now apply Js_le_Fin|]. split; [now apply Js_le_Fin|].
  exact (round_error q r Hq E).
Qed.

(** The refill of a bucket that holds [T] tokens. *)
Lemma refill_bound (rl : RateLimiter) (b : Bucket) (nowMs : Z) (T : Q) :
  (0 <= rps rl)%Q -> (0 <= burst rl)%Q -> F64.representable (burst rl) ->
  tokens b = Fin T -> (0 <= T)%Q -> 0 <= nowMs - last b <= 2 ^ 53 ->
  exists x, refill rl b nowMs = Fin x /\ (0 <= x)%Q /\ (x <= burst rl)%Q /\
    (x <= T + rps rl * seconds (nowMs - last b) * (1 + half_bit)
         + (2 * (burst rl * half_bit + half_least) + rps rl * half_least))%Q.
Proof.
  intros Hrps Hburst Hrep Htok HT Hd. unfold refill.
  destruct (elapsed_bound (nowMs - last b) Hd) as [e [-> [He0 He]]]. rewrite Htok.
  pose proof half_bit_pos as Hhb. pose proof half_least_pos as Hhl.
  pose proof (seconds_nonneg (nowMs - last b) ltac:(lia)) as Hs.
  set (d := seconds (nowMs - last b)) in *.
  assert (Hc0 : (0 <= e * rps rl)%Q) by now apply Qmult_le_0_compat.
  assert (Hcs : (e * rps rl <= rps rl * d * (1 + half_bit) + rps rl * half_least)%Q) by nra.
  assert (Hcredit : at_least 0 (F64.mul (Fin e) (Fin (rps rl)))).
  { apply round_at_least; [exact representable_zero | exact Hc0]. }
  assert (Hsum : at_least 0 (F64.add (Fin T) (F64.mul (Fin e) (Fin (rps rl))))).
  { apply add_at_least; [exact representable_zero | exact HT | exact Hcredit]. }
  destruct (min_capped (burst rl) _ Hburst Hsum) as [x [Hx [Hx0 [Hx1 Hx2]]]].
  exists x. split; [exact Hx|]. split; [exact Hx0|]. split; [exact Hx1|].
  destruct (Qlt_le_dec (burst rl) (e * rps rl)) as [Hbig|Hsmall]; [nra|].
  cbn [F64.mul] in Hx2.
  destruct (round_finite_below (e * rps rl) (burst rl) Hc0 Hsmall Hrep)
    as [c [Hc [Hc0' [Hc1 Hc2]]]].
  rewrite Hc in Hx2. cbn [F64.add] in Hx2.
  assert (Hc3 : (c <= e * rps rl + (burst rl * half_bit + half_least))%Q) by nra.
  destruct (Qlt_le_dec (burst rl) (T + c)) as [Hbig|Hsmall2]; [nra|].
  destruct (round_finite_below (T + c) (burst rl) ltac:(lra) Hsmall2 Hrep)
    as [y [Hy [Hy0 [Hy1 Hy2]]]].
  specialize (Hx2 y Hy).
  assert (Hy3 : (y <= T + c + (burst rl * half_bit + half_least))%Q) by nra.
  lra.
Qed.

(** Taking one token away. *)
Lemma sub_one_bound (cap x : Q) :
  (1 <= x)%Q -> (x <= cap)%Q -> F64.representable cap ->
  exists y, F64.sub (Fin x) (Fin 1) = Fin y /\ (0 <= y)%Q /\
            (y <= x - 1 + (cap * half_bit + half_least))%Q.
Proof.
  intros Hx Hcap Hrep. unfold F64.sub, F64.opp, F64.add.
  destruct (round_finite_below (x + - 1) cap ltac:(lra) ltac:(lra) Hrep)
    as [y [Hy [Hy0 [Hy1 Hy2]]]].
  exists y. split; [exact Hy|]. split; [exact Hy0|].
  pose proof half_bit_pos. nra.
Qed.

Lemma same_value_inv (n : number) (q : Q) :
  same_value n q = true -> exists x, n = Fin x /\ (x == q)%Q.
Proof.
  destruct n as [|x| |]; simpl; try discriminate.
  intros H. exists x. split; [reflexivity | now apply Qeq_bool_iff].
Qed.

(** What an exact call computes. *)
Lemma exact_call_inv (rl : RateLimiter) (key : string) (nowMs : Z) :
  exact_call rl key nowMs = true ->
  let b := default (mkBucket (Fin (burst rl)) nowMs) (buckets rl !! key) in
  exists t x,
    tokens b = Fin t /\ refill rl b nowMs = Fin x /\
    (x == Qmin (burst rl) (t + seconds (nowMs - last b) * rps rl))%Q /\
    ((1 <= x)%Q -> exists y, F64.sub (Fin x) (Fin 1) = Fin y /\ (y == x - 1)%Q).
Proof.
  unfold exact_call. cbv zeta. intros H.
  set (b := default (mkBucket (Fin (burst rl)) nowMs) (buckets rl !! key)) in *.
  destruct (tokens b) as [|t| |] eqn:Et; try discriminate.
  apply andb_true_iff in H. destruct H as [H1 H2].
  apply same_value_inv in H1. destruct H1 as [x [Hx Hxe]].
  exists t, x. split; [reflexivity|]. split; [exact Hx|]. split; [exact Hxe|].
  intros Hone. rewrite Hx in H2. apply orb_true_iff in H2. destruct H2 as [H2|H2].
  - apply negb_true_iff in H2. exfalso.
    assert (Hle : Qle_bool 1 (Qmin (burst rl) (t + seconds (nowMs - last b) * rps rl)) = true).
    { apply Qle_bool_iff. now rewrite <- Hxe. }
    congruence.
  - apply same_value_inv in H2. destruct H2 as [y [Hy Hye]].
    exists y. split; [exact Hy|]. now rewrite Hye, Hxe.
Qed.

Lemma window_step (rl : RateLimiter) (key k : string) (t0 t1 acc tcur t : Z) :
  (0 <= rps rl)%Q -> (0 <= burst rl)%Q ->
  window_inv rl key t0 t1 acc tcur -> tcur <= t -> t <= t1 ->
  (k = key -> exact_call rl k t = true) ->
  let '(ok, rl') := allow rl k t in
  rps rl' = rps rl /\ burst rl' = burst rl /\
  window_inv rl' key t0 t1 (acc + (if String.eqb k key && ok then 1 else 0)) t.
Proof.
  intros Hrps Hburst [Ht0 Hinv] Htcur Ht1 Hexact.
  pose proof (allow_is_step rl k t) as Hstep. unfold allow_step, elapsed_seconds in Hstep.
  set (b := default (mkBucket (Fin (burst rl)) t) (buckets rl !! k)) in *.
  change (Js.min (Fin (burst rl))
            (F64.add (tokens b)
               (F64.mul (F64.div (F64.of_Z (t - last b)) (Fin 1000)) (Fin (rps rl)))))
    with (refill rl b t) in Hstep.
  destruct (allow rl k t) as [ok rl'].
  destruct Hstep as [Hok [Hkey [Hother [Hr Hb]]]].
  split; [exact Hr|]. split; [exact Hb|].
  unfold window_inv. rewrite Hr, Hb. split; [lia|].
  destruct (String.eqb_spec k key) as [->|Hne].
  2:{ rewrite (Hother key) by congruence. simpl. rewrite Z.add_0_r.
      destruct (buckets rl !! key) as [b0|]; [|exact Hinv].
      destruct Hinv as [Htok [Hlast Hcase]]. split; [exact Htok|]. split; [lia|exact Hcase]. }
  specialize (Hexact eq_refl). apply exact_call_inv in Hexact. cbv zeta in Hexact.
  fold b in Hexact. destruct Hexact as [tk [r [Htk [Hrf [Hre Hsub]]]]].
  rewrite Hrf in Hok, Hkey. rewrite Hkey. cbn [tokens last]. simpl andb.
  assert (Hb0 : (0 <= tk)%Q /\ last b <= t).
  { unfold b in Htk |- *. destruct (buckets rl !! key) as [b0|]; simpl in *.
    - destruct Hinv as [Htok [Hlast _]]. rewrite Htk in Htok.
      split; [now apply Js_le_Fin | lia].
    - injection Htk as <-. split; [exact Hburst | lia]. }
  destruct Hb0 as [Hb0 Hb1].
  pose proof (seconds_nonneg (t - last b) ltac:(lia)) as Hs0.
  pose proof (Qmult_le_0_compat _ _ Hs0 Hrps) as Hp0.
  assert (Hr0 : (0 <= r)%Q) by (rewrite Hre; apply Q.min_glb; [exact Hburst | lra]).
  assert (Hr1 : (r <= burst rl)%Q) by (rewrite Hre; apply Q.le_min_l).
  assert (Hr2 : (r <= tk + rps rl * seconds (t - last b))%Q).
  { rewrite Hre, (Qmult_comm (rps rl)). apply Q.le_min_r. }
  assert (Hadm : ok = true -> (1 <= r)%Q).
  { intros ->. destruct (Qlt_le_dec r 1) as [Hlt|Hle]; [|exact Hle].
    apply Js_lt_Fin in Hlt. apply Hok in Hlt. discriminate. }
  pose proof (seconds_nonneg (t1 - t) ltac:(lia)) as Hs1.
  pose proof (Qmult_le_0_compat _ _ Hrps Hs1) as Hp1.
  assert (Hnew : exists q, (if ok then F64.sub (Fin r) (Fin 1) else Fin r) = Fin q /\
                           (q == if ok then r - 1 else r)%Q).
  { destruct ok; [apply Hsub, Hadm; reflexivity | exists r; split; reflexivity]. }
  destruct Hnew as [q [-> Hq]].
  assert (Hq0 : (0 <= q)%Q).
  { rewrite Hq. destruct ok; [specialize (Hadm eq_refl); lra | exact Hr0]. }
  split; [now apply Js_le_Fin|]. split; [lia|]. right. split; [lia|].
  exists q. split; [reflexivity|].
  assert (Hsum : (inject_Z (acc + (if ok then 1 else 0)) + q == inject_Z acc + r)%Q).
  { rewrite Hq, inject_Z_plus. destruct ok; simpl; ring. }
  rewrite Hsum.
  assert (Hfresh : (inject_Z 0 + r + rps rl * seconds (t1 - t)
                    <= burst rl + rps rl * seconds (t1 - t0))%Q).
  { pose proof (seconds_split t0 t t1) as Hsp.
    pose proof (seconds_nonneg (t - t0) ltac:(lia)) as Hs2.
    pose proof (Qmult_le_0_compat _ _ Hrps Hs2) as Hp2.
    rewrite Hsp, Qmult_plus_distr_r. change (inject_Z 0) with 0%Q. lra. }
  unfold b in Hr2, Htk.
  destruct (buckets rl !! key) as [b0|].
  - destruct Hinv as [Htok [Hlast [->|[Hin [q0 [Hq0e Hle]]]]]]; [exact Hfresh|].
    simpl in Hr2, Htk. assert (q0 = tk) by congruence. subst q0.
    pose proof (seconds_split (last b0) t t1) as Hsp.
    rewrite Hsp, Qmult_plus_distr_r in Hle. lra.
  - subst acc. exact Hfresh.
Qed.

Lemma window_run (key : string) (t0 t1 : Z) (calls : list (string * Z)) :
  forall (rl : RateLimiter) (acc tcur : Z),
    (0 <= rps rl)%Q -> (0 <= burst rl)%Q ->
    window_inv rl key t0 t1 acc tcur -> in_window tcur t1 calls ->
    exact_run rl key calls = true ->
    (inject_Z (acc + admitted key calls (fst (allow_all rl calls)))
       <= burst rl + rps rl * seconds (t1 - t0))%Q.
Proof.
  induction calls as [|[k t] calls IH]; intros rl acc tcur Hrps Hburst Hinv Hwin Hex.
  - simpl in *. rewrite Z.add_0_r. destruct Hinv as [Ht0 Hinv].
    pose proof (seconds_nonneg (t1 - t0) ltac:(lia)) as Hs.
    pose proof (Qmult_le_0_compat _ _ Hrps Hs) as Hp.
    destruct (buckets rl !! key) as [b|].
    + destruct Hinv as [Htok [Hlast [->|[Hin [q [Hq Hle]]]]]].
      * change (inject_Z 0) with 0%Q. lra.
      * rewrite Hq in Htok. apply Js_le_Fin in Htok.
        pose proof (seconds_nonneg (t1 - last b) ltac:(lia)) as Hs'.
        pose proof (Qmult_le_0_compat _ _ Hrps Hs'). lra.
    + subst acc. change (inject_Z 0) with 0%Q. lra.
  - destruct Hwin as [Htcur Hwin].
    assert (Ht1 : t <= t1).
    { clear -Hwin. revert t Hwin. induction calls as [|[k' t'] calls IH]; simpl; intros t H.
      - exact H.
      - destruct H as [H1 H2]. specialize (IH _ H2). lia. }
    cbn [exact_run] in Hex. apply andb_true_iff in Hex. destruct Hex as [Hex1 Hex2].
    assert (Hexact : k = key -> exact_call rl k t = true).
    { intros ->. rewrite String.eqb_refl in Hex1. exact Hex1. }
    pose proof (window_step rl key k t0 t1 acc tcur t Hrps Hburst Hinv Htcur Ht1 Hexact)
      as Hstep.
    simpl. destruct (allow rl k t) as [ok rl'].
    destruct Hstep as [Hr [Hb Hinv']]. cbn [snd] in Hex2.
    specialize (IH rl' _ t ltac:(now rewrite Hr) ltac:(now rewrite Hb) Hinv' Hwin Hex2).
    destruct (allow_all rl' calls) as [oks rl''] eqn:Hall.
    simpl in *. rewrite Hr, Hb in IH. now rewrite Z.add_assoc.
Qed.

(** When no operation of the calls rounds, the bound of the prose holds
    as it stands. *)
Lemma exact_run_meets_the_bound (rl : RateLimiter) (key : string) (t0 t1 : Z)
    (calls : list (string * Z)) :
  (0 <= rps rl)%Q -> (0 <= burst rl)%Q ->
  bucket_settled rl key t0 ->
  in_window t0 t1 calls ->
  exact_run rl key calls = true ->
  (inject_Z (admitted key calls (fst (allow_all rl calls)))
     <= burst rl + rps rl * seconds (t1 - t0))%Q.
Proof.
  intros Hrps Hburst Hset Hwin Hex.
  apply (window_run key t0 t1 calls rl 0 t0 Hrps Hburst); [|exact Hwin|exact Hex].
  split; [lia|]. unfold bucket_settled in Hset.
  destruct (buckets rl !! key) as [b|]; [|reflexivity].
  destruct Hset as [Htok Hlast]. split; [exact Htok|]. split; [exact Hlast|]. now left.
Qed.

(** *** The window bound under rounding *)

Lemma calls_for_nonneg (key : string) (calls : list (string * Z)) : 0 <= calls_for key calls.
Proof.
  induction calls as [|[k t] calls IH]; simpl; [lia|].
  destruct (String.eqb k key); lia.
Qed.

Lemma rounded_step (rl : RateLimiter) (key k : string) (t0 t1 acc n tcur t : Z) :
  (0 <= rps rl)%Q -> (0 <= burst rl)%Q -> F64.representable (burst rl) ->
  t1 - t0 <= 2 ^ 53 ->
  rounded_inv rl key t0 t1 acc n tcur -> tcur <= t -> t <= t1 ->
  let '(ok, rl') := allow rl k t in
  rps rl' = rps rl /\ burst rl' = burst rl /\
  rounded_inv rl' key t0 t1 (acc + (if String.eqb k key && ok then 1 else 0))
              (n + (if String.eqb k key then 1 else 0)) t.
Proof.
  intros Hrps Hburst Hrep Hspan [Ht0 [Hn Hinv]] Htcur Ht1.
  pose proof (allow_cases rl k t) as Hcases. cbv zeta in Hcases.
  set (b := default (mkBucket (Fin (burst rl)) t) (buckets rl !! k)) in *.
  pose proof half_bit_pos as Hhb. pose proof half_least_pos as Hhl.
  pose proof (call_allowance_nonneg rl Hrps Hburst) as Hca.
  destruct (String.eqb_spec k key) as [->|Hne].
  2:{ assert (Hsame : forall ok rl', allow rl k t = (ok, rl') ->
                 rps rl' = rps rl /\ burst rl' = burst rl /\
                 buckets rl' !! key = buckets rl !! key).
      { intros ok rl' Hal.
        destruct Hcases as [[_ H]|[_ H]]; rewrite H in Hal; injection Hal as <- <-;
          cbn [rps burst buckets]; rewrite lookup_insert_ne by congruence; auto. }
      destruct (allow rl k t) as [ok rl']. destruct (Hsame ok rl' eq_refl) as [Hr [Hb Hbk]].
      split; [exact Hr|]. split; [exact Hb|].
      unfold rounded_inv, call_allowance. rewrite Hr, Hb, Hbk. cbn [andb]. rewrite !Z.add_0_r.
      split; [lia|]. split; [exact Hn|].
      destruct (buckets rl !! key) as [b0|]; [|exact Hinv].
      destruct Hinv as [Htok [Hlast [Hfar Hcase]]].
      split; [exact Htok|]. split; [lia|]. split; [exact Hfar | exact Hcase]. }
  assert (Hb : at_least 0 (tokens b) /\ 0 <= t - last b <= 2 ^ 53).
  { unfold b. destruct (buckets rl !! key) as [b0|]; simpl.
    - destruct Hinv as [Htok [Hlast [Hfar _]]]. split; [exact Htok | lia].
    - split; [now apply Js_le_Fin|]. rewrite Z.sub_diag. split; [lia | vm_compute; discriminate]. }
  destruct Hb as [Hb0 Hbd].
  destruct (refill_in_range rl b t Hrps Hburst Hb0 Hbd) as [x [Hx [Hx0 Hx1]]].
  assert (Hgrow : forall T, tokens b = Fin T -> (0 <= T)%Q ->
            (x <= T + rps rl * seconds (t - last b) * (1 + half_bit)
                 + (2 * (burst rl * half_bit + half_least) + rps rl * half_least))%Q).
  { intros T HT HT0.
    destruct (refill_bound rl b t T Hrps Hburst Hrep HT HT0 Hbd) as [x' [Hx' [_ [_ H]]]].
    assert (x' = x) by congruence. now subst x'. }
  (* the bucket after the call *)
  assert (Hafter : forall ok rl', allow rl key t = (ok, rl') ->
            rps rl' = rps rl /\ burst rl' = burst rl /\
            exists y, buckets rl' !! key = Some (mkBucket (Fin y) t) /\ (0 <= y)%Q /\
              (inject_Z (if ok then 1 else 0) + y
                 <= x + (burst rl * half_bit + half_least))%Q).
  { intros ok rl' Hal.
    pose proof (Qmult_le_0_compat _ _ Hburst (Qlt_le_weak _ _ Hhb)) as Hbh.
    destruct Hcases as [[Hlt H]|[Hlt H]]; rewrite H in Hal; injection Hal as <- <-;
      cbn [rps burst buckets]; rewrite lookup_insert_eq; (split; [reflexivity|]);
      (split; [reflexivity|]); rewrite Hx in Hlt |- *.
    - apply Js_lt_Fin_false in Hlt.
      destruct (sub_one_bound (burst rl) x Hlt Hx1 Hrep) as [y [-> [Hy0 Hy1]]].
      exists y. split; [reflexivity|]. split; [exact Hy0|].
      change (inject_Z 1) with 1%Q. lra.
    - exists x. split; [reflexivity|]. split; [exact Hx0|].
      change (inject_Z 0) with 0%Q. lra. }
  clear Hcases.
  destruct (allow rl key t) as [ok rl']. destruct (Hafter ok rl' eq_refl)
    as [Hr [Hbu [y [Hbk [Hy0 Hy1]]]]].
  split; [exact Hr|]. split; [exact Hbu|].
  unfold rounded_inv, call_allowance. rewrite Hr, Hbu, Hbk. cbn [andb tokens last].
  fold (call_allowance rl).
  split; [lia|]. split; [lia|]. split; [now apply Js_le_Fin|]. split; [lia|].
  split; [lia|]. right. split; [lia|]. exists y. split; [reflexivity|].
  rewrite !inject_Z_plus. change (inject_Z 1) with 1%Q.
  pose proof (seconds_nonneg (t - t0) ltac:(lia)) as Hs0.
  assert (Hfresh : (inject_Z (if ok then 1 else 0) + y
                    <= burst rl + rps rl * seconds (t - t0) * (1 + half_bit)
                       + call_allowance rl)%Q).
  { pose proof (Qmult_le_0_compat _ _ Hburst (Qlt_le_weak _ _ Hhb)) as P1.
    pose proof (Qmult_le_0_compat _ _ Hrps (Qlt_le_weak _ _ Hhl)) as P2.
    pose proof (Qmult_le_0_compat _ _ Hrps Hs0) as P3.
    pose proof (Qmult_le_0_compat _ _ P3 (Qlt_le_weak _ _ Hhb)) as P4.
    unfold call_allowance. lra. }
  assert (Hn' : (0 <= inject_Z n)%Q).
  { change 0%Q with (inject_Z 0). now rewrite <- Zle_Qle. }
  unfold b in Hgrow.
  pose proof (Qmult_le_0_compat _ _ Hn' Hca) as HnA.
  destruct (buckets rl !! key) as [b0|].
  - destruct Hinv as [Htok [Hlast [Hfar [->|[Hin [q0 [Hq0e Hle]]]]]]].
    + change (inject_Z 0) with 0%Q. lra.
    + change (default _ (Some b0)) with b0 in Hgrow. rewrite Hq0e in Htok. apply Js_le_Fin in Htok.
      specialize (Hgrow q0 Hq0e Htok).
      rewrite (seconds_split t0 (last b0) t).
      unfold call_allowance in *. lra.
  - subst acc. change (inject_Z 0) with 0%Q. lra.
Qed.

Lemma in_window_last (tcur t1 : Z) (calls : list (string * Z)) :
  in_window tcur t1 calls -> tcur <= t1.
Proof.
  revert tcur. induction calls as [|[k t] calls IH]; simpl; intros tcur H.
  - exact H.
  - destruct H as [H1 H2]. specialize (IH _ H2). lia.
Qed.

Lemma rounded_run (key : string) (t0 t1 : Z) (calls : list (string * Z)) :
  forall (rl : RateLimiter) (acc n tcur : Z),
    (0 <= rps rl)%Q -> (0 <= burst rl)%Q -> F64.representable (burst rl) ->
    t1 - t0 <= 2 ^ 53 ->
    rounded_inv rl key t0 t1 acc n tcur -> in_window tcur t1 calls ->
    (inject_Z (acc + admitted key calls (fst (allow_all rl calls)))
       <= burst rl + rps rl * seconds (t1 - t0) * (1 + half_bit)
          + inject_Z (n + calls_for key calls) * call_allowance rl)%Q.
Proof.
  induction calls as [|[k t] calls IH]; intros rl acc n tcur Hrps Hburst Hrep Hspan Hinv Hwin.
  - simpl in *. rewrite !Z.add_0_r. destruct Hinv as [Ht0 [Hn Hinv]].
    pose proof (seconds_nonneg (t1 - t0) ltac:(lia)) as Hs.
    pose proof half_bit_pos as Hhb.
    pose proof (call_allowance_nonneg rl Hrps Hburst) as Hca.
    assert (Hn' : (0 <= inject_Z n)%Q).
    { change 0%Q with (inject_Z 0). now rewrite <- Zle_Qle. }
    pose proof (Qmult_le_0_compat _ _ Hn' Hca) as HnA.
    pose proof (Qmult_le_0_compat _ _ Hrps Hs) as P1.
    pose proof (Qmult_le_0_compat _ _ P1 (Qlt_le_weak _ _ Hhb)) as P2.
    destruct (buckets rl !! key) as [b|].
    + destruct Hinv as [Htok [Hlast [Hfar [->|[Hin [q [Hq Hle]]]]]]].
      * change (inject_Z 0) with 0%Q. lra.
      * rewrite Hq in Htok. apply Js_le_Fin in Htok.
        pose proof (seconds_nonneg (t1 - last b) ltac:(lia)) as Hs'.
        pose proof (Qmult_le_0_compat _ _ Hrps Hs') as P3.
        pose proof (Qmult_le_0_compat _ _ P3 (Qlt_le_weak _ _ Hhb)) as P4.
        rewrite (seconds_split t0 (last b) t1). lra.
    + subst acc. change (inject_Z 0) with 0%Q. lra.
  - destruct Hwin as [Htcur Hwin].
    pose proof (in_window_last _ _ _ Hwin) as Ht1.
    pose proof (rounded_step rl key k t0 t1 acc n tcur t Hrps Hburst Hrep Hspan Hinv Htcur Ht1)
      as Hstep.
    simpl. destruct (allow rl k t) as [ok rl'].
    destruct Hstep as [Hr [Hb Hinv']].
    specialize (IH rl' _ _ t ltac:(now rewrite Hr) ltac:(now rewrite Hb)
                   ltac:(now rewrite Hb) Hspan Hinv' Hwin).
    destruct (allow_all rl' calls) as [oks rl''] eqn:Hall.
    simpl in *. rewrite Hr, Hb in IH. unfold call_allowance in *. rewrite Hr, Hb in IH.
    now rewrite !Z.add_assoc.
Qed.

(** C5, as the code has it: every call of [allow] refills the bucket to
    [min(burst, tokens + elapsed seconds * rps)], every operation giving
    the nearest double, denies exactly when that is below one, takes one
    token away only when it admits, and leaves the other keys alone; and
    for a refill rate and a capacity that are not negative, the calls made
    in chronological order inside a window [[t0, t1]] admit at most
    [burst + rps * W] requests of one key, [W] being the window's length
    in seconds, plus what the roundings can add: [rps * W * 2^-53] for
    the elapsed times, and for each of the [n] calls made for the key
    [3 * (burst * 2^-53 + 2^-1075) + rps * 2^-1075]. The capacity is a
    double, and the clock shows whole milliseconds from 0 to 2^53. *)
Theorem token_bucket_bound (rl : RateLimiter) (key : string) (t0 t1 : Z)
    (calls : list (string * Z)) :
  (0 <= rps rl)%Q -> (0 <= burst rl)%Q -> F64.representable (burst rl) ->
  bucket_on_clock rl key t0 -> t1 <= 2 ^ 53 ->
  in_window t0 t1 calls ->
  token_bucket rl key t0 t1 calls.
Proof.
  intros Hrps Hburst Hrep Hset Ht1 Hwin. split.
  - intros rl' key' nowMs. apply allow_is_step.
  - assert (Ht0 : 0 <= t0).
    { unfold bucket_on_clock in Hset. destruct (buckets rl !! key); [lia | exact Hset]. }
    assert (Hinv : rounded_inv rl key t0 t1 0 0 t0).
    { split; [lia|]. split; [lia|]. unfold bucket_on_clock in Hset.
      destruct (buckets rl !! key) as [b|]; [|reflexivity].
      destruct Hset as [Htok Hlast]. split; [exact Htok|]. split; [lia|]. split; [lia|].
      now left. }
    pose proof (rounded_run key t0 t1 calls rl 0 0 t0 Hrps Hburst Hrep ltac:(lia) Hinv Hwin)
      as Hrun.
    rewrite !Z.add_0_l in Hrun. unfold rounding_allowance. lra.
Qed.

Example fifteen_calls_admit_ten :
  fst (allow_all (new_RateLimiter 3 10) burst_of_calls)
  = repeat true 10 ++ repeat false 5.
Proof. vm_compute. reflexivity. Qed.

Lemma token_bucket_bound_witness :
  ((0 <= rps (new_RateLimiter 3 10))%Q /\ (0 <= burst (new_RateLimiter 3 10))%Q /\
   F64.representable (burst (new_RateLimiter 3 10)) /\
   bucket_on_clock (new_RateLimiter 3 10) "ip:10.0.0.1" 5000 /\
   6000 <= 2 ^ 53 /\
   in_window 5000 6000 paced_calls) /\
  token_bucket (new_RateLimiter 3 10) "ip:10.0.0.1" 5000 6000 paced_calls.
Proof.
  assert (H1 : (0 <= rps (new_RateLimiter 3 10))%Q) by (simpl; lra).
  assert (H2 : (0 <= burst (new_RateLimiter 3 10))%Q) by (simpl; lra).
  assert (H3 : F64.representable (burst (new_RateLimiter 3 10))) by (vm_compute; reflexivity).
  assert (H4 : bucket_on_clock (new_RateLimiter 3 10) "ip:10.0.0.1" 5000)
    by (vm_compute; discriminate).
  assert (H5 : 6000 <= 2 ^ 53) by (vm_compute; discriminate).
  assert (H6 : in_window 5000 6000 paced_calls) by (simpl; lia).
  split; [tauto|].
  exact (token_bucket_bound (new_RateLimiter 3 10) "ip:10.0.0.1" 5000 6000
           paced_calls H1 H2 H3 H4 H5 H6).
Defined.

(** C5 as worded fails: with a capacity of one token and a refill rate of
    a third of a token per second (the double nearest one third, which is
    below it), a call at time 0 and a call three seconds later are both
    admitted, two admissions in a window where [burst + rps * W] is below
    two: three times the rate, a number that is no double, rounds up to
    one. *)
Lemma rounding_admits_beyond_the_bound :
  (0 <= rps slow_limiter)%Q /\ (0 <= burst slow_limiter)%Q /\
  bucket_settled slow_limiter "ip:10.0.0.1" 0 /\
  in_window 0 3000 two_calls /\
  fst (allow_all slow_limiter two_calls) = [true; true] /\
  ~ (inject_Z (admitted "ip:10.0.0.1" two_calls (fst (allow_all slow_limiter two_calls)))
       <= burst slow_limiter + rps slow_limiter * seconds (3000 - 0))%Q.
Proof.
  split; [vm_compute; discriminate|]. split; [vm_compute; discriminate|].
  split; [exact I|]. split; [simpl; lia|].
  split; [vm_compute; reflexivity|].
  vm_compute. intros H. apply H. reflexivity.
Qed.

(** ** Properties of the event store *)

Lemma storeEvent_most_recent (cfg : Config) (e : NostrEvent) (st : list NostrEvent) :
  0 <= MAX_STORED_EVENTS cfg ->
  storeEvent cfg e st = most_recent (Z.to_nat (MAX_STORED_EVENTS cfg)) (st ++ [e]).
Proof.
  intros Hcap. unfold storeEvent, most_recent.
  destruct (Z.gtb_spec (Z.of_nat (length (st ++ [e]))) (MAX_STORED_EVENTS cfg)) as [Hgt|Hle].
  - f_equal. lia.
  - replace (length (st ++ [e]) - Z.to_nat (MAX_STORED_EVENTS cfg))%nat with 0%nat by lia.
    reflexivity.
Qed.

Lemma most_recent_app {A} (n : nat) (l l' : list A) :
  most_recent n (most_recent n l ++ l') = most_recent n (l ++ l').
Proof.
  unfold most_recent.
  destruct (Nat.le_gt_cases (length l) n) as [Hle|Hgt].
  - replace (length l - n)%nat with 0%nat by lia. reflexivity.
  - rewrite length_app, length_skipn.
    replace (skipn (length l - n) l ++ l') with (skipn (length l - n) (l ++ l')).
    2:{ rewrite skipn_app. replace (length l - n - length l)%nat with 0%nat by lia.
        reflexivity. }
    rewrite skipn_skipn, length_app. f_equal. lia.
Qed.

Lemma most_recent_length {A} (n : nat) (l : list A) :
  (length (most_recent n l) <= n)%nat.
Proof. unfold most_recent. rewrite length_skipn. lia. Qed.

Lemma most_recent_short {A} (n : nat) (l : list A) :
  (length l <= n)%nat -> most_recent n l = l.
Proof.
  intros H. unfold most_recent. now replace (length l - n)%nat with 0%nat by lia.
Qed.

Lemma store_all_most_recent (cfg : Config) (arrivals st : list NostrEvent) :
  0 <= MAX_STORED_EVENTS cfg ->
  (length st <= Z.to_nat (MAX_STORED_EVENTS cfg))%nat ->
  store_all cfg st arrivals
  = most_recent (Z.to_nat (MAX_STORED_EVENTS cfg)) (st ++ arrivals).
Proof.
  intros Hcap. revert st. induction arrivals as [|e arrivals IH]; intros st Hst.
  - simpl. rewrite app_nil_r. symmetry. now apply most_recent_short.
  - unfold store_all in *. simpl.
    rewrite storeEvent_most_recent by exact Hcap.
    rewrite IH by apply most_recent_length.
    rewrite most_recent_app. now rewrite <- app_assoc.
Qed.

(** C6: the store only grows at its tail and forgets at its head. Once
    more than MAX_STORED_EVENTS events have been stored, it holds exactly
    that many: the most recent ones, in arrival order. *)
Theorem store_fifo_bounded (cfg : Config) (arrivals : list NostrEvent) :
  0 <= MAX_STORED_EVENTS cfg ->
  Z.of_nat (length arrivals) > MAX_STORED_EVENTS cfg ->
  fifo_bounded cfg arrivals.
Proof.
  intros Hcap Hmore. unfold fifo_bounded.
  assert (Heq : store_all cfg [] arrivals
                = most_recent (Z.to_nat (MAX_STORED_EVENTS cfg)) arrivals).
  { rewrite store_all_most_recent by (simpl; lia). reflexivity. }
  rewrite Heq. split; [reflexivity|]. split.
  - unfold most_recent. rewrite length_skipn. lia.
  - exists (firstn (length arrivals - Z.to_nat (MAX_STORED_EVENTS cfg)) arrivals).
    unfold most_recent. now rewrite firstn_skipn.
Qed.

Lemma store_fifo_bounded_witness :
  (0 <= MAX_STORED_EVENTS two_slot_config /\
   Z.of_nat (length [note "a" 1; note "b" 2; note "c" 3]) > MAX_STORED_EVENTS two_slot_config) /\
  fifo_bounded two_slot_config [note "a" 1; note "b" 2; note "c" 3].
Proof.
  assert (H1 : 0 <= MAX_STORED_EVENTS two_slot_config) by (simpl; lia).
  assert (H2 : Z.of_nat (length [note "a" 1; note "b" 2; note "c" 3])
               > MAX_STORED_EVENTS two_slot_config) by (simpl; lia).
  split; [tauto|].
  exact (store_fifo_bounded two_slot_config [note "a" 1; note "b" 2; note "c" 3] H1 H2).
Defined.

Example three_into_two :
  store_all two_slot_config [] [note "a" 1; note "b" 2; note "c" 3]
  = [note "b" 2; note "c" 3].
Proof. reflexivity. Qed.

(** ** Properties of the backfill query *)

Lemma collect_spec (f : NostrFilter) (lim : Z) (walk matched : list NostrEvent) :
  collect f lim walk matched
  = matched ++ firstn (Z.to_nat (lim - Z.of_nat (length matched)))
                      (List.filter (fun e => matchFilter e f) walk).
Proof.
  revert matched. induction walk as [|e walk IH]; intros matched; simpl.
  - now rewrite firstn_nil, app_nil_r.
  - destruct (Z.ltb_spec (Z.of_nat (length matched)) lim) as [Hlt|Hge].
    + rewrite IH. destruct (matchFilter e f).
      * rewrite length_app. simpl length. rewrite <- app_assoc. f_equal.
        replace (Z.to_nat (lim - Z.of_nat (length matched)))
          with (S (Z.to_nat (lim - Z.of_nat (length matched + 1)))) by lia.
        reflexivity.
      * reflexivity.
    + replace (Z.to_nat (lim - Z.of_nat (length matched))) with 0%nat by lia.
      simpl. now rewrite app_nil_r.
Qed.

Lemma collect_backfill (events : list NostrEvent) (f : NostrFilter) :
  collect f (filter_limit f) (rev events) [] = backfill events f.
Proof.
  rewrite collect_spec. simpl. unfold backfill, filter_limit.
  now rewrite Z.sub_0_r.
Qed.

Lemma queryEvents_from (events : list NostrEvent) (filters : list NostrFilter)
    (out : list NostrEvent) :
  fold_left (fun out f => out ++ collect f (filter_limit f) (rev events) []) filters out
  = out ++ flat_map (backfill events) filters.
Proof.
  revert out. induction filters as [|f filters IH]; intros out; simpl.
  - now rewrite app_nil_r.
  - rewrite IH, collect_backfill. now rewrite <- app_assoc.
Qed.

Lemma queryEvents_backfill (events : list NostrEvent) (filters : list NostrFilter) :
  queryEvents events filters = flat_map (backfill events) filters.
Proof. unfold queryEvents. now rewrite queryEvents_from. Qed.

Lemma send_open (ws : ExtendedWebSocket) (msg : RelayMsg) :
  readyState ws = OPEN -> send ws msg = [Sent msg].
Proof. intros H. unfold send. now rewrite H. Qed.

Lemma backfill_length (events : list NostrEvent) (f : NostrFilter) :
  Z.of_nat (length (backfill events f)) <= Z.max 0 (Z.min (default 200 (limit f)) 2000).
Proof. unfold backfill. rewrite length_firstn. lia. Qed.

(** C7: a REQ frame is answered, on an open socket, with the matches of
    each filter in turn, each filter's matches being the first
    [min(limit ?? 200, 2000)] met on the way from the newest stored event to
    the oldest (an event that matches two filters is sent twice), each as an
    EVENT frame for the subscription, followed by exactly one EOSE. *)
Theorem req_backfill_then_eose (cfg : Config) (rt : Runtime) (ws : ExtendedWebSocket)
    (raw : RawData) (now : Z) (r : Relay) (subId : string) (filters : list NostrFilter) :
  readyState ws = OPEN ->
  toString_length (bytes raw) <= MAX_EVENT_BYTES cfg ->
  parsed raw = C_REQ subId filters ->
  req_answer cfg rt ws raw now r subId filters.
Proof.
  intros Hopen Hsize Hreq. unfold req_answer.
  split; [apply queryEvents_backfill|].
  split; [intros f _; apply backfill_length|].
  unfold onMessage.
  destruct (Z.gtb_spec (toString_length (bytes raw)) (MAX_EVENT_BYTES cfg)); [lia|].
  rewrite Hreq. unfold onREQ. rewrite queryEvents_backfill.
  f_equal. f_equal.
  assert (Hopen' : readyState (set_subs (<[subId:=filters]> (subs ws)) ws) = OPEN)
    by exact Hopen.
  rewrite (send_open _ _ Hopen'). f_equal.
  induction (flat_map (backfill (events r)) filters) as [|e found IH]; simpl.
  - reflexivity.
  - rewrite (send_open _ _ Hopen'). simpl. now rewrite IH.
Qed.

Lemma req_backfill_then_eose_witness :
  (readyState open_socket = OPEN /\
   toString_length (bytes req_frame) <= MAX_EVENT_BYTES default_config /\
   parsed req_frame = C_REQ "s1" [kind_one_filter; kind_one_filter]) /\
  req_answer default_config example_runtime open_socket req_frame 0 three_note_relay
             "s1" [kind_one_filter; kind_one_filter].
Proof.
  assert (H1 : readyState open_socket = OPEN) by reflexivity.
  assert (H2 : toString_length (bytes req_frame) <= MAX_EVENT_BYTES default_config)
    by (vm_compute; discriminate).
  assert (H3 : parsed req_frame = C_REQ "s1" [kind_one_filter; kind_one_filter])
    by reflexivity.
  split; [tauto|].
  exact (req_backfill_then_eose default_config example_runtime open_socket req_frame 0
           three_note_relay "s1" [kind_one_filter; kind_one_filter] H1 H2 H3).
Defined.

Example backfill_newest_first :
  queryEvents [note "a" 1; note "b" 2; note "c" 3] [kind_one_filter; kind_one_filter]
  = [note "c" 3; note "b" 2; note "c" 3; note "b" 2].
Proof. reflexivity. Qed.

(** ** Properties of the request handler *)

Lemma finalizeEvent_cases (rt : Runtime) (t : Z) (params : EventTemplate) (sk : string) :
  finalizeEvent rt t params sk
  = if tags_are_strings (t_tags params) then Ok (finalized rt t params sk)
    else Throw "can't serialize event with wrong or missing properties".
Proof. reflexivity. Qed.

Lemma emit_signed (cfg : Config) (rt : Runtime) (r : Relay) (now : Z)
    (params : EventTemplate) (sk : string) :
  RELAY_SECRET_KEY r = Some sk ->
  tags_are_strings (t_tags params) = true ->
  emit cfg rt r now params
  = Returned tt
      (set_events (storeEvent cfg (finalized rt (nowSec now) params sk) (events r)) r)
      [Broadcast (EVENT (finalized rt (nowSec now) params sk))].
Proof.
  intros H Htags. unfold emit, signEvent. now rewrite H, finalizeEvent_cases, Htags.
Qed.

Lemma emit_thrown (cfg : Config) (rt : Runtime) (r : Relay) (now : Z)
    (params : EventTemplate) (sk : string) :
  RELAY_SECRET_KEY r = Some sk ->
  tags_are_strings (t_tags params) = false ->
  emit cfg rt r now params
  = Thrown "can't serialize event with wrong or missing properties" r [].
Proof.
  intros H Htags. unfold emit, signEvent. now rewrite H, finalizeEvent_cases, Htags.
Qed.

Lemma emit_effects (cfg : Config) (rt : Runtime) (r : Relay) (now : Z)
    (params : EventTemplate) (e : NostrEvent) :
  In (Broadcast (EVENT e)) (effects (emit cfg rt r now params)) ->
  exists sk, e = finalized rt (nowSec now) params sk.
Proof.
  unfold emit, signEvent. destruct (RELAY_SECRET_KEY r) as [sk|]; simpl.
  - rewrite finalizeEvent_cases. destruct (tags_are_strings _); simpl.
    + intros [H|[]]. exists sk. congruence.
    + intros [].
  - intros [].
Qed.

Lemma is_BTC_USD_string (pair : json) : is_BTC_USD pair = true -> is_string pair = true.
Proof. destruct pair; simpl; congruence. Qed.

Lemma reply_tags_strings (evt : NostrEvent) (marker : string) (pair : json) :
  tags_are_strings (reply_tags evt marker pair) = is_string pair.
Proof. unfold tags_are_strings, reply_tags. simpl. now rewrite !andb_true_r. Qed.

Lemma response_tags_strings (evt : NostrEvent) (pair : json) (now : Z) (a : Aggregate)
    (hit : bool) (age : Z) :
  tags_are_strings (t_tags (response_params evt pair now a hit age)) = is_string pair.
Proof.
  unfold response_params, tags_are_strings. cbn [t_tags].
  rewrite forallb_app. fold (tags_are_strings (reply_tags evt "price" pair)).
  rewrite reply_tags_strings.
  replace (forallb (forallb is_string)
             (List.map (fun s => [JStr "src"; JStr (source s)]) (agg_used a))) with true.
  - apply andb_true_r.
  - symmetry. induction (agg_used a) as [|s used IH]; simpl; [reflexivity | exact IH].
Qed.

Lemma effects_finish (o : Outcome unit) : effects (finish o) = effects o.
Proof. now destruct o. Qed.

Lemma cacheGet_spec (cfg : Config) (now : Z) (c : option CacheEntry) (h : CacheHit) :
  cacheGet cfg now c = Some h <->
  exists entry, c = Some entry /\
    h = mkCacheHit (tsMs entry) (samples entry) (now - tsMs entry) /\
    now - tsMs entry <= CACHE_TTL_MS cfg.
Proof.
  unfold cacheGet. destruct c as [entry|].
  - destruct (Z.gtb_spec (now - tsMs entry) (CACHE_TTL_MS cfg)) as [Hgt|Hle].
    + split; [discriminate|]. intros [entry' [He [_ Hage]]]. injection He as <-. lia.
    + split.
      * intros H. injection H as <-. now exists entry.
      * intros [entry' [He [-> _]]]. now injection He as <-.
  - split; [discriminate|]. intros [entry [He _]]. discriminate.
Qed.

Lemma inject_Z_inj (a b : Z) : inject_Z a = inject_Z b -> a = b.
Proof. intros H. now injection H. Qed.

Lemma fetch_is_no_broadcast (sources : list string) (msg : RelayMsg) :
  ~ In (Broadcast msg) (List.map Fetch sources).
Proof. induction sources; simpl; [tauto|]. intros [H|H]; [discriminate | tauto]. Qed.

Lemma hit_broadcast (cfg : Config) (rt : Runtime) (r : Relay) (evt : NostrEvent) (now : Z)
    (e : NostrEvent) (age : Z) :
  In (Broadcast (EVENT e)) (effects (handlePriceRequest cfg rt r evt now)) ->
  reports_hit e age ->
  exists cached, cacheGet cfg now (priceCache r) = Some cached /\ ageMs cached = age /\
    Js.le (Fin (inject_Z age)) (req_maxAgeMs cfg rt evt) = true.
Proof.
  unfold handlePriceRequest. intros Hin [Hkind [Hhit Hage]].
  destruct (is_BTC_USD (req_pair evt)); cbn [negb] in Hin.
  2:{ rewrite effects_finish in Hin. apply emit_effects in Hin. destruct Hin as [sk ->].
      discriminate Hkind. }
  destruct (cacheGet cfg now (priceCache r)) as [cached|] eqn:Hget.
  2:{ cbn [effects] in Hin. now apply fetch_is_no_broadcast in Hin. }
  destruct (Js.le (Fin (inject_Z (ageMs cached))) (req_maxAgeMs cfg rt evt)) eqn:Hle.
  2:{ cbn [effects] in Hin. now apply fetch_is_no_broadcast in Hin. }
  destruct (aggregate (hit_samples cached) (req_method rt evt)) as [a|m].
  2:{ destruct Hin. }
  rewrite effects_finish in Hin. apply emit_effects in Hin. destruct Hin as [sk ->].
  unfold payload_cache in Hage. simpl in Hage.
  assert (Heq : ageMs cached = age) by (apply inject_Z_inj; congruence).
  exists cached. split; [reflexivity|]. split; [exact Heq|]. now rewrite <- Heq.
Qed.

Lemma resume_never_reports_hit (cfg : Config) (rt : Runtime) (r : Relay) (k : Pending)
    (upstream : nat -> string -> option Q) (now : Z) (e : NostrEvent) (age : Z) :
  In (Broadcast (EVENT e)) (effects (resumePriceRequest cfg rt r k upstream now)) ->
  ~ reports_hit e age.
Proof.
  unfold resumePriceRequest. intros Hin [Hkind [Hhit _]].
  destruct (_ <? MIN_QUORUM cfg).
  - apply emit_effects in Hin. destruct Hin as [sk ->]. discriminate Hkind.
  - destruct (aggregate _ (p_method k)) as [a|m]; [|destruct Hin].
    apply emit_effects in Hin. destruct Hin as [sk ->]. discriminate Hhit.
Qed.

Lemma zero_maxAge_clamped (cfg : Config) (rt : Runtime) (evt : NostrEvent) :
  Js.prop (req_body evt) "maxAgeMs" = Some (JNum 0) ->
  exists q, req_maxAgeMs cfg rt evt = Fin q /\ (q <= 0)%Q.
Proof.
  intros H. unfold req_maxAgeMs, req_maxAgeMsReq. rewrite H. simpl.
  eexists. split; [reflexivity|]. apply Q.le_min_l.
Qed.

(** C8: [cacheGet] returns the entry, with its age, exactly when that age
    is at most CACHE_TTL_MS; a price response that reports [cache.hit = true]
    reports an age that is at most CACHE_TTL_MS and at most the request's
    clamped [maxAgeMs]; the responses built after a fetch never report a
    hit; and a request with [maxAgeMs = 0] gets no hit from an entry that is
    one millisecond old or older. *)
Theorem cache_hits_are_fresh (cfg : Config) (rt : Runtime) : cache_freshness cfg rt.
Proof.
  split; [intros now c h; apply cacheGet_spec|].
  split; [|split].
  - intros r evt now e age Hin Hhit.
    destruct (hit_broadcast cfg rt r evt now e age Hin Hhit) as [cached [Hget [Hage Hle]]].
    split; [|exact Hle].
    apply cacheGet_spec in Hget. destruct Hget as [entry [_ [-> Hfresh]]].
    simpl in Hage. lia.
  - intros r k upstream now e age. apply resume_never_reports_hit.
  - intros r evt now entry Hzero Hcache Hold e age Hin Hhit.
    destruct (hit_broadcast cfg rt r evt now e age Hin Hhit) as [cached [Hget [Hage Hle]]].
    apply cacheGet_spec in Hget. destruct Hget as [entry' [Hentry [-> _]]].
    rewrite Hcache in Hentry. injection Hentry as <-. simpl in Hage.
    destruct (zero_maxAge_clamped cfg rt evt Hzero) as [q [Hq Hq0]].
    rewrite Hq in Hle. simpl in Hle. apply Qle_bool_iff in Hle.
    assert (Hpos : (inject_Z age <= 0)%Q) by (eapply Qle_trans; eassumption).
    change 0%Q with (inject_Z 0) in Hpos. rewrite <- Zle_Qle in Hpos. lia.
Qed.

Lemma terminal_unsupported (rt : Runtime) (evt : NostrEvent) (pair : json) (t : Z)
    (sk : string) :
  terminal_for evt (finalized rt t (unsupported_pair_params evt pair) sk).
Proof.
  split; [right; reflexivity|]. simpl. split; [now left | right; now left].
Qed.

Lemma terminal_quorum (cfg : Config) (rt : Runtime) (evt : NostrEvent) (pair : json)
    (got : Z) (sources : list string) (t : Z) (sk : string) :
  terminal_for evt (finalized rt t (quorum_params cfg evt pair got sources) sk).
Proof.
  split; [right; reflexivity|]. simpl. split; [now left | right; now left].
Qed.

Lemma terminal_response (rt : Runtime) (evt : NostrEvent) (pair : json) (now : Z)
    (a : Aggregate) (hit : bool) (age t : Z) (sk : string) :
  terminal_for evt (finalized rt t (response_params evt pair now a hit age) sk).
Proof.
  split; [left; reflexivity|]. simpl. split; [now left | right; now left].
Qed.

Lemma aggregate_returns (samples : list PriceSample) (method : string) :
  samples <> [] -> exists a, aggregate samples method = Ok a.
Proof.
  intros Hne. unfold aggregate. rewrite length_map.
  destruct (Nat.eqb_spec (length samples) 0) as [H0|_].
  { destruct samples; [congruence | discriminate]. }
  destruct (_ && _); [eauto|]. destruct (_ <=? _)%nat; eauto.
Qed.

Lemma ready_key (r : Relay) : relay_ready r -> exists sk, RELAY_SECRET_KEY r = Some sk.
Proof. intros [H _]. destruct (RELAY_SECRET_KEY r) as [sk|]; [eauto | congruence]. Qed.

Lemma ready_set_events (r : Relay) (es : list NostrEvent) :
  relay_ready r -> relay_ready (set_events es r).
Proof. intros H. exact H. Qed.

Lemma price_request_terminal (cfg : Config) (rt : Runtime) (r : Relay) (evt : NostrEvent)
    (now : Z) :
  relay_ready r -> is_string (req_pair evt) = true ->
  exists step r1 rest,
    handlePriceRequest cfg rt r evt now = Returned step r1 rest /\
    relay_ready r1 /\
    match step with
    | Finished => exists e, rest = [Broadcast (EVENT e)] /\ terminal_for evt e
    | Awaiting k =>
        rest = List.map Fetch (p_sources k) /\ p_evt k = evt /\
        is_string (p_pair k) = true
    end.
Proof.
  intros Hready Hpair. destruct (ready_key r Hready) as [sk Hsk].
  unfold handlePriceRequest.
  destruct (is_BTC_USD (req_pair evt)); cbn [negb].
  2:{ rewrite (emit_signed cfg rt r now _ sk Hsk)
        by (cbn [unsupported_pair_params t_tags]; now rewrite reply_tags_strings).
      cbn [finish].
      eexists _, _, _. split; [reflexivity|]. split; [now apply ready_set_events|].
      eexists. split; [reflexivity | apply terminal_unsupported]. }
  destruct (cacheGet cfg now (priceCache r)) as [cached|] eqn:Hget.
  2:{ eexists _, _, _. split; [reflexivity|]. split; [exact Hready|]. now repeat split. }
  destruct (Js.le _ _).
  2:{ eexists _, _, _. split; [reflexivity|]. split; [exact Hready|]. now repeat split. }
  apply cacheGet_spec in Hget. destruct Hget as [entry [Hentry [-> _]]].
  cbn [hit_samples ageMs].
  destruct (aggregate_returns (samples entry) (req_method rt evt)) as [a ->].
  { destruct Hready as [_ Hcache]. now apply Hcache. }
  rewrite (emit_signed cfg rt r now _ sk Hsk) by now rewrite response_tags_strings.
  cbn [finish].
  eexists _, _, _. split; [reflexivity|]. split; [now apply ready_set_events|].
  eexists. split; [reflexivity | apply terminal_response].
Qed.

Lemma resume_terminal (cfg : Config) (rt : Runtime) (r : Relay) (k : Pending)
    (upstream : nat -> string -> option Q) (now : Z) :
  1 <= MIN_QUORUM cfg -> relay_ready r -> is_string (p_pair k) = true ->
  exists r' e,
    resumePriceRequest cfg rt r k upstream now = Returned tt r' [Broadcast (EVENT e)] /\
    terminal_for (p_evt k) e /\ relay_ready r'.
Proof.
  intros Hq Hready Hpair. destruct (ready_key r Hready) as [sk Hsk].
  unfold resumePriceRequest.
  set (samples := omap (fun x => x) (settle_from upstream 0 (p_sources k) (p_ts k))).
  destruct (Z.ltb_spec (Z.of_nat (length samples)) (MIN_QUORUM cfg)) as [Hlt|Hge].
  - rewrite (emit_signed cfg rt r now _ sk Hsk)
      by (cbn [quorum_params t_tags]; now rewrite reply_tags_strings).
    eexists _, _. split; [reflexivity|]. split; [apply terminal_quorum|].
    now apply ready_set_events.
  - assert (Hne : samples <> []).
    { intros Hnil. rewrite Hnil in Hge. simpl in Hge. lia. }
    destruct (aggregate_returns samples (p_method k) Hne) as [a ->].
    assert (Hready' : relay_ready (set_priceCache (cacheSet now samples) r)).
    { split; [exact (proj1 Hready)|]. simpl. intros c Hc. injection Hc as <-. exact Hne. }
    rewrite (emit_signed cfg rt (set_priceCache (cacheSet now samples) r) now _ sk Hsk)
      by now rewrite response_tags_strings.
    eexists _, _. split; [reflexivity|]. split; [apply terminal_response|].
    now apply ready_set_events.
Qed.

Lemma onEVENT_accepted (cfg : Config) (rt : Runtime) (ws : ExtendedWebSocket)
    (evt : NostrEvent) (now : Z) (r : Relay) :
  accepted rt ws evt now r ->
  onEVENT cfg rt ws evt now r
  = if kind evt =? KIND_PRICE_REQ
    then after (send ws (OK (id evt) true "accepted"))
               (handlePriceRequest cfg rt (after_accept cfg ws evt now r) evt now)
    else Returned Finished (after_accept cfg ws evt now r)
                  (send ws (OK (id evt) true "accepted")).
Proof.
  intros [Hver [Hip Hpub]]. unfold onEVENT, after_accept. rewrite Hver. cbn [negb].
  destruct (allow (ipLimiter r) ("ip:" ++ ip ws)%string now) as [ok_ip ipl].
  simpl in Hip. subst ok_ip. cbn [negb snd].
  change (pubLimiter (set_ipLimiter ipl r)) with (pubLimiter r).
  destruct (allow (pubLimiter r) ("pub:" ++ pubkey evt)%string now) as [ok_pub publ].
  simpl in Hpub. subst ok_pub. cbn [negb snd]. reflexivity.
Qed.

(** An accepted price request that names its pair by a string is answered
    by exactly one terminal event, whichever branch the handler takes. *)
Lemma string_pair_one_terminal (cfg : Config) (rt : Runtime)
    (ws : ExtendedWebSocket) (evt : NostrEvent) (now : Z) (r : Relay) :
  1 <= MIN_QUORUM cfg ->
  relay_ready r ->
  kind evt = KIND_PRICE_REQ ->
  is_string (req_pair evt) = true ->
  accepted rt ws evt now r ->
  one_terminal_event cfg rt ws evt now r.
Proof.
  intros Hq Hready Hkind Hpair Hacc. unfold one_terminal_event.
  rewrite (onEVENT_accepted cfg rt ws evt now r Hacc), Hkind. cbn [Z.eqb Pos.eqb].
  assert (Hready' : relay_ready (after_accept cfg ws evt now r)) by exact Hready.
  destruct (price_request_terminal cfg rt _ evt now Hready' Hpair)
    as [step [r1 [rest [Hrun [Hr1 Hstep]]]]].
  rewrite Hrun. cbn [after].
  exists step, r1, rest. split; [reflexivity|]. split; [exact Hr1|].
  destruct step as [|k]; [exact Hstep|].
  destruct Hstep as [Hrest [Hevt Hkpair]]. split; [exact Hrest|].
  intros r2 upstream now2 Hr2.
  destruct (resume_terminal cfg rt r2 k upstream now2 Hq Hr2 Hkpair)
    as [r3 [e [Hres [Hterm Hr3]]]].
  exists r3, e. rewrite Hevt in Hterm.
  split; [exact Hres|]. split; [exact Hterm | exact Hr3].
Qed.

Lemma initial_relay_ready (cfg : Config) (sk : string) : relay_ready (initial_relay cfg sk).
Proof. split; [discriminate|]. intros c Hc. discriminate Hc. Qed.

(** C2 fails on the code: an accepted kind-38000 event whose pair is not
    a string (an object, an array, a number or a boolean in the content)
    is acknowledged with [OK true] and stored, and then the run throws:
    [finalizeEvent] refuses the tag made of that pair. No terminal event
    is broadcast, neither a response nor the unsupported-pair error the
    branch was building. *)
Theorem nonstring_pair_gets_no_terminal (cfg : Config) (rt : Runtime)
    (ws : ExtendedWebSocket) (evt : NostrEvent) (now : Z) (r : Relay) :
  RELAY_SECRET_KEY r <> None ->
  kind evt = KIND_PRICE_REQ ->
  is_string (req_pair evt) = false ->
  accepted rt ws evt now r ->
  acknowledged_then_thrown cfg rt ws evt now r.
Proof.
  intros Hkey Hkind Hpair Hacc. unfold acknowledged_then_thrown.
  rewrite (onEVENT_accepted cfg rt ws evt now r Hacc), Hkind. cbn [Z.eqb Pos.eqb].
  destruct (RELAY_SECRET_KEY r) as [sk|] eqn:Hsk; [|congruence].
  unfold handlePriceRequest.
  assert (Hother : is_BTC_USD (req_pair evt) = false).
  { destruct (is_BTC_USD (req_pair evt)) eqn:E; [|reflexivity].
    apply is_BTC_USD_string in E. congruence. }
  rewrite Hother. cbn [negb].
  rewrite (emit_thrown cfg rt (after_accept cfg ws evt now r) now _ sk Hsk)
    by (cbn [unsupported_pair_params t_tags]; now rewrite reply_tags_strings).
  cbn [finish after]. rewrite app_nil_r.
  eexists _, _. split; [reflexivity|]. split; reflexivity.
Qed.

Lemma nonstring_pair_gets_no_terminal_witness :
  (RELAY_SECRET_KEY fresh_relay <> None /\
   kind object_pair_request = KIND_PRICE_REQ /\
   is_string (req_pair object_pair_request) = false /\
   accepted example_runtime open_socket object_pair_request 5000 fresh_relay) /\
  acknowledged_then_thrown default_config example_runtime open_socket object_pair_request
                           5000 fresh_relay.
Proof.
  assert (H1 : RELAY_SECRET_KEY fresh_relay <> None) by discriminate.
  assert (H2 : kind object_pair_request = KIND_PRICE_REQ) by reflexivity.
  assert (H3 : is_string (req_pair object_pair_request) = false) by reflexivity.
  assert (H4 : accepted example_runtime open_socket object_pair_request 5000 fresh_relay)
    by (repeat split; vm_compute; reflexivity).
  split; [tauto|].
  exact (nonstring_pair_gets_no_terminal default_config example_runtime open_socket
           object_pair_request 5000 fresh_relay H1 H2 H3 H4).
Defined.

(** The run on a request whose content is [{"pair":{"a":1}}]. *)
Example object_pair_run :
  onEVENT default_config example_runtime open_socket object_pair_request 5000 fresh_relay
  = Thrown "can't serialize event with wrong or missing properties"
           (after_accept default_config open_socket object_pair_request 5000 fresh_relay)
           [Sent (OK "req-7" true "accepted")].
Proof. vm_compute. reflexivity. Qed.

(** ** Admission *)



Example alice_denied_after_ip_charge :
  fst (allow (ipLimiter alice_spent_relay) (ip_key open_socket) 5000) = true /\
  fst (allow (pubLimiter alice_spent_relay) (pub_key plain_request) 5000) = false /\
  effects (onEVENT default_config example_runtime open_socket plain_request 5000
             alice_spent_relay)
  = [Sent (OK "req-1" false "rate limited (pubkey)")].
Proof. vm_compute. repeat split. Qed.

(** ** Upstream fan-out *)

Lemma fetches_map_Fetch (sources : list string) :
  fetches (List.map Fetch sources) = sources.
Proof. induction sources as [|src sources IH]; simpl; [reflexivity | now rewrite IH]. Qed.

Lemma req_sources_nonempty (evt : NostrEvent) : req_sources evt <> [].
Proof.
  unfold req_sources. destruct (req_wantedSources evt); discriminate.
Qed.

(** C3, as the code has it: the relay keeps no record of fetches in
    flight. A request for BTC-USD that finds no cache entry young enough
    starts its own fan-out, one fetch for each of its sources, whatever
    other requests are waiting; a request starts no fetch only when it is
    served from the cache. *)
Theorem every_miss_fans_out (cfg : Config) (rt : Runtime) (r : Relay) (evt : NostrEvent)
    (now : Z) :
  is_BTC_USD (req_pair evt) = true ->
  fan_out_per_miss cfg rt r evt now.
Proof.
  intros Hpair. unfold fan_out_per_miss, cache_usable, handlePriceRequest.
  rewrite Hpair. cbn [negb].
  destruct (cacheGet cfg now (priceCache r)) as [cached|] eqn:Hget.
  - destruct (Js.le (Fin (inject_Z (ageMs cached))) (req_maxAgeMs cfg rt evt)) eqn:Hle.
    + split.
      * intros Hmiss. exfalso. apply Hmiss. now exists cached.
      * intros _. destruct (aggregate _ _) as [a|m]; [|reflexivity].
        rewrite effects_finish. unfold emit.
        destruct (signEvent _ _ _); reflexivity.
    + split.
      * intros _. split; [reflexivity|]. cbn [effects].
        split; [apply fetches_map_Fetch | apply req_sources_nonempty].
      * intros [h [Hh Hle']]. injection Hh as <-. congruence.
  - split.
    + intros _. split; [reflexivity|]. cbn [effects].
      split; [apply fetches_map_Fetch | apply req_sources_nonempty].
    + intros [h [Hh _]]. discriminate.
Qed.

Lemma every_miss_fans_out_witness :
  is_BTC_USD (req_pair plain_request) = true /\
  fan_out_per_miss default_config example_runtime fresh_relay plain_request 5000.
Proof.
  split; [reflexivity|].
  apply (every_miss_fans_out default_config example_runtime fresh_relay plain_request 5000).
  reflexivity.
Defined.

(** C3 as worded fails: with the cache empty, a second request handled
    while the first still awaits its fetches starts a full fan-out of its
    own, so every source is fetched twice. *)
Lemma concurrent_cold_requests_fetch_twice :
  priceCache fresh_relay = None /\
  is_awaiting first_run = true /\
  is_awaiting second_run = true /\
  fetches (effects first_run ++ effects second_run) = ALL_SOURCES ++ ALL_SOURCES.
Proof. vm_compute. repeat split. Qed.

(** ** Request parameters *)

Lemma getTag_from_truthy (tags : list (list json)) (name : string) (v : json) :
  getTag_from tags name = Some v -> Js.truthy v = true.
Proof.
  induction tags as [|t tags IH]; simpl; [discriminate|].
  destruct t as [|[| | |n| |] [|w t]]; try exact IH.
  destruct (String.eqb n name && Js.truthy w) eqn:E; [|exact IH].
  intros H. injection H as <-. now apply andb_true_iff in E.
Qed.

Lemma nullish_missing (v : option json) (d : json) :
  missing v -> Js.nullish v d = d.
Proof. intros [->| ->]; reflexivity. Qed.

Lemma nullish_present (v d : json) :
  v <> JNull -> Js.nullish (Some v) d = v.
Proof. destruct v; simpl; congruence. Qed.

Lemma req_pair_tag (evt : NostrEvent) :
  Js.nullish (getTag evt "pair") (JStr "BTC-USD")
  = default (JStr "BTC-USD") (getTag evt "pair").
Proof.
  unfold getTag. destruct (getTag_from (tags evt) "pair") as [v|] eqn:E; [|reflexivity].
  apply getTag_from_truthy in E. destruct v; simpl in *; congruence.
Qed.

Lemma wanted_recognized (items : list json) :
  Forall (fun src => In src ALL_SOURCES)
    (omap (fun s => match s with
                    | JStr x => if includes_str ALL_SOURCES x then Some x else None
                    | _ => None
                    end) items).
Proof.
  induction items as [|i items IH]; [constructor|].
  cbn -[includes_str ALL_SOURCES In].
  destruct i as [| | |x| |]; try exact IH.
  destruct (includes_str ALL_SOURCES x) eqn:E; [|exact IH].
  constructor; [|exact IH].
  unfold includes_str in E. apply existsb_exists in E. destruct E as [y [Hy Heq]].
  apply String.eqb_eq in Heq. now subst.
Qed.

Lemma all_sources_recognized : Forall (fun src => In src ALL_SOURCES) ALL_SOURCES.
Proof. apply List.Forall_forall. auto. Qed.

(** C4, as the code has it: the content is parsed as JSON, an unparsable
    or null content counting as an empty object. A member that is absent or
    null takes its default: [pair] the event's "pair" tag and, failing that,
    "BTC-USD"; [method] "trimmed_mean"; [maxAgeMs] 20000. A member that is
    present is used as it is ([pair]) or converted ([String(method)],
    [Number(maxAgeMs)]), whatever its type. [sources] that is not an array,
    or that names no recognized source, stands for ALL_SOURCES. The
    effective [maxAgeMs] is the minimum of the requested number and
    MAX_REQUEST_MAXAGE_MS. *)
Theorem request_parameters (cfg : Config) (rt : Runtime) (evt : NostrEvent) :
  request_defaults cfg rt evt.
Proof.
  unfold request_defaults.
  split. { intros H. unfold req_body. now apply nullish_missing. }
  split. { intros H. unfold req_pair. rewrite nullish_missing by exact H. apply req_pair_tag. }
  split. { intros v Hv Hnn. unfold req_pair. rewrite Hv. now apply nullish_present. }
  split. { intros H. unfold req_method. now rewrite nullish_missing by exact H. }
  split. { intros v Hv Hnn. unfold req_method. rewrite Hv. now rewrite nullish_present. }
  split. { intros H. unfold req_maxAgeMsReq. now rewrite nullish_missing by exact H. }
  split. { intros v Hv Hnn. unfold req_maxAgeMsReq. rewrite Hv. now rewrite nullish_present. }
  split. { reflexivity. }
  split. { intros q Hq. unfold req_maxAgeMs. now rewrite Hq. }
  split.
  { intros Hno. unfold req_sources, req_wantedSources.
    destruct (Js.prop (req_body evt) "sources") as [[| | | |items|]|]; try reflexivity.
    now destruct (Hno items). }
  split. { intros H. unfold req_sources. now rewrite H. }
  split. { apply req_sources_nonempty. }
  unfold req_sources. destruct (req_wantedSources evt) as [|w ws] eqn:E.
  - apply all_sources_recognized.
  - rewrite <- E. unfold req_wantedSources.
    destruct (Js.prop (req_body evt) "sources") as [[| | | |items|]|];
      try apply all_sources_recognized.
    apply wanted_recognized.
Qed.

(** C4 as worded fails on members of the wrong type and on the pair: a
    boolean [maxAgeMs] is read as the number 1, not as 20000; a boolean
    [method] is read as the text "false", not as "trimmed_mean"; and a
    content without [pair] takes the pair from the event's tag before it
    takes "BTC-USD". *)
Lemma invalid_members_are_not_defaulted :
  req_maxAgeMsReq example_runtime boolean_maxAge_request = Fin 1 /\
  req_maxAgeMs default_config example_runtime boolean_maxAge_request <> Fin 20000 /\
  req_method example_runtime boolean_method_request = "false" /\
  Js.prop (req_body tagged_pair_request) "pair" = None /\
  req_pair tagged_pair_request = JStr "ETH-USD".
Proof.
  split; [reflexivity|]. split; [vm_compute; discriminate|].
  split; [reflexivity|]. split; reflexivity.
Qed.

(** ** The frame size guard *)

Lemma toString_length_from (bs : list byte) (acc : Z) :
  fold_left (fun acc b => acc + code_units b) bs acc
  = acc + fold_left (fun acc b => acc + code_units b) bs 0.
Proof.
  revert acc. induction bs as [|b bs IH]; intros acc; cbn [fold_left].
  - lia.
  - rewrite IH, (IH (0 + code_units b)). lia.
Qed.

Lemma code_units_le_one_byte (b : byte) : is_ascii b -> code_units b = 1.
Proof.
  unfold is_ascii, code_units. intros H.
  destruct (Z.ltb_spec (Z.of_N (Byte.to_N b)) 128); [reflexivity | lia].
Qed.

(** On text made of ASCII characters only, the guard does measure bytes. *)
Lemma ascii_length_is_byte_length (bs : list byte) :
  Forall is_ascii bs -> toString_length bs = byteLength bs.
Proof.
  unfold toString_length, byteLength. induction 1 as [|b bs Hb _ IH].
  - reflexivity.
  - cbn [fold_left length].
    rewrite (toString_length_from bs (0 + code_units b)), IH, (code_units_le_one_byte b Hb).
    lia.
Qed.

Lemma guard_rejects (cfg : Config) (rt : Runtime) (ws : ExtendedWebSocket) (raw : RawData)
    (now : Z) (r : Relay) :
  toString_length (bytes raw) > MAX_EVENT_BYTES cfg ->
  onMessage cfg rt ws raw now r
  = (ws, Returned Finished r (send ws (NOTICE "payload too large"))).
Proof.
  intros H. unfold onMessage.
  destruct (Z.gtb_spec (toString_length (bytes raw)) (MAX_EVENT_BYTES cfg)); [reflexivity | lia].
Qed.

(** C9, at an input where the code departs from it: a frame of
    MAX_EVENT_BYTES + 1 bytes that holds one two-byte character has a text
    of MAX_EVENT_BYTES code units; the guard lets it through and the
    request is answered. *)
Lemma oversized_frame_is_processed :
  byteLength (bytes accented_frame) = MAX_EVENT_BYTES default_config + 1 /\
  toString_length (bytes accented_frame) = MAX_EVENT_BYTES default_config /\
  effects (snd (onMessage default_config example_runtime open_socket accented_frame 0
                  fresh_relay))
  = [Sent (EOSE "é")] /\
  firstn 12 (bytes accented_frame)
  = [x5b; x22; x52; x45; x51; x22; x2c; x22; xc3; xa9; x22; x5d].
Proof. vm_compute. repeat split. Qed.

(** ** Worked runs *)

Example four_samples_downgrade_to_median :
  aggregate four_samples "trimmed_mean"
  = Ok (mkAggregate (Fin 60015) "median" four_samples).
Proof. vm_compute. reflexivity. Qed.

Example five_samples_trimmed :
  aggregate five_samples "trimmed_mean"
  = Ok (mkAggregate (Fin 5) "trimmed_mean"
          [sample "d" 3; sample "a" 5; sample "e" 7]).
Proof. vm_compute. reflexivity. Qed.

Example warm_cache_is_hit :
  exists e,
    first_broadcast (handlePriceRequest default_config example_runtime warm_relay
                       plain_request 5000) = Some e /\
    reports_hit e 500 /\
    fetches (effects (handlePriceRequest default_config example_runtime warm_relay
                        plain_request 5000)) = [].
Proof. eexists. split; [vm_compute; reflexivity|]. vm_compute. repeat split. Qed.

Example zero_maxAge_misses_one_ms_old_entry :
  is_awaiting (handlePriceRequest default_config example_runtime warm_relay
                 impatient_request 4501) = true /\
  fetches (effects (handlePriceRequest default_config example_runtime warm_relay
                      impatient_request 4501)) = ALL_SOURCES.
Proof. vm_compute. split; reflexivity. Qed.

(** A run for an EVENT frame returns, and keeps the relay ready, when a
    price request names its pair by a string. *)
Lemma onEVENT_keeps_ready (cfg : Config) (rt : Runtime) (ws : ExtendedWebSocket)
    (evt : NostrEvent) (now : Z) (r : Relay) :
  relay_ready r ->
  (kind evt = KIND_PRICE_REQ -> is_string (req_pair evt) = true) ->
  exists step r' out,
    onEVENT cfg rt ws evt now r = Returned step r' out /\ relay_ready r'.
Proof.
  intros Hready Hpair.
  unfold onEVENT. destruct (verifyEvent rt evt); cbn [negb]; [|eauto].
  destruct (allow (ipLimiter r) _ now) as [[|] ipl]; cbn [negb].
  2:{ eexists _, _, _. split; [reflexivity|]. exact Hready. }
  destruct (allow (pubLimiter _) _ now) as [[|] publ]; cbn [negb].
  2:{ eexists _, _, _. split; [reflexivity|]. exact Hready. }
  destruct (Z.eqb_spec (kind evt) KIND_PRICE_REQ) as [Hkind|_].
  2:{ eexists _, _, _. split; [reflexivity|]. exact Hready. }
  match goal with |- context [handlePriceRequest cfg rt ?r0 evt now] =>
    destruct (price_request_terminal cfg rt r0 evt now Hready (Hpair Hkind))
      as [step [r1 [rest [Hrun [Hr1 _]]]]]; rewrite Hrun end.
  cbn [after]. eauto.
Qed.

(** * Further properties of the code *)

(** ** The aggregator on any input *)

Lemma odd_median_is_a_value (values : list Q) :
  Nat.odd (length values) = true ->
  exists a, In a values /\ median values = Fin a.
Proof.
  intros Hodd.
  assert (Hne : values <> []) by (intros ->; discriminate Hodd).
  destruct (median_is_median values Hne) as [arr [Hperm [_ Hmid]]].
  cbv zeta in Hmid. rewrite (Permutation_length Hperm) in Hmid.
  rewrite <- Nat.negb_odd, Hodd in Hmid. simpl in Hmid.
  destruct Hmid as [a [Ha ->]]. exists a. split; [|reflexivity].
  apply (Permutation_in _ Hperm). eapply nth_error_In. exact Ha.
Qed.

Lemma aggregate_sound_holds (samples : list PriceSample) (method : string) :
  aggregate_sound samples method.
Proof.
  split; [intros ->; reflexivity|]. intros Hne.
  assert (Hcase : (method = "trimmed_mean" /\ (5 <= length samples)%nat) \/
                  ~ (method = "trimmed_mean" /\ (5 <= length samples)%nat)).
  { destruct (String.eqb_spec method "trimmed_mean") as [->|Hm];
      [destruct (le_lt_dec 5 (length samples)) as [H5|H5]|].
    - now left.
    - right. intros [_ H]. lia.
    - right. intros [H _]. congruence. }
  destruct Hcase as [[-> H5]|Hnot].
  - destruct (aggregate_trimmed samples H5)
      as [lo0 [hi0 [used [Hagg [_ [Hperm [_ [Hlen _]]]]]]]].
    assert (Hsub : forall s, In s used -> In s samples).
    { intros s Hs. apply (Permutation_in _ (Permutation_sym Hperm)).
      right. apply in_or_app. now left. }
    assert (Hused : used <> []).
    { intros ->. simpl in Hlen. lia. }
    exists (mkAggregate (mean (List.map value used)) "trimmed_mean" used).
    split; [exact Hagg|]. split; [exact Hused|]. split; [exact Hsub|].
    cbn [agg_method]. discriminate.
  - rewrite (aggregate_not_trimmed samples method Hne Hnot).
    destruct (3 <=? length samples)%nat.
    + eexists. split; [reflexivity|]. split; [exact Hne|]. split; [auto|].
      cbn [agg_method agg_value]. intros _ Hodd.
      destruct (odd_median_is_a_value (List.map value samples)) as [a [Ha Hm]].
      { now rewrite length_map. }
      apply in_map_iff in Ha. destruct Ha as [s [<- Hs]].
      exists s. split; [exact Hs|]. split; [exact Hm|].
      intros lo hi Hin. unfold within in Hin. rewrite List.Forall_forall in Hin.
      now apply Hin.
    + eexists. split; [reflexivity|]. split; [exact Hne|]. split; [auto|].
      cbn [agg_method]. discriminate.
Qed.

(** X1: [aggregate] throws "no samples" on the empty list and on nothing
    else. On any other input the samples it reports as used are samples
    of the input, at least one, and a median over an odd number of
    samples is the value of one of them, hence between the smallest and
    the largest. A mean is a rounded sum divided, and can leave that
    range: the trimmed mean of five samples of 60000.7 is below 60000.7. *)
Theorem aggregate_outcome :
  (forall samples method, aggregate_sound samples method) /\ mean_leaves_range.
Proof.
  split; [exact aggregate_sound_holds|]. split.
  - repeat constructor; apply Qle_refl.
  - eexists _, _. split; [vm_compute; reflexivity|]. split; [reflexivity|].
    vm_compute. reflexivity.
Qed.

(** ** Filters and queries *)

Lemma includes_str_In (l : list string) (x : string) :
  includes_str l x = true <-> In x l.
Proof.
  unfold includes_str. rewrite existsb_exists. split.
  - intros [y [Hy Heq]]. apply String.eqb_eq in Heq. now subst.
  - intros H. exists x. split; [exact H | apply String.eqb_refl].
Qed.

Lemma includes_Z_In (l : list Z) (x : Z) : includes_Z l x = true <-> In x l.
Proof.
  unfold includes_Z. rewrite existsb_exists. split.
  - intros [y [Hy Heq]]. apply Z.eqb_eq in Heq. now subst.
  - intros H. exists x. split; [exact H | apply Z.eqb_refl].
Qed.

Lemma includes_tagval_has_tag (evt : NostrEvent) (name v : string) :
  includes_tagval (tag_values evt name) v = true <-> has_tag evt name v.
Proof.
  unfold includes_tagval, tag_values, has_tag. rewrite existsb_exists. split.
  - intros [h [Hh Hv]]. apply in_map_iff in Hh. destruct Hh as [t [Ht Hin]].
    apply filter_In in Hin. destruct Hin as [Hin Hname].
    exists t. split; [exact Hin|].
    destruct t as [|[| | |n| |] t]; try discriminate.
    apply String.eqb_eq in Hname. subst n. split; [reflexivity|].
    rewrite Ht. destruct h as [[| | |y| |]|]; try discriminate.
    apply String.eqb_eq in Hv. now subst.
  - intros [t [Hin [H0 H1]]]. exists (Some (JStr v)). split.
    + apply in_map_iff. exists t. split; [exact H1|].
      apply filter_In. split; [exact Hin|].
      destruct t as [|x t]; [discriminate|]. simpl in H0. injection H0 as ->.
      apply String.eqb_refl.
    + apply String.eqb_refl.
Qed.

Lemma matchFilter_checks (evt : NostrEvent) (f : NostrFilter) :
  matchFilter evt f
  = match ids f with Some l => includes_str l (id evt) | None => true end
    && (match kinds f with Some l => includes_Z l (kind evt) | None => true end
    && (match authors f with Some l => includes_str l (pubkey evt) | None => true end
    && (match since f with Some t => (t =? 0) || (t <=? created_at evt) | None => true end
    && (match until f with Some t => (t =? 0) || (created_at evt <=? t) | None => true end
    && forallb (fun '(tagName, want) =>
                  existsb (includes_tagval (tag_values evt tagName)) want)
               (tag_filters f))))).
Proof.
  unfold matchFilter.
  destruct (ids f) as [li|]; [destruct (includes_str li (id evt))|];
    cbn [negb andb]; try reflexivity.
  all: destruct (kinds f) as [lk|]; [destruct (includes_Z lk (kind evt))|];
    cbn [negb andb]; try reflexivity.
  all: destruct (authors f) as [la|]; [destruct (includes_str la (pubkey evt))|];
    cbn [negb andb]; try reflexivity.
  all: destruct (since f) as [ts|];
    [destruct (Z.eqb_spec ts 0); cbn [negb andb orb];
     [|rewrite Z.ltb_antisym; destruct (ts <=? created_at evt)]|];
    cbn [negb andb]; try reflexivity.
  all: destruct (until f) as [tu|];
    [destruct (Z.eqb_spec tu 0); cbn [negb andb orb];
     [|rewrite Z.gtb_ltb, Z.ltb_antisym; destruct (created_at evt <=? tu)]|];
    cbn [negb andb]; reflexivity.
Qed.

Lemma matchFilter_satisfies_holds (evt : NostrEvent) (f : NostrFilter) :
  matchFilter evt f = true <-> satisfies evt f.
Proof.
  rewrite matchFilter_checks, !andb_true_iff. unfold satisfies.
  assert (Hids : match ids f with Some l => includes_str l (id evt) | None => true end = true
                 <-> forall l, ids f = Some l -> In (id evt) l).
  { destruct (ids f) as [l|].
    - rewrite includes_str_In. split; [intros H l' Hl; now injection Hl as <- | auto].
    - split; [discriminate | reflexivity]. }
  assert (Hkinds : match kinds f with Some l => includes_Z l (kind evt) | None => true end
                   = true <-> forall l, kinds f = Some l -> In (kind evt) l).
  { destruct (kinds f) as [l|].
    - rewrite includes_Z_In. split; [intros H l' Hl; now injection Hl as <- | auto].
    - split; [discriminate | reflexivity]. }
  assert (Hauth : match authors f with Some l => includes_str l (pubkey evt) | None => true end
                  = true <-> forall l, authors f = Some l -> In (pubkey evt) l).
  { destruct (authors f) as [l|].
    - rewrite includes_str_In. split; [intros H l' Hl; now injection Hl as <- | auto].
    - split; [discriminate | reflexivity]. }
  assert (Hsince : match since f with
                   | Some t => (t =? 0) || (t <=? created_at evt)
                   | None => true
                   end = true
                   <-> forall t, since f = Some t -> t <> 0 -> t <= created_at evt).
  { destruct (since f) as [t|].
    - rewrite orb_true_iff, Z.eqb_eq, Z.leb_le. split.
      + intros H t' Ht Hne. injection Ht as <-. lia.
      + intros H. destruct (Z.eq_dec t 0); [now left | right; now apply H].
    - split; [discriminate | reflexivity]. }
  assert (Huntil : match until f with
                   | Some t => (t =? 0) || (created_at evt <=? t)
                   | None => true
                   end = true
                   <-> forall t, until f = Some t -> t <> 0 -> created_at evt <= t).
  { destruct (until f) as [t|].
    - rewrite orb_true_iff, Z.eqb_eq, Z.leb_le. split.
      + intros H t' Ht Hne. injection Ht as <-. lia.
      + intros H. destruct (Z.eq_dec t 0); [now left | right; now apply H].
    - split; [discriminate | reflexivity]. }
  assert (Htags : forallb (fun '(tagName, want) =>
                             existsb (includes_tagval (tag_values evt tagName)) want)
                          (tag_filters f) = true
                  <-> forall name want, In (name, want) (tag_filters f) ->
                        exists v, In v want /\ has_tag evt name v).
  { rewrite forallb_forall. split.
    - intros H name want Hin. specialize (H (name, want) Hin). cbn beta iota in H.
      apply existsb_exists in H. destruct H as [v [Hv Hhas]].
      exists v. split; [exact Hv | now apply includes_tagval_has_tag].
    - intros H [name want] Hin. destruct (H name want Hin) as [v [Hv Hhas]].
      apply existsb_exists. exists v. split; [exact Hv | now apply includes_tagval_has_tag]. }
  rewrite Hids, Hkinds, Hauth, Hsince, Huntil, Htags. tauto.
Qed.

(** X2: [matchFilter] accepts an event exactly when every constraint the
    filter carries holds: the id, the kind and the author are in the lists
    given; [created_at] is at or after a non-zero [since] and at or before
    a non-zero [until]; and for each tag constraint, one of the wanted
    values is the second element of a tag of that name. *)
Theorem matchFilter_satisfies (evt : NostrEvent) (f : NostrFilter) :
  matchFilter evt f = true <-> satisfies evt f.
Proof. exact (matchFilter_satisfies_holds evt f). Qed.

(** X3: the edges of [matchFilter]. A filter without constraints accepts
    every event. A filter that gives an empty list for [ids], [kinds],
    [authors] or a tag accepts none. A [since] or an [until] of 0 is not
    applied. *)
Theorem matchFilter_edges (evt : NostrEvent) : filter_edges evt.
Proof.
  split; [reflexivity|]. split.
  - intros f Hf. rewrite matchFilter_checks.
    destruct Hf as [H|[H|[H|[name H]]]].
    + now rewrite H.
    + rewrite H. simpl. now rewrite andb_false_r.
    + rewrite H. simpl. now rewrite !andb_false_r.
    + assert (Hfalse : forallb (fun '(tagName, want) =>
                          existsb (includes_tagval (tag_values evt tagName)) want)
                         (tag_filters f) = false).
      { destruct (forallb _ _) eqn:E; [|reflexivity].
        rewrite forallb_forall in E. specialize (E (name, []) H). discriminate E. }
      rewrite Hfalse. now rewrite !andb_false_r.
  - intros f. rewrite !matchFilter_checks. cbn [ids kinds authors since until tag_filters].
    do 3 f_equal.
    destruct (decide (since f = Some 0)) as [->|Hs];
      destruct (decide (until f = Some 0)) as [->|Hu]; reflexivity.
Qed.

Lemma firstn_subset {A} (n : nat) (l : list A) (x : A) :
  In x (firstn n l) -> In x l.
Proof.
  revert l. induction n as [|n IH]; intros [|y l]; simpl; try tauto.
  intros [H|H]; [now left | right; now apply IH].
Qed.

Lemma backfill_In (events : list NostrEvent) (f : NostrFilter) (e : NostrEvent) :
  In e (backfill events f) -> In e events /\ matchFilter e f = true.
Proof.
  unfold backfill. intros H. apply firstn_subset in H. apply filter_In in H.
  destruct H as [Hin Hm]. split; [|exact Hm]. now apply in_rev.
Qed.

Lemma filter_rev_length {A} (p : A -> bool) (l : list A) :
  length (List.filter p (rev l)) = length (List.filter p l).
Proof.
  now rewrite List.filter_rev, length_rev.
Qed.

Lemma backfill_all (events : list NostrEvent) (f : NostrFilter) (e : NostrEvent) :
  Z.of_nat (length (List.filter (fun x => matchFilter x f) events)) <= filter_limit f ->
  In e events -> matchFilter e f = true -> In e (backfill events f).
Proof.
  intros Hfew Hin Hm. unfold backfill. fold (filter_limit f).
  rewrite firstn_all2 by (rewrite filter_rev_length; lia).
  apply filter_In. split; [|exact Hm]. now apply -> in_rev.
Qed.

Lemma flat_map_length_le {A B} (g : A -> list B) (n : Z) (l : list A) :
  (forall a, Z.of_nat (length (g a)) <= n) ->
  Z.of_nat (length (flat_map g l)) <= n * Z.of_nat (length l).
Proof.
  intros Hg. induction l as [|a l IH]; simpl; [lia|].
  rewrite length_app. specialize (Hg a). lia.
Qed.

(** X4: whatever the store and the filters, [queryEvents] returns only
    stored events, each accepted by one of the filters; it returns every
    stored event a filter accepts when the filter's limit is not smaller
    than the number of such events; and it never returns more than 2000
    events per filter. *)
Theorem queryEvents_sound (events : list NostrEvent) (filters : list NostrFilter) :
  query_sound events filters.
Proof.
  unfold query_sound. rewrite queryEvents_backfill. split; [|split].
  - intros e He. apply in_flat_map in He. destruct He as [f [Hf He]].
    apply backfill_In in He. destruct He as [Hin Hm]. split; [exact Hin|]. now exists f.
  - intros f Hf Hfew e Hin Hm. apply in_flat_map. exists f. split; [exact Hf|].
    now apply backfill_all.
  - apply flat_map_length_le. intros f.
    pose proof (backfill_length events f). lia.
Qed.

Lemma storeEvent_step_holds (cfg : Config) (e : NostrEvent) (st : list NostrEvent) :
  store_step cfg e st.
Proof.
  unfold store_step, storeEvent.
  assert (Hlen : Z.of_nat (length (st ++ [e])) = Z.of_nat (length st) + 1).
  { rewrite length_app. simpl. lia. }
  destruct (Z.gtb_spec (Z.of_nat (length (st ++ [e]))) (MAX_STORED_EVENTS cfg)) as [Hgt|Hle].
  - set (k := Z.to_nat (Z.of_nat (length (st ++ [e])) - MAX_STORED_EVENTS cfg)).
    split; [exists (firstn k (st ++ [e])); now rewrite firstn_skipn|].
    split; [intros H0; rewrite length_skipn; lia|].
    split.
    + intros H1. exists (skipn k st). rewrite skipn_app.
      replace (k - length st)%nat with 0%nat by lia. reflexivity.
    + intros H0. apply skipn_all2. lia.
  - split; [now exists []|]. split; [lia|]. split; [intros _; now exists st | lia].
Qed.

(** X5: one [storeEvent] on any store: the result is a tail of the old
    store followed by the new event; for a capacity that is not negative
    its length is the smaller of the old length plus one and the capacity;
    for a capacity of at least one the new event is its last element; for
    a capacity of zero or less nothing is kept. *)
Theorem storeEvent_step (cfg : Config) (e : NostrEvent) (st : list NostrEvent) :
  store_step cfg e st.
Proof. exact (storeEvent_step_holds cfg e st). Qed.

Lemma stored_event_first_holds (cfg : Config) (e : NostrEvent)
    (st : list NostrEvent) (f : NostrFilter) :
  1 <= MAX_STORED_EVENTS cfg ->
  1 <= filter_limit f ->
  matchFilter e f = true ->
  newest_first cfg e st f.
Proof.
  intros Hcap Hlim Hm. unfold newest_first.
  destruct (storeEvent_step_holds cfg e st) as [_ [_ [Hlast _]]].
  destruct (Hlast Hcap) as [older ->].
  rewrite queryEvents_backfill. simpl. rewrite app_nil_r.
  unfold backfill. fold (filter_limit f). rewrite rev_app_distr. simpl. rewrite Hm.
  destruct (Z.to_nat (filter_limit f)) as [|n] eqn:En; [lia|].
  simpl. eexists. split; [reflexivity|].
  apply List.Forall_forall. intros x Hx. apply firstn_subset in Hx.
  apply filter_In in Hx. tauto.
Qed.

(** X6: an event that has just been stored is the first answer to any
    query whose filter accepts it, when the store keeps at least one event
    and the filter's limit is at least one; in particular to the query for
    its own id, whose other answers are the older stored events with that
    id. *)
Theorem stored_event_is_first_answer (cfg : Config) (e : NostrEvent)
    (st : list NostrEvent) (f : NostrFilter) :
  1 <= MAX_STORED_EVENTS cfg ->
  1 <= filter_limit f ->
  matchFilter e f = true ->
  newest_first cfg e st f.
Proof. exact (stored_event_first_holds cfg e st f). Qed.

Lemma stored_event_is_first_answer_witness :
  (1 <= MAX_STORED_EVENTS default_config /\
   1 <= filter_limit (by_id "c") /\
   matchFilter (note "c" 3) (by_id "c") = true) /\
  newest_first default_config (note "c" 3) [note "a" 1; note "c" 2] (by_id "c").
Proof.
  assert (H1 : 1 <= MAX_STORED_EVENTS default_config) by (simpl; lia).
  assert (H2 : 1 <= filter_limit (by_id "c")) by (vm_compute; discriminate).
  assert (H3 : matchFilter (note "c" 3) (by_id "c") = true) by reflexivity.
  split; [tauto|].
  exact (stored_event_is_first_answer default_config (note "c" 3)
           [note "a" 1; note "c" 2] (by_id "c") H1 H2 H3).
Defined.

(** ** The limiter at its edges *)

Lemma round_zero : F64.round 0 = Fin 0.
Proof. vm_compute. reflexivity. Qed.

Lemma mul_zero_l (q : Q) : F64.mul (Fin 0) (Fin q) = Fin 0.
Proof.
  unfold F64.mul. rewrite (round_comp (0 * q) 0) by apply Qmult_0_l. exact round_zero.
Qed.

Lemma elapsed_none : F64.div (F64.of_Z 0) (Fin 1000) = Fin 0.
Proof. vm_compute. reflexivity. Qed.

Lemma Qmin_inject (a b : Z) : Qmin (inject_Z a) (inject_Z b) = inject_Z (Z.min a b).
Proof.
  unfold Qmin, GenericMinMax.gmin, Qcompare, Z.min. simpl. rewrite !Z.mul_1_r.
  destruct (a ?= b); reflexivity.
Qed.

(** Nothing is refilled at the instant the bucket was written. *)
Lemma refill_same_instant (rl : RateLimiter) (b : Bucket) (t : Z) (m B : nat) :
  burst rl = inject_Z (Z.of_nat B) -> (m <= B)%nat -> Z.of_nat B <= 2 ^ 53 ->
  tokens b = Fin (inject_Z (Z.of_nat m)) -> last b = t ->
  refill rl b t = Fin (inject_Z (Z.of_nat m)).
Proof.
  intros Hb Hm HB Htok Hlast. unfold refill.
  rewrite Hlast, Z.sub_diag, elapsed_none, mul_zero_l, Htok, Hb.
  unfold F64.add. rewrite (round_integer _ (Z.of_nat m)).
  - cbn [Js.min]. rewrite Qmin_inject. do 2 f_equal. lia.
  - ring.
  - lia.
Qed.

Lemma sub_one (m : Z) :
  1 <= m <= 2 ^ 53 -> F64.sub (Fin (inject_Z m)) (Fin 1) = Fin (inject_Z (m - 1)).
Proof.
  intros Hm. unfold F64.sub, F64.opp, F64.add. apply round_integer; [|lia].
  unfold Zminus. rewrite inject_Z_plus. reflexivity.
Qed.

Lemma lt_one_inject (m : nat) :
  Js.lt (Fin (inject_Z (Z.of_nat m))) (Fin 1) = true <-> m = 0%nat.
Proof.
  rewrite Js_lt_Fin. change 1%Q with (inject_Z 1). rewrite <- Zlt_Qlt. lia.
Qed.

Lemma same_instant_run (key : string) (t : Z) (B : nat) (n : nat) :
  Z.of_nat B <= 2 ^ 53 ->
  forall (rl : RateLimiter) (m : nat),
    (m <= B)%nat -> tokens_left rl key t B m ->
    fst (allow_all rl (repeat (key, t) n))
    = repeat true (Nat.min n m) ++ repeat false (n - m).
Proof.
  intros HB. induction n as [|n IH]; intros rl m Hm [Hb Hstate]; [reflexivity|].
  cbn [repeat allow_all].
  set (b := default (mkBucket (Fin (burst rl)) t) (buckets rl !! key)).
  assert (Href : refill rl b t = Fin (inject_Z (Z.of_nat m))).
  { unfold b. destruct (buckets rl !! key) as [b0|]; simpl.
    - destruct Hstate as [Htok Hlast]. now apply (refill_same_instant rl b0 t m B).
    - subst m. apply (refill_same_instant rl _ t B B); try reflexivity; try lia.
      + exact Hb.
      + cbn [tokens]. now rewrite Hb. }
  destruct (allow_cases rl key t) as [[Ht Hallow]|[Ht Hallow]]; fold b in Ht, Hallow;
    rewrite Hallow; rewrite Href in Ht |- *.
  - assert (Hm1 : (1 <= m)%nat).
    { destruct m as [|m]; [|lia]. exfalso.
      assert (Js.lt (Fin (inject_Z (Z.of_nat 0))) (Fin 1) = true) by now apply lt_one_inject.
      congruence. }
    rewrite sub_one by lia.
    specialize (IH (mkLimiter (rps rl) (burst rl)
                      (<[key := mkBucket (Fin (inject_Z (Z.of_nat m - 1))) t]> (buckets rl)))
                   (m - 1)%nat ltac:(lia)).
    destruct (allow_all _ (repeat (key, t) n)) as [oks rl''].
    cbn [fst] in *. rewrite IH.
    + destruct m as [|m]; [lia|]. cbn [Nat.min repeat app].
      now replace (S m - 1)%nat with m by lia.
    + split; [exact Hb|]. cbn [buckets]. rewrite lookup_insert_eq. cbn [tokens last].
      split; [|reflexivity]. do 2 f_equal. lia.
  - apply lt_one_inject in Ht. subst m.
    specialize (IH (mkLimiter (rps rl) (burst rl)
                      (<[key := mkBucket (Fin (inject_Z (Z.of_nat 0))) t]> (buckets rl)))
                   0%nat ltac:(lia)).
    destruct (allow_all _ (repeat (key, t) n)) as [oks rl''].
    cbn [fst] in *. rewrite IH.
    + rewrite Nat.min_0_r, !Nat.sub_0_r. reflexivity.
    + split; [exact Hb|]. cbn [buckets]. rewrite lookup_insert_eq. cbn [tokens last].
      split; reflexivity.
Qed.

(** X7: a key the limiter has not seen yet, called [n] times at one
    instant, is admitted exactly [min(n, burst)] times, the admissions
    coming first, for a whole-number capacity that a double holds exactly
    (at most 2^53) and any refill rate. *)
Theorem fresh_key_gets_burst (rate : Q) (B : nat) (key : string) (t : Z) (n : nat) :
  Z.of_nat B <= 2 ^ 53 ->
  fst (allow_all (new_RateLimiter rate (inject_Z (Z.of_nat B))) (repeat (key, t) n))
  = repeat true (Nat.min n B) ++ repeat false (n - B).
Proof.
  intros HB. apply (same_instant_run key t B n HB); [lia|].
  split; reflexivity.
Qed.

(** Beyond 2^53 a whole number of tokens need not go down by one: a bucket
    of 2^54 tokens still holds 2^54 after an admission. *)
Example large_bucket_keeps_its_tokens :
  let rl := new_RateLimiter 3 (inject_Z (2 ^ 54)) in
  fst (allow rl "ip:10.0.0.1" 5000) = true /\
  tokens <$> buckets (snd (allow rl "ip:10.0.0.1" 5000)) !! "ip:10.0.0.1"
  = Some (Fin (inject_Z (2 ^ 54))).
Proof. vm_compute. split; reflexivity. Qed.

Lemma fresh_key_gets_burst_witness :
  Z.of_nat 10 <= 2 ^ 53 /\
  fst (allow_all (new_RateLimiter 3 (inject_Z (Z.of_nat 10))) (repeat ("ip:10.0.0.1", 5000) 15))
  = repeat true (Nat.min 15 10) ++ repeat false (15 - 10).
Proof.
  assert (H : Z.of_nat 10 <= 2 ^ 53) by (vm_compute; discriminate).
  split; [exact H|].
  exact (fresh_key_gets_burst 3 10 "ip:10.0.0.1" 5000 15 H).
Defined.

Lemma min_at_least_one (cap : Q) (x : number) :
  (1 <= cap)%Q -> at_least 1 x -> Js.lt (Js.min (Fin cap) x) (Fin 1) = false.
Proof.
  intros Hcap Hx. destruct (at_least_cases 1 x Hx) as [[y [-> Hy]]| ->]; cbn [Js.min].
  - apply Js_lt_Fin_false. now apply Q.min_glb.
  - now apply Js_lt_Fin_false.
Qed.

(** X8: a key is admitted whenever the capacity is at least one token and
    either the limiter has no bucket for it, or its bucket holds no debt
    and the time since it was written, taken in seconds as the double the
    code computes, is worth at least one token. *)
Theorem admitted_after_wait (rl : RateLimiter) (key : string) (nowMs : Z) :
  (1 <= burst rl)%Q ->
  waited_one_token rl key nowMs ->
  fst (allow rl key nowMs) = true.
Proof.
  intros Hburst Hbucket.
  destruct (allow_cases rl key nowMs) as [[_ ->]|[Ht _]]; [reflexivity|].
  exfalso. unfold refill in Ht. rewrite min_at_least_one in Ht; [discriminate | exact Hburst |].
  unfold waited_one_token in Hbucket.
  destruct (buckets rl !! key) as [b|]; simpl.
  - destruct Hbucket as [t [e [Htok [Ht0 [He Hwait]]]]]. unfold elapsed_seconds in He.
    rewrite Htok, He. apply add_at_least; [exact representable_one | exact Ht0 |].
    apply round_at_least; [exact representable_one | exact Hwait].
  - rewrite Z.sub_diag, elapsed_none, mul_zero_l.
    apply round_at_least; [exact representable_one | lra].
Qed.

Lemma admitted_after_wait_witness :
  ((1 <= burst drained_limiter)%Q /\ waited_one_token drained_limiter "pub:alice" 5500) /\
  fst (allow drained_limiter "pub:alice" 5500) = true.
Proof.
  assert (H1 : (1 <= burst drained_limiter)%Q) by (simpl; lra).
  assert (H2 : waited_one_token drained_limiter "pub:alice" 5500).
  { exists 0%Q, (1 # 2)%Q. split; [reflexivity|]. split; [apply Qle_refl|].
    split; [vm_compute; reflexivity | vm_compute; discriminate]. }
  split; [split; assumption|].
  exact (admitted_after_wait drained_limiter "pub:alice" 5500 H1 H2).
Defined.

(** The time that is worth one token in exact arithmetic need not do:
    with this rate, 469 milliseconds are worth more than one token, and
    the call is denied, because the double nearest 0.469 is below it. *)
Example exact_wait_is_not_enough :
  (1 <= rps odd_limiter * seconds (469 - 0))%Q /\
  fst (allow odd_limiter "pub:alice" 469) = false.
Proof. split; [vm_compute; discriminate | vm_compute; reflexivity]. Qed.

(** X9: from a bucket that holds no debt and was written at or before the
    call, no more than 2^53 milliseconds before it, with a rate and a
    capacity that are not negative, the capacity being a double, [allow]
    leaves for the key a bucket stamped with the time of the call that
    holds at least zero tokens and at most the capacity. *)
Theorem allow_keeps_bucket_in_range (rl : RateLimiter) (key : string) (nowMs : Z) :
  (0 <= rps rl)%Q -> (0 <= burst rl)%Q -> F64.representable (burst rl) ->
  bucket_behind rl key nowMs ->
  bucket_in_range rl key nowMs.
Proof.
  intros Hrps Hburst Hrep Hset. unfold bucket_in_range.
  set (b := default (mkBucket (Fin (burst rl)) nowMs) (buckets rl !! key)).
  assert (Hb : exists x, refill rl b nowMs = Fin x /\ (0 <= x)%Q /\ (x <= burst rl)%Q).
  { apply refill_in_range; try assumption; unfold b, bucket_behind in *;
      destruct (buckets rl !! key) as [b0|]; simpl; try tauto.
    - now apply Js_le_Fin.
    - rewrite Z.sub_diag. split; [lia | vm_compute; discriminate]. }
  destruct Hb as [x [Hx [Hx0 Hx1]]].
  destruct (allow_cases rl key nowMs) as [[Hr ->]|[Hr ->]]; fold b in Hr |- *;
    cbn [snd buckets]; rewrite lookup_insert_eq; eexists; (split; [reflexivity|]);
    cbn [tokens last]; rewrite Hx in Hr |- *.
  - apply Js_lt_Fin_false in Hr. unfold F64.sub, F64.opp, F64.add.
    split; [apply round_lower; [lra | exact representable_zero]|].
    split; [apply round_upper; [lra | exact Hrep] | reflexivity].
  - split; [now apply Js_le_Fin|]. split; [now apply Js_le_Fin | reflexivity].
Qed.

Lemma allow_keeps_bucket_in_range_witness :
  ((0 <= rps drained_limiter)%Q /\ (0 <= burst drained_limiter)%Q /\
   F64.representable (burst drained_limiter) /\
   bucket_behind drained_limiter "pub:alice" 5200) /\
  bucket_in_range drained_limiter "pub:alice" 5200.
Proof.
  assert (H1 : (0 <= rps drained_limiter)%Q) by (simpl; lra).
  assert (H2 : (0 <= burst drained_limiter)%Q) by (simpl; lra).
  assert (H3 : F64.representable (burst drained_limiter)) by (vm_compute; reflexivity).
  assert (H4 : bucket_behind drained_limiter "pub:alice" 5200)
    by (vm_compute; repeat split; discriminate).
  split; [tauto|].
  exact (allow_keeps_bucket_in_range drained_limiter "pub:alice" 5200 H1 H2 H3 H4).
Defined.

(** ** What the handler does with the other events *)

(** X10: an event that is not accepted (it fails verification, or one of
    the two limiters denies it) gets one [OK false] answer and changes
    neither the store nor the cache; an event that fails verification
    changes nothing at all, so it costs its sender no token. *)
Theorem refused_event_changes_no_data (cfg : Config) (rt : Runtime)
    (ws : ExtendedWebSocket) (evt : NostrEvent) (now : Z) (r : Relay) :
  ~ accepted rt ws evt now r ->
  refused cfg rt ws evt now r.
Proof.
  intros Hnot. unfold refused, onEVENT.
  destruct (verifyEvent rt evt) eqn:Hver; cbn [negb].
  2:{ eexists _, _. split; [reflexivity|]. repeat split. }
  destruct (allow (ipLimiter r) ("ip:" ++ ip ws)%string now) as [ok_ip ipl] eqn:Hip.
  destruct ok_ip; cbn [negb].
  2:{ eexists _, _. split; [reflexivity|]. repeat split; discriminate. }
  change (pubLimiter (set_ipLimiter ipl r)) with (pubLimiter r).
  destruct (allow (pubLimiter r) ("pub:" ++ pubkey evt)%string now) as [ok_pub publ] eqn:Hpub.
  destruct ok_pub; cbn [negb].
  2:{ eexists _, _. split; [reflexivity|]. repeat split; discriminate. }
  exfalso. apply Hnot. unfold accepted. rewrite Hip, Hpub. now repeat split.
Qed.

Lemma refused_event_changes_no_data_witness :
  ~ accepted example_runtime open_socket unsigned_note 5000 fresh_relay /\
  refused default_config example_runtime open_socket unsigned_note 5000 fresh_relay.
Proof.
  assert (H : ~ accepted example_runtime open_socket unsigned_note 5000 fresh_relay).
  { intros [Hver _]. vm_compute in Hver. discriminate Hver. }
  split; [exact H|].
  exact (refused_event_changes_no_data default_config example_runtime open_socket
           unsigned_note 5000 fresh_relay H).
Defined.

(** X11: an accepted event of a kind other than 38000 is stored and
    acknowledged, and that is all: the run broadcasts nothing (no other
    client is told of the event), starts no fetch and leaves the cache as
    it was. *)
Theorem other_kinds_are_stored_only (cfg : Config) (rt : Runtime)
    (ws : ExtendedWebSocket) (evt : NostrEvent) (now : Z) (r : Relay) :
  accepted rt ws evt now r ->
  kind evt <> KIND_PRICE_REQ ->
  stored_only cfg rt ws evt now r.
Proof.
  intros Hacc Hkind. unfold stored_only.
  rewrite (onEVENT_accepted cfg rt ws evt now r Hacc).
  destruct (Z.eqb_spec (kind evt) KIND_PRICE_REQ); [contradiction|].
  eexists. split; [reflexivity|]. split; reflexivity.
Qed.

Lemma other_kinds_are_stored_only_witness :
  (accepted example_runtime open_socket text_note 5000 fresh_relay /\
   kind text_note <> KIND_PRICE_REQ) /\
  stored_only default_config example_runtime open_socket text_note 5000 fresh_relay.
Proof.
  assert (H1 : accepted example_runtime open_socket text_note 5000 fresh_relay)
    by (repeat split; vm_compute; reflexivity).
  assert (H2 : kind text_note <> KIND_PRICE_REQ) by discriminate.
  split; [tauto|].
  exact (other_kinds_are_stored_only default_config example_runtime open_socket
           text_note 5000 fresh_relay H1 H2).
Defined.

Lemma emit_relay_signed (cfg : Config) (rt : Runtime) (r r0 : Relay) (now : Z)
    (params : EventTemplate) :
  RELAY_SECRET_KEY r = RELAY_SECRET_KEY r0 ->
  t_kind params = KIND_PRICE_RES \/ t_kind params = KIND_PRICE_ERR ->
  broadcasts_relay_signed rt r0 now (effects (emit cfg rt r now params)).
Proof.
  intros Hkey Hkind msg. unfold emit, signEvent.
  destruct (RELAY_SECRET_KEY r) as [sk|] eqn:Hsk; simpl; [|tauto].
  rewrite finalizeEvent_cases. destruct (tags_are_strings _); simpl; [|tauto].
  intros [H|[]]. injection H as <-. eexists. split; [reflexivity|].
  exists sk. split; [congruence|]. now repeat split.
Qed.

Lemma no_broadcast_relay_signed (rt : Runtime) (r : Relay) (now : Z) (out : list Effect) :
  (forall msg, ~ In (Broadcast msg) out) -> broadcasts_relay_signed rt r now out.
Proof. intros H msg Hin. destruct (H msg Hin). Qed.

Lemma send_no_broadcast (ws : ExtendedWebSocket) (m msg : RelayMsg) :
  ~ In (Broadcast msg) (send ws m).
Proof. unfold send. destruct (readyState ws); simpl; intuition discriminate. Qed.

Lemma price_request_relay_signed (cfg : Config) (rt : Runtime) (r r0 : Relay)
    (evt : NostrEvent) (now : Z) :
  RELAY_SECRET_KEY r = RELAY_SECRET_KEY r0 ->
  broadcasts_relay_signed rt r0 now (effects (handlePriceRequest cfg rt r evt now)).
Proof.
  intros Hkey. unfold handlePriceRequest.
  destruct (is_BTC_USD (req_pair evt)); cbn [negb].
  2:{ rewrite effects_finish. apply (emit_relay_signed cfg rt r r0); [exact Hkey | now right]. }
  assert (Hfan : forall sources, broadcasts_relay_signed rt r0 now (List.map Fetch sources)).
  { intros sources. apply no_broadcast_relay_signed. intros msg.
    apply fetch_is_no_broadcast. }
  destruct (cacheGet cfg now (priceCache r)) as [cached|]; [|apply Hfan].
  destruct (Js.le _ _); [|apply Hfan].
  destruct (aggregate _ _) as [a|m].
  - rewrite effects_finish. apply (emit_relay_signed cfg rt r r0); [exact Hkey | now left].
  - apply no_broadcast_relay_signed. intros msg [].
Qed.

Lemma broadcasts_after (rt : Runtime) (r : Relay) (now : Z) (ws : ExtendedWebSocket)
    (m : RelayMsg) (o : Outcome Step) :
  broadcasts_relay_signed rt r now (effects o) ->
  broadcasts_relay_signed rt r now (effects (after (send ws m) o)).
Proof.
  intros H msg Hin. apply H.
  destruct o; cbn [after effects] in *; apply in_app_or in Hin;
    (destruct Hin as [Hin|Hin]; [now apply send_no_broadcast in Hin | exact Hin]).
Qed.

(** X12: whatever the frame, the only messages a run hands to
    [broadcast] are events the relay itself has signed in that run: price
    responses and price errors under the relay's public key, dated with
    the run's clock. No event received from a client is ever passed on. *)
Theorem only_relay_events_are_broadcast (cfg : Config) (rt : Runtime) :
  only_own_events_broadcast cfg rt.
Proof.
  split.
  - intros ws raw now r. unfold onMessage.
    destruct (_ >? _); cbn [snd].
    { apply no_broadcast_relay_signed. intros msg. apply send_no_broadcast. }
    destruct (parsed raw) as [evt|subId filters|subId|]; cbn [snd].
    + unfold onEVENT. destruct (verifyEvent rt evt); cbn [negb].
      2:{ apply no_broadcast_relay_signed. intros msg. apply send_no_broadcast. }
      destruct (allow (ipLimiter r) _ now) as [[|] ipl]; cbn [negb].
      2:{ apply no_broadcast_relay_signed. intros msg. apply send_no_broadcast. }
      destruct (allow (pubLimiter _) _ now) as [[|] publ]; cbn [negb].
      2:{ apply no_broadcast_relay_signed. intros msg. apply send_no_broadcast. }
      destruct (kind evt =? KIND_PRICE_REQ).
      2:{ apply no_broadcast_relay_signed. intros msg. apply send_no_broadcast. }
      apply broadcasts_after. now apply price_request_relay_signed.
    + unfold onREQ. cbn [snd effects]. apply no_broadcast_relay_signed.
      intros msg Hin. apply in_app_or in Hin. destruct Hin as [Hin|Hin].
      * apply in_flat_map in Hin. destruct Hin as [e [_ Hin]].
        now apply send_no_broadcast in Hin.
      * now apply send_no_broadcast in Hin.
    + apply no_broadcast_relay_signed. intros msg [].
    + apply no_broadcast_relay_signed. intros msg [].
  - intros r k upstream now. unfold resumePriceRequest.
    destruct (_ <? MIN_QUORUM cfg).
    + apply (emit_relay_signed cfg rt r r); [reflexivity | now right].
    + destruct (aggregate _ _) as [a|m].
      * apply (emit_relay_signed cfg rt _ r); [reflexivity | now left].
      * apply no_broadcast_relay_signed. intros msg [].
Qed.

(** ** Fetches, quorum and the cache *)

Lemma state_of_emit (cfg : Config) (rt : Runtime) (r : Relay) (now : Z)
    (params : EventTemplate) :
  priceCache (state_of (emit cfg rt r now params)) = priceCache r /\
  RELAY_SECRET_KEY (state_of (emit cfg rt r now params)) = RELAY_SECRET_KEY r.
Proof. unfold emit. destruct (signEvent _ _ _); split; reflexivity. Qed.

Lemma settle_from_samples (upstream : nat -> string -> option Q) (sources : list string)
    (ts0 : Z) :
  forall i,
    (length (omap (fun x => x) (settle_from upstream i sources ts0)) <= length sources)%nat /\
    Forall (fun s => In (source s) sources /\ In (source s) ALL_SOURCES /\ ts s = ts0)
           (omap (fun x => x) (settle_from upstream i sources ts0)).
Proof.
  induction sources as [|src sources IH]; intros i; [split; [reflexivity | constructor]|].
  destruct (IH (S i)) as [Hlen Hall].
  assert (Hall' : Forall (fun s => In (source s) (src :: sources) /\
                                   In (source s) ALL_SOURCES /\ ts s = ts0)
                         (omap (fun x => x) (settle_from upstream (S i) sources ts0))).
  { eapply List.Forall_impl; [|exact Hall]. intros s [H1 H2]. split; [now right | exact H2]. }
  cbn [settle_from]. unfold fetchPrice.
  destruct (includes_str ALL_SOURCES src) eqn:Hsrc; [destruct (upstream i src) as [price|]|].
  - cbn [omap list_omap]. split; [simpl; lia|].
    constructor; [|exact Hall']. cbn [source ts]. split; [now left|]. split; [|reflexivity].
    now apply includes_str_In.
  - cbn [omap list_omap]. split; [simpl; lia | exact Hall'].
  - cbn [omap list_omap]. split; [simpl; lia | exact Hall'].
Qed.

Lemma quorum_decides_the_cache_holds (cfg : Config) (rt : Runtime) (r : Relay) (k : Pending)
    (upstream : nat -> string -> option Q) (now : Z) :
  cache_after_fetch cfg rt r k upstream now.
Proof.
  unfold cache_after_fetch, resumePriceRequest, fetched.
  set (samples := omap (fun x => x) (settle_from upstream 0 (p_sources k) (p_ts k))).
  destruct (settle_from_samples upstream (p_sources k) (p_ts k) 0) as [Hlen Hall].
  fold samples in Hlen, Hall.
  destruct (Z.ltb_spec (Z.of_nat (length samples)) (MIN_QUORUM cfg)) as [Hlt|Hge].
  - split; [intros _; apply state_of_emit|]. split; [lia|]. split; assumption.
  - split; [lia|]. split; [|split; assumption]. intros _.
    destruct (aggregate samples (p_method k)) as [a|m]; [|reflexivity].
    now rewrite (proj1 (state_of_emit cfg rt _ now _)).
Qed.

(** X13: when the fetches of a request have settled, a quorum that is
    not met leaves the cache as it was, and a quorum that is met replaces
    the cache entry by the fetched samples, stamped with the time at which
    the run resumed. The samples are at most one per requested source;
    each names a requested, recognized source and carries the time at
    which the fetches were started. *)
Theorem quorum_decides_the_cache (cfg : Config) (rt : Runtime) (r : Relay) (k : Pending)
    (upstream : nat -> string -> option Q) (now : Z) :
  cache_after_fetch cfg rt r k upstream now.
Proof. exact (quorum_decides_the_cache_holds cfg rt r k upstream now). Qed.

(** X14: once a request's fetches have met the quorum, a later request
    for BTC-USD whose clock is within CACHE_TTL_MS and within its own
    [maxAgeMs] of that moment starts no fetch: it is answered from the
    same samples, aggregated with its own method, with [cache.hit = true]
    and the elapsed time as [cache.ageMs]. *)
Theorem later_request_served_from_fetch (cfg : Config) (rt : Runtime) (r : Relay)
    (k : Pending) (upstream : nat -> string -> option Q) (now1 : Z)
    (evt2 : NostrEvent) (now2 : Z) :
  1 <= MIN_QUORUM cfg ->
  MIN_QUORUM cfg <= Z.of_nat (length (fetched k upstream)) ->
  is_BTC_USD (req_pair evt2) = true ->
  now2 - now1 <= CACHE_TTL_MS cfg ->
  Js.le (Fin (inject_Z (now2 - now1))) (req_maxAgeMs cfg rt evt2) = true ->
  served_from_fetch cfg rt r k upstream now1 evt2 now2.
Proof.
  intros Hq Hmet Hpair Httl Hage. unfold served_from_fetch.
  destruct (quorum_decides_the_cache_holds cfg rt r k upstream now1) as [_ [Hset _]].
  specialize (Hset Hmet).
  set (r1 := state_of (resumePriceRequest cfg rt r k upstream now1)) in *.
  assert (Hne : fetched k upstream <> []).
  { intros Hnil. rewrite Hnil in Hmet. simpl in Hmet. lia. }
  destruct (aggregate_returns (fetched k upstream) (req_method rt evt2) Hne) as [a Ha].
  exists a. split; [exact Ha|].
  assert (Hrun : handlePriceRequest cfg rt r1 evt2 now2
                 = finish (emit cfg rt r1 now2
                             (response_params evt2 (req_pair evt2) now2 a true (now2 - now1)))).
  { unfold handlePriceRequest. rewrite Hpair, Hset. cbn [negb cacheGet tsMs samples].
    destruct (Z.gtb_spec (now2 - now1) (CACHE_TTL_MS cfg)); [lia|].
    cbn [ageMs hit_samples]. now rewrite Hage, Ha. }
  split; [exact Hrun|]. rewrite Hrun, effects_finish. unfold emit.
  destruct (signEvent _ _ _); reflexivity.
Qed.

Lemma later_request_served_from_fetch_witness :
  (1 <= MIN_QUORUM default_config /\
   MIN_QUORUM default_config <= Z.of_nat (length (fetched all_sources_pending steady_upstream)) /\
   is_BTC_USD (req_pair second_request) = true /\
   5500 - 5100 <= CACHE_TTL_MS default_config /\
   Js.le (Fin (inject_Z (5500 - 5100))) (req_maxAgeMs default_config example_runtime
                                           second_request) = true) /\
  served_from_fetch default_config example_runtime fresh_relay all_sources_pending
                    steady_upstream 5100 second_request 5500.
Proof.
  assert (H1 : 1 <= MIN_QUORUM default_config) by (simpl; lia).
  assert (H2 : MIN_QUORUM default_config
               <= Z.of_nat (length (fetched all_sources_pending steady_upstream)))
    by (vm_compute; discriminate).
  assert (H3 : is_BTC_USD (req_pair second_request) = true) by reflexivity.
  assert (H4 : 5500 - 5100 <= CACHE_TTL_MS default_config) by (simpl; lia).
  assert (H5 : Js.le (Fin (inject_Z (5500 - 5100)))
                 (req_maxAgeMs default_config example_runtime second_request) = true)
    by (vm_compute; reflexivity).
  split; [tauto|].
  exact (later_request_served_from_fetch default_config example_runtime fresh_relay
           all_sources_pending steady_upstream 5100 second_request 5500 H1 H2 H3 H4 H5).
Defined.

Lemma src_tag_values (rt : Runtime) (evt : NostrEvent) (pair : json) (now : Z)
    (a : Aggregate) (hit : bool) (age t : Z) (sk : string) :
  tag_values (finalized rt t (response_params evt pair now a hit age) sk) "src"
  = List.map (fun s => Some (JStr (source s))) (agg_used a).
Proof.
  unfold tag_values. cbn [tags finalized response_params t_tags].
  rewrite List.filter_app.
  assert (Hhead : List.filter (fun t : list json =>
                                 match t with
                                 | JStr n :: _ => String.eqb n "src"
                                 | _ => false
                                 end) (reply_tags evt "price" pair) = []) by reflexivity.
  rewrite Hhead. cbn [app].
  induction (agg_used a) as [|s used IH]; [reflexivity|].
  simpl in *. now f_equal.
Qed.

Lemma response_is_consistent (rt : Runtime) (evt : NostrEvent) (pair : json) (now : Z)
    (a : Aggregate) (hit : bool) (age t : Z) (sk : string) :
  agg_used a <> [] ->
  response_consistent (finalized rt t (response_params evt pair now a hit age) sk).
Proof.
  intros Hne. exists (agg_used a). split; [exact Hne|].
  split; [apply src_tag_values|]. split; reflexivity.
Qed.

Lemma aggregate_used_nonempty (samples : list PriceSample) (method : string) (a : Aggregate) :
  aggregate samples method = Ok a -> agg_used a <> [].
Proof.
  intros Ha. destruct samples as [|s0 samples]; [discriminate Ha|].
  destruct (aggregate_sound_holds (s0 :: samples) method) as [_ H].
  destruct (H ltac:(discriminate)) as [a' [Ha' [Hne _]]]. congruence.
Qed.

(** X15: in every price response the relay broadcasts, the "src" tags,
    the [sources_used] member and the [samples] member of the content list
    the same samples, in the same order, and there is at least one. *)
Theorem broadcast_responses_are_consistent (cfg : Config) (rt : Runtime) :
  responses_consistent cfg rt.
Proof.
  split.
  - intros r evt now e Hin Hkind. unfold handlePriceRequest in Hin.
    destruct (is_BTC_USD (req_pair evt)); cbn [negb] in Hin.
    2:{ rewrite effects_finish in Hin. apply emit_effects in Hin.
        destruct Hin as [sk ->]. discriminate Hkind. }
    destruct (cacheGet cfg now (priceCache r)) as [cached|].
    2:{ now apply fetch_is_no_broadcast in Hin. }
    destruct (Js.le _ _).
    2:{ now apply fetch_is_no_broadcast in Hin. }
    destruct (aggregate _ _) as [a|m] eqn:Ha; [|destruct Hin].
    rewrite effects_finish in Hin. apply emit_effects in Hin. destruct Hin as [sk ->].
    apply response_is_consistent. now apply aggregate_used_nonempty in Ha.
  - intros r k upstream now e Hin Hkind. unfold resumePriceRequest in Hin.
    destruct (_ <? MIN_QUORUM cfg).
    + apply emit_effects in Hin. destruct Hin as [sk ->]. discriminate Hkind.
    + destruct (aggregate _ _) as [a|m] eqn:Ha; [|destruct Hin].
      apply emit_effects in Hin. destruct Hin as [sk ->].
      apply response_is_consistent. now apply aggregate_used_nonempty in Ha.
Qed.

Lemma settle_repeat (upstream : nat -> string -> option Q) (src : string) (price : Q)
    (ts0 : Z) (n : nat) :
  In src ALL_SOURCES -> (forall i, upstream i src = Some price) ->
  forall i, omap (fun x => x) (settle_from upstream i (repeat src n) ts0)
            = repeat (mkSample src price ts0) n.
Proof.
  intros Hsrc Hup. apply includes_str_In in Hsrc.
  induction n as [|n IH]; intros i; [reflexivity|].
  cbn [repeat settle_from]. unfold fetchPrice. rewrite Hsrc, Hup.
  cbn [omap list_omap]. now rewrite IH.
Qed.

(** X16: the quorum counts samples, not sources. A request whose source
    list is one recognized source repeated [n] times, with [n] at least
    MIN_QUORUM and every fetch fulfilled, is answered with a price
    response, and the cache then holds [n] samples of that one source.
    The pair a waiting request carries is a string (it is "BTC-USD"). *)
Theorem repeated_source_meets_quorum (cfg : Config) (rt : Runtime) (r : Relay)
    (k : Pending) (upstream : nat -> string -> option Q) (now : Z)
    (src : string) (n : nat) (price : Q) :
  relay_ready r ->
  is_string (p_pair k) = true ->
  In src ALL_SOURCES ->
  p_sources k = repeat src n ->
  (1 <= n)%nat -> MIN_QUORUM cfg <= Z.of_nat n ->
  (forall i, upstream i src = Some price) ->
  repeated_source_quorum cfg rt r k upstream now src n price.
Proof.
  intros Hready Hpair Hsrc Hk Hn Hq Hup. unfold repeated_source_quorum.
  destruct (ready_key r Hready) as [sk Hsk].
  unfold resumePriceRequest. rewrite Hk, (settle_repeat upstream src price _ n Hsrc Hup).
  rewrite repeat_length.
  destruct (Z.ltb_spec (Z.of_nat n) (MIN_QUORUM cfg)); [lia|].
  destruct (aggregate_returns (repeat (mkSample src price (p_ts k)) n) (p_method k)) as [a ->].
  { destruct n; [lia | discriminate]. }
  rewrite (emit_signed cfg rt (set_priceCache _ r) now _ sk Hsk)
    by now rewrite response_tags_strings.
  eexists _, _. split; [reflexivity|]. split; reflexivity.
Qed.

Lemma repeated_source_meets_quorum_witness :
  (relay_ready fresh_relay /\ is_string (p_pair kraken_thrice) = true /\
   In "kraken" ALL_SOURCES /\
   p_sources kraken_thrice = repeat "kraken" 3 /\
   (1 <= 3)%nat /\ MIN_QUORUM default_config <= Z.of_nat 3 /\
   (forall i, steady_upstream i "kraken" = Some 60000%Q)) /\
  repeated_source_quorum default_config example_runtime fresh_relay kraken_thrice
                         steady_upstream 5100 "kraken" 3 60000.
Proof.
  assert (H1 : relay_ready fresh_relay) by apply initial_relay_ready.
  assert (H0 : is_string (p_pair kraken_thrice) = true) by reflexivity.
  assert (H2 : In "kraken" ALL_SOURCES) by (simpl; tauto).
  assert (H3 : p_sources kraken_thrice = repeat "kraken" 3) by reflexivity.
  assert (H4 : (1 <= 3)%nat) by lia.
  assert (H5 : MIN_QUORUM default_config <= Z.of_nat 3) by (simpl; lia).
  assert (H6 : forall i, steady_upstream i "kraken" = Some 60000%Q) by reflexivity.
  split; [tauto|].
  exact (repeated_source_meets_quorum default_config example_runtime fresh_relay
           kraken_thrice steady_upstream 5100 "kraken" 3 60000 H1 H0 H2 H3 H4 H5 H6).
Defined.

(** ** Retries and fetchers *)

Lemma retry_from_outcome {A} (attempt : nat -> result A) (rounds : nat) :
  forall (i : nat) (lastErr : option string),
    match retry_from attempt i rounds lastErr with
    | (Fulfilled a, calls) =>
        (i < calls <= i + rounds)%nat /\ attempt (calls - 1)%nat = Ok a /\
        all_throw attempt i (calls - 1)
    | (Rejected err, calls) =>
        calls = (i + rounds)%nat /\ all_throw attempt i (i + rounds) /\
        err = match rounds with
              | O => lastErr
              | S j => thrown_at attempt (i + j)
              end
    end.
Proof.
  induction rounds as [|rounds IH]; intros i lastErr; cbn [retry_from].
  - split; [lia|]. split; [|reflexivity]. intros j Hj. lia.
  - destruct (attempt i) as [a|e] eqn:Hi.
    + split; [lia|]. replace (S i - 1)%nat with i by lia.
      split; [exact Hi|]. intros j Hj. lia.
    + specialize (IH (S i) (Some e)).
      destruct (retry_from attempt (S i) rounds (Some e)) as [[a|err] calls].
      * destruct IH as [Hc [Ha Hall]]. split; [lia|]. split; [exact Ha|].
        intros j Hj. destruct (Nat.eq_dec j i) as [->|Hne]; [eauto|]. apply Hall. lia.
      * destruct IH as [Hc [Hall Herr]]. split; [lia|]. split.
        -- intros j Hj. destruct (Nat.eq_dec j i) as [->|Hne]; [eauto|]. apply Hall. lia.
        -- rewrite Herr. destruct rounds as [|j].
           ++ unfold thrown_at. now rewrite Nat.add_0_r, Hi.
           ++ now replace (S i + j)%nat with (i + S j)%nat by lia.
Qed.

Lemma withRetries_outcome {A} (attempt : nat -> result A) (retries : Z) :
  retry_outcome attempt retries.
Proof.
  unfold retry_outcome, withRetries.
  pose proof (retry_from_outcome attempt (Z.to_nat (retries + 1)) 0 None) as H.
  destruct (retry_from attempt 0 (Z.to_nat (retries + 1)) None) as [[a|err] calls].
  - destruct H as [Hc [Ha Hall]]. split; [lia|]. split; assumption.
  - destruct H as [Hc [Hall Herr]]. split; [exact Hc|]. split; [exact Hall|].
    rewrite Herr. destruct (Z.to_nat (retries + 1)); reflexivity.
Qed.

(** X17: [withRetries(fn, retries)] calls [fn] until a call returns,
    at most [retries + 1] times. It fulfils with the value of the first
    call that returns, every earlier call having thrown. It rejects only
    after [retries + 1] throwing calls, with what the last of them threw;
    for [retries] below zero it rejects with [undefined] without calling
    [fn]. *)
Theorem withRetries_first_success (A : Type) (attempt : nat -> result A) (retries : Z) :
  retry_outcome attempt retries.
Proof. exact (withRetries_outcome attempt retries). Qed.

Lemma url_of_recognized (source : string) :
  In source ALL_SOURCES <-> exists url, Upstream.url_of source = Some url.
Proof.
  unfold Upstream.url_of, ALL_SOURCES. split.
  - intros [<-|[<-|[<-|[<-|[]]]]]; eexists; reflexivity.
  - intros [url H]. simpl.
    destruct (String.eqb_spec source "coinbase"); [auto|].
    destruct (String.eqb_spec source "kraken"); [auto|].
    destruct (String.eqb_spec source "coingecko"); [auto|].
    destruct (String.eqb_spec source "bitstamp"); [auto 6 | discriminate].
Qed.

Lemma attempt_on_payload (rt : Runtime) (fcu : string -> option string) (ts0 : Z)
    (source : string) (j : json) (fetchJson : string -> result json) :
  In source ALL_SOURCES -> answers_with source j fetchJson ->
  Upstream.attempt rt fcu source ts0 fetchJson
  = match Upstream.price_in rt fcu source j with
    | Throw e => Throw e
    | Ok (Fin price) => Ok (mkSample source price ts0)
    | Ok _ => Throw "bad price"
    end.
Proof.
  intros Hsrc Hans. apply url_of_recognized in Hsrc. destruct Hsrc as [url Hurl].
  unfold Upstream.attempt. now rewrite Hurl, (Hans url Hurl).
Qed.

Lemma fetch_attempt_holds (rt : Runtime) (fcu : string -> option string) (ts0 : Z) :
  fetch_attempt rt fcu ts0.
Proof.
  unfold fetch_attempt. split; [|split; [|split; [|split]]].
  - intros source q fetchJson Hsrc Hans.
    rewrite (attempt_on_payload rt fcu ts0 source _ fetchJson Hsrc Hans).
    destruct Hsrc as [<-|[<-|[<-|[<-|[]]]]]; reflexivity.
  - intros source fetchJson Hsrc Hans.
    rewrite (attempt_on_payload rt fcu ts0 source _ fetchJson Hsrc Hans).
    destruct Hsrc as [<-|[<-|[<-|[<-|[]]]]]; reflexivity.
  - intros source fetchJson Hsrc Hans.
    rewrite (attempt_on_payload rt fcu ts0 source _ fetchJson Hsrc Hans).
    destruct Hsrc as [<-|[<-|[<-|[<-|[]]]]]; reflexivity.
  - intros source fetchJson e url Hurl Herr. unfold Upstream.attempt.
    now rewrite Hurl, Herr.
  - intros source fetchJson Hsrc. unfold Upstream.attempt.
    destruct (Upstream.url_of source) as [url|] eqn:Hurl; [|reflexivity].
    exfalso. apply Hsrc. apply url_of_recognized. eauto.
Qed.

(** X18: one attempt of a fetcher. A payload that holds a JSON number
    where the source's price is read gives a sample for the source whose
    value is the double nearest that number, stamped with the time
    [fetchPrice] was called, whatever the number's sign, and gives the
    error "bad price" when the number is beyond the range of the doubles;
    a [null] there gives a sample of value 0; a payload without the member
    gives the error "bad price"; an error of the request is passed on; and
    a source outside the four recognized ones gives "unknown source"
    without any request. *)
Theorem fetcher_attempt_cases (rt : Runtime) (fcu : string -> option string) (ts0 : Z) :
  fetch_attempt rt fcu ts0.
Proof. exact (fetch_attempt_holds rt fcu ts0). Qed.

Example huge_price_is_refused :
  Upstream.attempt example_runtime (fun _ => None) "bitstamp" 5000
    (fun _ => Ok (payload_with "bitstamp" (JNum (inject_Z (10 ^ 999)))))
  = Throw "bad price".
Proof. vm_compute. reflexivity. Qed.

Lemma attempt_sample (rt : Runtime) (fcu : string -> option string) (src : string)
    (ts0 : Z) (fetchJson : string -> result json) (s : PriceSample) :
  Upstream.attempt rt fcu src ts0 fetchJson = Ok s ->
  In src ALL_SOURCES /\ s = mkSample src (value s) ts0.
Proof.
  unfold Upstream.attempt. destruct (Upstream.url_of src) as [url|] eqn:Hurl; [|discriminate].
  destruct (fetchJson url) as [j|e]; [|discriminate].
  destruct (Upstream.price_in rt fcu src j) as [[|price| |]|e]; try discriminate.
  intros H. injection H as <-. split; [|reflexivity].
  apply url_of_recognized. eauto.
Qed.

(** X19: [fetchPrice] as a whole. When it fulfils, it has made between
    one and [FETCH_RETRIES + 1] attempts, the source is a recognized one,
    and the sample is the one the request handler counts for that source:
    it names the source and carries the time of the call. When it rejects,
    each of the [FETCH_RETRIES + 1] attempts has thrown; for an
    unrecognized source the error is "unknown source". *)
Theorem fetchPrice_outcome (rt : Runtime) (fcu : string -> option string) (retries : Z)
    (src : string) (ts0 : Z) (network : nat -> string -> result json) :
  fetch_outcome rt fcu retries src ts0 network.
Proof.
  unfold fetch_outcome, Upstream.fetchPrice.
  pose proof (withRetries_outcome
                (fun i => Upstream.attempt rt fcu src ts0 (network i)) retries) as H.
  unfold retry_outcome in H.
  destruct (withRetries _ retries) as [[s|err] calls].
  - destruct H as [Hc [Hs _]]. cbn beta in Hs. apply attempt_sample in Hs.
    destruct Hs as [Hsrc Hs]. split; [exact Hc|]. split; [exact Hsrc|].
    unfold fetchPrice. apply includes_str_In in Hsrc. rewrite Hsrc. now rewrite Hs at 2.
  - destruct H as [Hc [Hall Herr]]. split; [exact Hc|]. split; [exact Hall|].
    intros Hsrc Hr. rewrite Herr. destruct (Z.to_nat (retries + 1)) as [|j]; [lia|].
    unfold thrown_at.
    now rewrite (proj2 (proj2 (proj2 (proj2 (fetch_attempt_holds rt fcu ts0)))) src _ Hsrc).
Qed.

(** ** The connection *)

Lemma onMessage_within (cfg : Config) (rt : Runtime) (ws : ExtendedWebSocket)
    (raw : RawData) (now : Z) (r : Relay) :
  within_size cfg raw ->
  onMessage cfg rt ws raw now r
  = match parsed raw with
    | C_other => (ws, Returned Finished r [])
    | C_EVENT evt => (ws, onEVENT cfg rt ws evt now r)
    | C_REQ subId filters =>
        let '(ws, out) := onREQ ws subId filters r in (ws, Returned Finished r out)
    | C_CLOSE subId => (set_subs (delete subId (subs ws)) ws, Returned Finished r [])
    end.
Proof.
  intros H. unfold onMessage, within_size in *.
  destruct (Z.gtb_spec (toString_length (bytes raw)) (MAX_EVENT_BYTES cfg)); [lia|].
  reflexivity.
Qed.

(** X20: the subscription table of a connection. A REQ frame records
    its filters under its subscription id, replacing what was there and
    leaving the other ids alone; the table grows by one for a new id,
    however many subscriptions it holds. A CLOSE frame removes the id,
    sends nothing and changes nothing else; after a REQ for a new id and
    its CLOSE the table is what it was before. *)
Theorem req_then_close (cfg : Config) (rt : Runtime) (ws : ExtendedWebSocket)
    (req close : RawData) (subId : string) (filters : list NostrFilter) (now : Z) (r : Relay) :
  within_size cfg req -> parsed req = C_REQ subId filters ->
  within_size cfg close -> parsed close = C_CLOSE subId ->
  subscription_table cfg rt ws req close subId filters now r.
Proof.
  intros Hs1 Hp1 Hs2 Hp2. unfold subscription_table.
  rewrite (onMessage_within cfg rt ws req now r Hs1), Hp1.
  unfold onREQ. cbn [fst snd].
  rewrite (onMessage_within cfg rt _ close now r Hs2), Hp2. cbn [fst snd subs set_subs].
  split; [apply lookup_insert_eq|].
  split; [intros other Hne; now apply lookup_insert_ne|].
  split; [intros Hnew; now apply map_size_insert_None|].
  split; [reflexivity|].
  split; [apply lookup_delete_eq|].
  split.
  - intros other Hne. rewrite lookup_delete_ne by congruence.
    now apply lookup_insert_ne.
  - intros Hnew. rewrite delete_insert_eq. now apply delete_id.
Qed.

Lemma req_then_close_witness :
  (within_size default_config req_frame /\
   parsed req_frame = C_REQ "s1" [kind_one_filter; kind_one_filter] /\
   within_size default_config close_frame /\
   parsed close_frame = C_CLOSE "s1") /\
  subscription_table default_config example_runtime open_socket req_frame close_frame
                     "s1" [kind_one_filter; kind_one_filter] 0 three_note_relay.
Proof.
  assert (H1 : within_size default_config req_frame) by (vm_compute; discriminate).
  assert (H2 : parsed req_frame = C_REQ "s1" [kind_one_filter; kind_one_filter])
    by reflexivity.
  assert (H3 : within_size default_config close_frame) by (vm_compute; discriminate).
  assert (H4 : parsed close_frame = C_CLOSE "s1") by reflexivity.
  split; [tauto|].
  exact (req_then_close default_config example_runtime open_socket req_frame close_frame
           "s1" [kind_one_filter; kind_one_filter] 0 three_note_relay H1 H2 H3 H4).
Defined.

Lemma no_OK_in_price_effects (cfg : Config) (rt : Runtime) (r : Relay) (evt : NostrEvent)
    (now : Z) (m : RelayMsg) :
  ~ In (Sent m) (effects (handlePriceRequest cfg rt r evt now)).
Proof.
  unfold handlePriceRequest.
  assert (Hemit : forall params, ~ In (Sent m) (effects (finish (emit cfg rt r now params)))).
  { intros params. rewrite effects_finish. unfold emit.
    destruct (signEvent _ _ _); simpl; intuition discriminate. }
  assert (Hfan : forall sources, ~ In (Sent m) (List.map Fetch sources)).
  { induction sources; simpl; intuition discriminate. }
  destruct (is_BTC_USD (req_pair evt)); cbn [negb]; [|apply Hemit].
  destruct (cacheGet cfg now (priceCache r)) as [cached|]; [|apply Hfan].
  destruct (Js.le _ _); [|apply Hfan].
  destruct (aggregate _ _); [apply Hemit | intros []].
Qed.

Lemma onEVENT_answered_first (cfg : Config) (rt : Runtime) (ws : ExtendedWebSocket)
    (evt : NostrEvent) (now : Z) (r : Relay) :
  readyState ws = OPEN -> answered_first cfg rt ws evt now r.
Proof.
  intros Hopen. unfold answered_first, accepted, onEVENT.
  destruct (verifyEvent rt evt) eqn:Hver; cbn [negb].
  2:{ rewrite (send_open _ _ Hopen). eexists false, _, []. split; [reflexivity|].
      split; [split; [discriminate | intros [H _]; discriminate H]|]. intros ? ? ? []. }
  destruct (allow (ipLimiter r) ("ip:" ++ ip ws)%string now) as [ok_ip ipl].
  destruct ok_ip; cbn [negb fst].
  2:{ rewrite (send_open _ _ Hopen). eexists false, _, []. split; [reflexivity|].
      split; [split; [discriminate | intros [_ [H _]]; discriminate H]|]. intros ? ? ? []. }
  change (pubLimiter (set_ipLimiter ipl r)) with (pubLimiter r).
  destruct (allow (pubLimiter r) ("pub:" ++ pubkey evt)%string now) as [ok_pub publ].
  destruct ok_pub; cbn [negb fst].
  2:{ rewrite (send_open _ _ Hopen). eexists false, _, []. split; [reflexivity|].
      split; [split; [discriminate | intros [_ [_ H]]; discriminate H]|]. intros ? ? ? []. }
  rewrite (send_open _ _ Hopen).
  destruct (kind evt =? KIND_PRICE_REQ).
  2:{ eexists true, _, []. split; [reflexivity|]. split; [tauto|]. intros ? ? ? []. }
  match goal with |- context [handlePriceRequest cfg rt ?r0 evt now] =>
    pose proof (fun m => no_OK_in_price_effects cfg rt r0 evt now m) as Hno;
    destruct (handlePriceRequest cfg rt r0 evt now) as [st r1 out|msg r1 out] end;
    cbn [after effects app] in *;
    (eexists true, _, out; split; [reflexivity|]; split; [tauto|];
     intros id' ok' reason'; apply Hno).
Qed.

(** X21: on an open socket the EVENT branch answers every event first
    of all with one OK frame for the event's id, before any broadcast or
    fetch; the frame says [true] exactly when the event verifies and both
    limiters admit it, and no second OK follows. *)
Theorem event_is_acknowledged_first (cfg : Config) (rt : Runtime)
    (ws : ExtendedWebSocket) (evt : NostrEvent) (now : Z) (r : Relay) :
  readyState ws = OPEN -> answered_first cfg rt ws evt now r.
Proof. exact (onEVENT_answered_first cfg rt ws evt now r). Qed.

Lemma event_is_acknowledged_first_witness :
  readyState open_socket = OPEN /\
  answered_first default_config example_runtime open_socket plain_request 5000 fresh_relay.
Proof.
  split; [reflexivity|].
  apply (event_is_acknowledged_first default_config example_runtime open_socket
           plain_request 5000 fresh_relay).
  reflexivity.
Defined.

(** X22: for a frame whose text is ASCII, on an open socket, the relay
    answers [NOTICE "payload too large"] and nothing else exactly when the
    frame has more than MAX_EVENT_BYTES bytes; the state is then left
    untouched. *)
Theorem ascii_frame_guard (cfg : Config) (rt : Runtime) (ws : ExtendedWebSocket)
    (raw : RawData) (now : Z) (r : Relay) :
  readyState ws = OPEN ->
  Forall is_ascii (bytes raw) ->
  (effects (snd (onMessage cfg rt ws raw now r)) = too_large
   <-> byteLength (bytes raw) > MAX_EVENT_BYTES cfg) /\
  (byteLength (bytes raw) > MAX_EVENT_BYTES cfg ->
   onMessage cfg rt ws raw now r = (ws, Returned Finished r too_large)).
Proof.
  intros Hopen Hascii. rewrite <- (ascii_length_is_byte_length _ Hascii).
  assert (Hrej : toString_length (bytes raw) > MAX_EVENT_BYTES cfg ->
                 onMessage cfg rt ws raw now r = (ws, Returned Finished r too_large)).
  { intros H. rewrite (guard_rejects cfg rt ws raw now r H).
    now rewrite (send_open _ _ Hopen). }
  split; [|exact Hrej]. split; [|intros H; now rewrite (Hrej H)].
  intros Heff.
  destruct (Z_gt_le_dec (toString_length (bytes raw)) (MAX_EVENT_BYTES cfg)) as [H|H];
    [exact H|exfalso].
  rewrite (onMessage_within cfg rt ws raw now r H) in Heff.
  destruct (parsed raw) as [evt|subId filters|subId|]; cbn [snd effects] in Heff.
  - destruct (onEVENT_answered_first cfg rt ws evt now r Hopen)
      as [ok [reason [rest [Hfirst _]]]].
    rewrite Hfirst in Heff. discriminate Heff.
  - unfold onREQ in Heff. cbn [snd effects] in Heff.
    assert (Hopen' : readyState (set_subs (<[subId:=filters]> (subs ws)) ws) = OPEN)
      by exact Hopen.
    rewrite (send_open _ (EOSE subId) Hopen') in Heff.
    apply (f_equal (@rev Effect)) in Heff. rewrite rev_app_distr in Heff.
    discriminate Heff.
  - discriminate Heff.
  - discriminate Heff.
Qed.

Lemma ascii_frame_guard_witness :
  (readyState open_socket = OPEN /\ Forall is_ascii (bytes close_frame)) /\
  (effects (snd (onMessage default_config example_runtime open_socket close_frame 0
                   fresh_relay)) = too_large
   <-> byteLength (bytes close_frame) > MAX_EVENT_BYTES default_config) /\
  (byteLength (bytes close_frame) > MAX_EVENT_BYTES default_config ->
   onMessage default_config example_runtime open_socket close_frame 0 fresh_relay
   = (open_socket, Returned Finished fresh_relay too_large)).
Proof.
  assert (H1 : readyState open_socket = OPEN) by reflexivity.
  assert (H2 : Forall is_ascii (bytes close_frame)).
  { apply List.Forall_forall. intros b Hb. vm_compute in Hb.
    repeat (destruct Hb as [<-|Hb]; [vm_compute; reflexivity|]). destruct Hb. }
  split; [tauto|].
  exact (ascii_frame_guard default_config example_runtime open_socket close_frame 0
           fresh_relay H1 H2).
Defined.

(** ** The client's subscription and the relay's identity *)

Lemma e_tag_of_reply (evt : NostrEvent) (marker : string) (pair : json)
    (extra : list PriceSample) (l : list (list json)) :
  l = reply_tags evt marker pair
        ++ List.map (fun s => [JStr "src"; JStr (source s)]) extra ->
  List.map (fun t => nth_error t 1)
    (List.filter (fun t : list json =>
                    match t with
                    | JStr n :: _ => String.eqb n "e"
                    | _ => false
                    end) l)
  = [Some (JStr (id evt))].
Proof.
  intros ->. rewrite List.filter_app.
  assert (Htail : List.filter (fun t : list json =>
                                 match t with
                                 | JStr n :: _ => String.eqb n "e"
                                 | _ => false
                                 end)
                    (List.map (fun s => [JStr "src"; JStr (source s)]) extra) = []).
  { induction extra as [|s extra IH]; [reflexivity | exact IH]. }
  rewrite Htail. reflexivity.
Qed.

Lemma subscription_check (e : NostrEvent) (requestId reqId : string) :
  kind e = KIND_PRICE_RES \/ kind e = KIND_PRICE_ERR ->
  tag_values e "e" = [Some (JStr reqId)] ->
  matchFilter e (Client.subscribe_filter requestId) = String.eqb requestId reqId.
Proof.
  intros Hkind Htag. rewrite matchFilter_checks.
  cbn [Client.subscribe_filter ids kinds authors since until tag_filters forallb existsb].
  rewrite Htag. cbn [includes_tagval existsb].
  assert (Hk : includes_Z [38001; 38002] (kind e) = true).
  { apply includes_Z_In. destruct Hkind as [-> | ->]; simpl; tauto. }
  rewrite Hk. cbn [andb]. now rewrite !orb_false_r, !andb_true_r.
Qed.

Lemma broadcast_of_price_request (cfg : Config) (rt : Runtime) (r : Relay)
    (evt : NostrEvent) (now : Z) (e : NostrEvent) :
  In (Broadcast (EVENT e)) (effects (handlePriceRequest cfg rt r evt now)) ->
  (kind e = KIND_PRICE_RES \/ kind e = KIND_PRICE_ERR) /\
  tag_values e "e" = [Some (JStr (id evt))].
Proof.
  unfold handlePriceRequest. intros Hin.
  destruct (is_BTC_USD (req_pair evt)); cbn [negb] in Hin.
  2:{ rewrite effects_finish in Hin. apply emit_effects in Hin. destruct Hin as [sk ->].
      split; [now right|]. apply (e_tag_of_reply evt "price-error" (req_pair evt) []).
      reflexivity. }
  destruct (cacheGet cfg now (priceCache r)) as [cached|].
  2:{ now apply fetch_is_no_broadcast in Hin. }
  destruct (Js.le _ _).
  2:{ now apply fetch_is_no_broadcast in Hin. }
  destruct (aggregate _ _) as [a|m]; [|destruct Hin].
  rewrite effects_finish in Hin. apply emit_effects in Hin. destruct Hin as [sk ->].
  split; [now left|]. now apply (e_tag_of_reply evt "price" (req_pair evt) (agg_used a)).
Qed.

Lemma broadcast_of_resume (cfg : Config) (rt : Runtime) (r : Relay) (k : Pending)
    (upstream : nat -> string -> option Q) (now : Z) (e : NostrEvent) :
  In (Broadcast (EVENT e)) (effects (resumePriceRequest cfg rt r k upstream now)) ->
  (kind e = KIND_PRICE_RES \/ kind e = KIND_PRICE_ERR) /\
  tag_values e "e" = [Some (JStr (id (p_evt k)))].
Proof.
  unfold resumePriceRequest. intros Hin.
  destruct (_ <? MIN_QUORUM cfg).
  - apply emit_effects in Hin. destruct Hin as [sk ->].
    split; [now right|]. apply (e_tag_of_reply (p_evt k) "price-error" (p_pair k) []).
    reflexivity.
  - destruct (aggregate _ _) as [a|m]; [|destruct Hin].
    apply emit_effects in Hin. destruct Hin as [sk ->].
    split; [now left|]. now apply (e_tag_of_reply (p_evt k) "price" (p_pair k) (agg_used a)).
Qed.

(** X23: the filter the client subscribes with after a request, kinds
    38001 and 38002 with an "e" tag of the request's id, accepts every
    event the relay broadcasts for that request, and accepts none of the
    events it broadcasts for a request with another id. *)
Theorem replies_reach_their_subscription (cfg : Config) (rt : Runtime) :
  found_by_own_subscription cfg rt.
Proof.
  split.
  - intros r evt now e requestId Hin.
    destruct (broadcast_of_price_request cfg rt r evt now e Hin) as [Hkind Htag].
    now apply subscription_check.
  - intros r k upstream now e requestId Hin.
    destruct (broadcast_of_resume cfg rt r k upstream now e Hin) as [Hkind Htag].
    now apply subscription_check.
Qed.

(** X24: the relay's identity. Before [ensureRelayKeys] has run,
    [signEvent] throws; once it has run on the freshly loaded module,
    [signEvent] returns, for every template whose tags hold strings only,
    an event that keeps the template's kind, tags and content, is dated
    with the clock in whole seconds and carries the public key that the
    information document publishes, and throws on every other template;
    and running [ensureRelayKeys] again changes nothing, the public key
    not being the empty text. *)
Theorem identity_after_setup (cfg : Config) (rt : Runtime) (generated : string) :
  identity_set_up cfg rt generated.
Proof.
  unfold identity_set_up. cbv zeta.
  change (Setup.ensureRelayKeys rt generated Setup.unset)
    with (Setup.mkKeys (Some generated) (getPublicKey rt generated)).
  cbn [Setup.secret_key Setup.unset Setup.getRelayInfo Setup.info_pubkey
       Setup.RELAY_PUBKEY_HEX].
  split; [reflexivity|]. split; [reflexivity|]. split; [|split].
  - intros now params Htags. unfold signEvent. rewrite finalizeEvent_cases, Htags.
    eexists. split; [reflexivity|]. now repeat split.
  - intros now params Htags. unfold signEvent. now rewrite finalizeEvent_cases, Htags.
  - intros Hne other. unfold Setup.ensureRelayKeys. cbn.
    destruct (String.eqb_spec (getPublicKey rt generated) ""); [contradiction | reflexivity].
Qed.

(** X25: of the four limits the information document publishes, the
    relay applies two: no filter is answered with more than [max_limit]
    events, and a frame whose text is longer than [max_message_length] is
    refused. It applies neither [max_subscriptions] nor [max_filters]: a
    REQ on a connection that already holds that many subscriptions, with
    more filters than that, is recorded and answered for every filter. *)
Theorem limits_published_and_applied (cfg : Config) (rt : Runtime) (k : Setup.Keys) :
  advertised_limits cfg rt k.
Proof.
  unfold advertised_limits. cbn [Setup.getRelayInfo Setup.limitations Setup.max_limit
                                  Setup.max_message_length Setup.max_subscriptions
                                  Setup.max_filters].
  split; [|split].
  - intros events f. rewrite queryEvents_backfill. cbn [flat_map]. rewrite app_nil_r.
    pose proof (backfill_length events f). lia.
  - intros ws raw now r H. now apply guard_rejects.
  - intros ws subId filters r _ _. split.
    + unfold onREQ. cbn [fst subs set_subs]. apply lookup_insert_eq.
    + apply queryEvents_backfill.
Qed.

Lemma emit_stores (cfg : Config) (rt : Runtime) (r r' : Relay) (now : Z)
    (params : EventTemplate) (out : list Effect) (e : NostrEvent) :
  emit cfg rt r now params = Returned tt r' out ->
  In (Broadcast (EVENT e)) out ->
  events r' = storeEvent cfg e (events r).
Proof.
  unfold emit. destruct (signEvent _ _ _) as [e0|m]; [|discriminate].
  intros H Hin. injection H as <- <-. destruct Hin as [Hin|[]].
  injection Hin as <-. reflexivity.
Qed.

Lemma finish_returned (o : Outcome unit) (step : Step) (r' : Relay) (out : list Effect) :
  finish o = Returned step r' out -> o = Returned tt r' out.
Proof. destruct o as [[] r0 out0|]; [|discriminate]. intros H. now injection H as _ <- <-. Qed.

Lemma backfilled_after_store (cfg : Config) (req e : NostrEvent) (r r' : Relay) :
  1 <= MAX_STORED_EVENTS cfg ->
  (kind e = KIND_PRICE_RES \/ kind e = KIND_PRICE_ERR) ->
  tag_values e "e" = [Some (JStr (id req))] ->
  events r' = storeEvent cfg e (events r) ->
  reply_is_backfilled req e r'.
Proof.
  intros Hcap Hkind Htag Hev. unfold reply_is_backfilled. rewrite Hev.
  destruct (stored_event_first_holds cfg e (events r) (Client.subscribe_filter (id req)))
    as [rest [Hq _]]; [exact Hcap | vm_compute; discriminate | |eauto].
  rewrite (subscription_check e (id req) (id req) Hkind Htag). apply String.eqb_refl.
Qed.

(** X26: with a store that keeps at least one event, the reply a run
    broadcasts is in the store when the run returns, and a client that
    subscribes for the request only then, with the filter of its
    [subscribe], gets that reply as the first event of the backfill. *)
Theorem reply_found_by_late_subscription (cfg : Config) (rt : Runtime) :
  1 <= MAX_STORED_EVENTS cfg -> backfill_after_reply cfg rt.
Proof.
  intros Hcap. split.
  - intros r evt now step r' out e Hrun Hin.
    assert (Hbroadcast : In (Broadcast (EVENT e))
                            (effects (handlePriceRequest cfg rt r evt now)))
      by (rewrite Hrun; exact Hin).
    destruct (broadcast_of_price_request cfg rt r evt now e Hbroadcast) as [Hkind Htag].
    apply (backfilled_after_store cfg evt e r r' Hcap Hkind Htag).
    unfold handlePriceRequest in Hrun.
    destruct (is_BTC_USD (req_pair evt)); cbn [negb] in Hrun.
    2:{ apply finish_returned in Hrun. exact (emit_stores _ _ _ _ _ _ _ _ Hrun Hin). }
    destruct (cacheGet cfg now (priceCache r)) as [cached|].
    2:{ injection Hrun as _ _ <-. now apply fetch_is_no_broadcast in Hin. }
    destruct (Js.le _ _).
    2:{ injection Hrun as _ _ <-. now apply fetch_is_no_broadcast in Hin. }
    destruct (aggregate _ _) as [a|m]; [|discriminate].
    apply finish_returned in Hrun. exact (emit_stores _ _ _ _ _ _ _ _ Hrun Hin).
  - intros r k upstream now r' out e Hrun Hin.
    assert (Hbroadcast : In (Broadcast (EVENT e))
                            (effects (resumePriceRequest cfg rt r k upstream now)))
      by (rewrite Hrun; exact Hin).
    destruct (broadcast_of_resume cfg rt r k upstream now e Hbroadcast) as [Hkind Htag].
    unfold resumePriceRequest in Hrun.
    destruct (_ <? MIN_QUORUM cfg).
    + apply (backfilled_after_store cfg (p_evt k) e r r' Hcap Hkind Htag).
      exact (emit_stores _ _ _ _ _ _ _ _ Hrun Hin).
    + destruct (aggregate _ _) as [a|m]; [|discriminate].
      apply (backfilled_after_store cfg (p_evt k) e
               (set_priceCache (cacheSet now (omap (fun x => x)
                  (settle_from upstream 0 (p_sources k) (p_ts k)))) r) r' Hcap Hkind Htag).
      exact (emit_stores _ _ _ _ _ _ _ _ Hrun Hin).
Qed.

Lemma reply_found_by_late_subscription_witness :
  1 <= MAX_STORED_EVENTS default_config /\
  backfill_after_reply default_config example_runtime.
Proof.
  split; [simpl; lia|].
  apply (reply_found_by_late_subscription default_config example_runtime). simpl. lia.
Defined.

(** ** Tags, and runs that throw *)

Lemma getTag_from_lookup (tags0 : list (list json)) (name : string) :
  match getTag_from tags0 name with
  | Some v =>
      exists before t after,
        tags0 = before ++ t :: after /\ names_value t name v /\
        forall t' v', In t' before -> ~ names_value t' name v'
  | None => forall t v, In t tags0 -> ~ names_value t name v
  end.
Proof.
  induction tags0 as [|t tags0 IH]; cbn [getTag_from]; [intros t v []|].
  assert (Hskip : (forall v, ~ names_value t name v) ->
            match getTag_from tags0 name with
            | Some v =>
                exists before t1 after,
                  t :: tags0 = before ++ t1 :: after /\ names_value t1 name v /\
                  forall t' v', In t' before -> ~ names_value t' name v'
            | None => forall t1 v, In t1 (t :: tags0) -> ~ names_value t1 name v
            end).
  { intros Hnot. destruct (getTag_from tags0 name) as [v|].
    - destruct IH as [before [t1 [after [-> [Hval Hfirst]]]]].
      exists (t :: before), t1, after. split; [reflexivity|]. split; [exact Hval|].
      intros t' v' [<-|Hin]; [apply Hnot | now apply Hfirst].
    - intros t1 v [<-|Hin]; [apply Hnot | now apply IH]. }
  destruct t as [|[| | |n| |] [|w t]]; try (apply Hskip; intros v [H0 [H1 _]]; discriminate).
  destruct (String.eqb_spec n name) as [->|Hne]; cbn [andb].
  - destruct (Js.truthy w) eqn:Hw.
    + exists [], (JStr name :: w :: t), tags0. split; [reflexivity|].
      split; [now repeat split | intros t' v' []].
    + apply Hskip. intros v [_ [H1 Hv]]. injection H1 as <-. congruence.
  - apply Hskip. intros v [H0 _]. injection H0 as ->. congruence.
Qed.

(** X27: [getTag] returns the second element of the first tag that has
    the name asked for and a truthy second element, tags with a missing,
    empty or otherwise falsy value being passed over; it returns nothing
    exactly when the event has no such tag. *)
Theorem getTag_first_truthy (evt : NostrEvent) (name : string) : tag_lookup evt name.
Proof. exact (getTag_from_lookup (tags evt) name). Qed.

(** X28: in a state where the signing key is set and the cache entry,
    if there is one, holds samples, no run for an EVENT frame throws,
    provided that a price request names its pair by a string, or not at
    all, and gives its method and its maxAgeMs, if at all, as null, a
    boolean, a number or a string; the state the run leaves is again such
    a state. With MIN_QUORUM at least one the same holds for the part of
    such a request that runs after its fetches. *)
Theorem ready_relay_never_throws (cfg : Config) (rt : Runtime) (r : Relay) :
  1 <= MIN_QUORUM cfg -> relay_ready r -> runs_return cfg rt r.
Proof.
  intros Hq Hready. split.
  - intros ws evt now Hplain. apply onEVENT_keeps_ready; [exact Hready|].
    intros Hkind. exact (proj1 (Hplain Hkind)).
  - intros k upstream now Hpair.
    destruct (resume_terminal cfg rt r k upstream now Hq Hready Hpair)
      as [r' [e [Hrun [_ Hr']]]].
    eauto.
Qed.

Lemma ready_relay_never_throws_witness :
  (1 <= MIN_QUORUM default_config /\ relay_ready fresh_relay) /\
  runs_return default_config example_runtime fresh_relay.
Proof.
  assert (H1 : 1 <= MIN_QUORUM default_config) by (simpl; lia).
  assert (H2 : relay_ready fresh_relay) by apply initial_relay_ready.
  split; [tauto|].
  exact (ready_relay_never_throws default_config example_runtime fresh_relay H1 H2).
Defined.

(** X29: with MIN_QUORUM at zero or below, a request none of whose
    fetches is fulfilled passes the quorum test, overwrites the cache
    with an entry that holds no sample and then throws "no samples"
    without any reply; until that entry is too old, every request for
    BTC-USD that would be served from it throws as well. *)
Theorem empty_quorum_poisons_cache (cfg : Config) (rt : Runtime) (r : Relay) (k : Pending)
    (upstream : nat -> string -> option Q) (now : Z) :
  MIN_QUORUM cfg <= 0 ->
  fetched k upstream = [] ->
  empty_entry_throws cfg rt r k upstream now.
Proof.
  intros Hq Hnone. unfold empty_entry_throws, fetched in *. split.
  - unfold resumePriceRequest. rewrite Hnone. cbn [length].
    destruct (Z.ltb_spec (Z.of_nat 0) (MIN_QUORUM cfg)); [simpl in *; lia | reflexivity].
  - intros evt2 now2 Hpair Httl Hage. unfold handlePriceRequest.
    rewrite Hpair. cbn [negb set_priceCache priceCache cacheSet cacheGet tsMs samples].
    destruct (Z.gtb_spec (now2 - now) (CACHE_TTL_MS cfg)); [lia|].
    cbn [ageMs hit_samples]. now rewrite Hage.
Qed.

Lemma empty_quorum_poisons_cache_witness :
  (MIN_QUORUM no_floor_config <= 0 /\ fetched all_sources_pending silent_upstream = []) /\
  empty_entry_throws no_floor_config example_runtime fresh_relay all_sources_pending
                     silent_upstream 5100.
Proof.
  assert (H1 : MIN_QUORUM no_floor_config <= 0) by (simpl; lia).
  assert (H2 : fetched all_sources_pending silent_upstream = []) by reflexivity.
  split; [tauto|].
  exact (empty_quorum_poisons_cache no_floor_config example_runtime fresh_relay
           all_sources_pending silent_upstream 5100 H1 H2).
Defined.

(** X30: an accepted price request that names its pair by a string, or
    not at all, and gives its method and its maxAgeMs, if at all, as null,
    a boolean, a number or a string, is answered by exactly one terminal
    event that replies to it, whichever branch the handler takes: the
    unsupported-pair error, the cached response, or, after the fetches
    have settled, the quorum error or the fresh response. The relay's
    signing key is in place, MIN_QUORUM is at least one, and a cache
    entry, if present, holds samples, which every such run preserves. *)
Theorem plain_request_one_terminal (cfg : Config) (rt : Runtime)
    (ws : ExtendedWebSocket) (evt : NostrEvent) (now : Z) (r : Relay) :
  1 <= MIN_QUORUM cfg ->
  relay_ready r ->
  kind evt = KIND_PRICE_REQ ->
  plain_members evt ->
  accepted rt ws evt now r ->
  one_terminal_event cfg rt ws evt now r.
Proof.
  intros Hq Hready Hkind [Hpair _] Hacc. now apply string_pair_one_terminal.
Qed.

Lemma plain_request_one_terminal_witness :
  (1 <= MIN_QUORUM default_config /\
   relay_ready fresh_relay /\
   kind plain_request = KIND_PRICE_REQ /\
   plain_members plain_request /\
   accepted example_runtime open_socket plain_request 5000 fresh_relay) /\
  one_terminal_event default_config example_runtime open_socket plain_request 5000
                     fresh_relay.
Proof.
  assert (H1 : 1 <= MIN_QUORUM default_config) by (simpl; lia).
  assert (H2 : relay_ready fresh_relay) by apply initial_relay_ready.
  assert (H3 : kind plain_request = KIND_PRICE_REQ) by reflexivity.
  assert (H4 : plain_members plain_request).
  { split; [reflexivity|]. split; intros v Hv; vm_compute in Hv; injection Hv as <-;
      reflexivity. }
  assert (H5 : accepted example_runtime open_socket plain_request 5000 fresh_relay)
    by (repeat split; vm_compute; reflexivity).
  split; [tauto|].
  exact (plain_request_one_terminal default_config example_runtime open_socket
           plain_request 5000 fresh_relay H1 H2 H3 H4 H5).
Defined.
